(** * Concept Store & Hierarchy Engine

    A shallow embedding of the concept tracker's storage service
    (services/storage.ts), export service (services/export.ts) and
    scanner service (services/scanner.ts), with the properties of the
    specification stated over it.

    Conventions of the embedding:
    - JavaScript strings are [string] (sequences of 8-bit characters);
      [toLowerCase], [trim], the [/i] flag and [\w] act on the ASCII range
      and leave every other character alone.
    - [string | undefined] and [string | null] are [option string]; the
      JavaScript truthiness test [if (x)] on such a value is [truthy].
    - Arrays are lists; an object mutated in place is rebuilt, and an array
      slot written in place is a list insert at that index.
    - Every [new Date().toISOString()] is a reading of a clock; the
      readings one operation takes are passed to it as a [Clock].
    - A thrown [Error] is the [Throw] result. *)

From Stdlib Require Import Ascii String DecimalString DecimalNat DecimalFacts.
From stdpp Require Import base option list strings gmap sets.

#[local] Arguments String.append !_ _ / : simpl nomatch.

Set Warnings "-clear-no-such-hyp,-register-all".

(** ** types/concept.ts *)

Inductive ConceptCategory := language | library | pattern | architecture.

Record ChatSnippet := { timestamp : string; content : string }.

Record Concept := {
  id : string;
  name : string;
  category : ConceptCategory;
  parent : option string;
  explanation : string;
  chatSnippets : list ChatSnippet;
  codeLocations : list string;
  firstSeen : string;
  lastSeen : string
}.

Record ConceptStore := {
  version : string;
  concepts : list Concept;
  lastUpdated : string
}.

Record ExtractedConcept := {
  ex_name : string;
  ex_category : ConceptCategory;
  ex_parent : option string;
  ex_explanation : string
}.

#[global] Instance ConceptCategory_eq_dec : EqDecision ConceptCategory.
Proof. solve_decision. Defined.
#[global] Instance ChatSnippet_eq_dec : EqDecision ChatSnippet.
Proof. solve_decision. Defined.
#[global] Instance Concept_eq_dec : EqDecision Concept.
Proof. solve_decision. Defined.
#[global] Instance ConceptStore_eq_dec : EqDecision ConceptStore.
Proof. solve_decision. Defined.

(** ** JavaScript primitives *)

(** [if (s)] for [s : string | undefined | null]: the empty string is falsy. *)
Definition truthy (s : option string) : bool :=
  match s with
  | Some (String _ _) => true
  | _ => false
  end.

Definition lower_ascii (a : ascii) : ascii :=
  let n := nat_of_ascii a in
  if bool_decide (65 ≤ n ≤ 90) then ascii_of_nat (n + 32) else a.

Fixpoint toLowerCase (s : string) : string :=
  match s with
  | EmptyString => EmptyString
  | String a s => String (lower_ascii a) (toLowerCase s)
  end.

Definition upper_ascii (a : ascii) : ascii :=
  let n := nat_of_ascii a in
  if bool_decide (97 ≤ n ≤ 122) then ascii_of_nat (n - 32) else a.

Fixpoint toUpperCase (s : string) : string :=
  match s with
  | EmptyString => EmptyString
  | String a s => String (upper_ascii a) (toUpperCase s)
  end.

(** [[...new Set(l)]]: the elements of [l] in order of first occurrence. *)
Fixpoint setOrder (seen : gset string) (l : list string) : list string :=
  match l with
  | [] => []
  | x :: l =>
      if decide (x ∈ seen) then setOrder seen l
      else x :: setOrder ({[x]} ∪ seen) l
  end.

(** The white space [trim] removes. *)
Definition isWhiteSpace (a : ascii) : bool :=
  let n := nat_of_ascii a in
  bool_decide (9 ≤ n ≤ 13) || bool_decide (n = 32).

Fixpoint trimStart (s : string) : string :=
  match s with
  | String a s' => if isWhiteSpace a then trimStart s' else s
  | EmptyString => EmptyString
  end.

Definition trimEnd (s : string) : string := String.rev (trimStart (String.rev s)).

Definition trim (s : string) : string := trimEnd (trimStart s).

(** [s.slice(0, n)] *)
Fixpoint sliceTo (n : nat) (s : string) : string :=
  match n, s with
  | S n, String a s => String a (sliceTo n s)
  | _, _ => EmptyString
  end.

(** [s.split(sep)] for a one-character separator. *)
Fixpoint split (sep : ascii) (s : string) : list string :=
  match s with
  | EmptyString => [EmptyString]
  | String a s =>
      if decide (a = sep) then EmptyString :: split sep s
      else match split sep s with
           | l :: ls => String a l :: ls
           | [] => [String a EmptyString]
           end
  end.

(** ** services/storage.ts *)

Inductive Error :=
  | ConceptNotFound (i : string)
  | ParentNotFound (p : string)
  | CircularReference.

Inductive Result (A : Type) :=
  | Ok (a : A)
  | Throw (e : Error).
Arguments Ok {A} a.
Arguments Throw {A} e.

(** What the backing file holds. [JSON.parse] followed by
    [ConceptStore.parse] succeeds on a serialized store and throws on
    anything else. *)
Inductive Document :=
  | garbage (text : string)
  | json (s : ConceptStore).

(** The storage file as [load] finds it: missing, out of reach (the
    directory cannot be made or the file cannot be read), or there with
    some content. Writing is taken to succeed. *)
Inductive Disk :=
  | enoent
  | eacces
  | contents (d : Document).

Record StorageService := {
  store : option ConceptStore;
  disk : Disk
}.

(** The clock readings of one operation: inside [load]'s fallback, in the
    operation's own [now], and inside [save]. *)
Record Clock := { t_load : string; t_now : string; t_save : string }.

Definition readFile (d : Disk) : option Document :=
  match d with
  | contents doc => Some doc
  | _ => None
  end.

Definition parseStore (doc : Document) : option ConceptStore :=
  match doc with
  | json s => Some s
  | garbage _ => None
  end.

Definition emptyStore (now : string) : ConceptStore :=
  {| version := "1.0.0"; concepts := []; lastUpdated := now |}.

Definition load (clk : Clock) (svc : StorageService)
  : ConceptStore * StorageService :=
  match store svc with
  | Some s => (s, svc)
  | None =>
      let s := match readFile (disk svc) ≫= parseStore with
               | Some s => s
               | None => emptyStore (t_load clk)
               end in
      (s, {| store := Some s; disk := disk svc |})
  end.

Definition set_concepts (cs : list Concept) (s : ConceptStore) : ConceptStore :=
  {| version := version s; concepts := cs; lastUpdated := lastUpdated s |}.

Definition set_lastUpdated (t : string) (s : ConceptStore) : ConceptStore :=
  {| version := version s; concepts := concepts s; lastUpdated := t |}.

Definition save (clk : Clock) (svc : StorageService) : StorageService :=
  match store svc with
  | None => svc
  | Some s =>
      let s' := set_lastUpdated (t_save clk) s in
      {| store := Some s'; disk := contents (json s') |}
  end.

Definition getAllConcepts (clk : Clock) (svc : StorageService)
  : list Concept * StorageService :=
  let '(s, svc) := load clk svc in (concepts s, svc).

Definition findById (i : string) (cs : list Concept) : option (nat * Concept) :=
  list_find (λ c, id c = i) cs.

Definition findByExactName (n : string) (cs : list Concept) : option (nat * Concept) :=
  list_find (λ c, name c = n) cs.

Definition findByName (n : string) (cs : list Concept) : option (nat * Concept) :=
  list_find (λ c, toLowerCase (name c) = toLowerCase n) cs.

Definition getConceptById (clk : Clock) (i : string) (svc : StorageService)
  : option Concept * StorageService :=
  let '(s, svc) := load clk svc in (snd <$> findById i (concepts s), svc).

Definition getConceptByName (clk : Clock) (n : string) (svc : StorageService)
  : option Concept * StorageService :=
  let '(s, svc) := load clk svc in (snd <$> findByName n (concepts s), svc).

(** The in-place mutation of the cached store's [concepts] array. *)
Definition withConcepts (cs : list Concept) (s : ConceptStore) (svc : StorageService)
  : StorageService :=
  {| store := Some (set_concepts cs s); disk := disk svc |}.

Record Updates := {
  u_name : option string;
  u_explanation : option string;
  u_chatSnippet : option string;
  u_codeLocations : option (list string)
}.

(** [if (v) field = v]: a falsy [v] (absent or empty) keeps the old value. *)
Definition orKeep (v : option string) (old : string) : string :=
  match v with
  | Some (String a s) => String a s
  | _ => old
  end.

(** [if (text) snippets.push({ timestamp: now, content: text })] *)
Definition pushSnippet (now : string) (text : option string) (l : list ChatSnippet)
  : list ChatSnippet :=
  match text with
  | Some (String a s) => l ++ [{| timestamp := now; content := String a s |}]
  | _ => l
  end.

Definition applyUpdates (now : string) (u : Updates) (c : Concept) : Concept :=
  {| id := id c;
     name := orKeep (u_name u) (name c);
     category := category c;
     parent := parent c;
     explanation := orKeep (u_explanation u) (explanation c);
     chatSnippets := pushSnippet now (u_chatSnippet u) (chatSnippets c);
     codeLocations :=
       match u_codeLocations u with
       | Some locs => setOrder ∅ (codeLocations c ++ locs)
       | None => codeLocations c
       end;
     firstSeen := firstSeen c;
     lastSeen := now |}.

Definition updateConcept (clk : Clock) (i : string) (updates : Updates)
    (svc : StorageService) : Result Concept * StorageService :=
  let '(s, svc) := load clk svc in
  match findById i (concepts s) with
  | None => (Throw (ConceptNotFound i), svc)
  | Some (index, concept) =>
      let concept' := applyUpdates (t_now clk) updates concept in
      (Ok concept', save clk (withConcepts (<[index := concept']> (concepts s)) s svc))
  end.

Definition snippetOnly (chatSnippet : option string) : Updates :=
  {| u_name := None; u_explanation := None;
     u_chatSnippet := chatSnippet; u_codeLocations := None |}.

(** [uuid] is the value [uuidv4()] returns in this call. *)
Definition addConcept (clk : Clock) (uuid : string) (extracted : ExtractedConcept)
    (chatSnippet : option string) (svc : StorageService)
  : Result Concept * StorageService :=
  let '(s, svc) := load clk svc in
  let '(existing, svc) := getConceptByName clk (ex_name extracted) svc in
  match existing with
  | Some e => updateConcept clk (id e) (snippetOnly chatSnippet) svc
  | None =>
      let now := t_now clk in
      let concept :=
        {| id := uuid;
           name := ex_name extracted;
           category := ex_category extracted;
           parent := ex_parent extracted;
           explanation := ex_explanation extracted;
           chatSnippets := pushSnippet now chatSnippet [];
           codeLocations := [];
           firstSeen := now;
           lastSeen := now |} in
      (Ok concept, save clk (withConcepts (concepts s ++ [concept]) s svc))
  end.

Definition deleteConcept (clk : Clock) (i : string) (svc : StorageService)
  : bool * StorageService :=
  let '(s, svc) := load clk svc in
  match findById i (concepts s) with
  | None => (false, svc)
  | Some (index, _) => (true, save clk (withConcepts (delete index (concepts s)) s svc))
  end.

(** The [while (current)] loop of [wouldCreateCycle]; [None] when the fuel
    runs out before the loop exits. *)
Fixpoint cycleWalk (fuel : nat) (cs : list Concept) (childName : string)
    (current : option string) (visited : gset string) : option bool :=
  match fuel with
  | O => None
  | S fuel =>
      match current with
      | Some (String a s) =>
          let cur := String a s in
          if decide (cur = childName) then Some true
          else if decide (cur ∈ visited) then Some true
          else cycleWalk fuel cs childName
                 (findByExactName cur cs ≫= λ p, parent (snd p))
                 ({[cur]} ∪ visited)
      | _ => Some false
      end
  end.

(** The loop runs at most once per concept name, once more for a name no
    concept has, and once more to leave. *)
Definition walkFuel (cs : list Concept) : nat := length cs + 2.

Definition wouldCreateCycle (cs : list Concept) (childId parentName : string) : bool :=
  match findById childId cs with
  | None => false
  | Some (_, child) =>
      default false (cycleWalk (walkFuel cs) cs (name child) (Some parentName) ∅)
  end.

Definition set_parent (p : option string) (now : string) (c : Concept) : Concept :=
  {| id := id c; name := name c; category := category c;
     parent := p;
     explanation := explanation c; chatSnippets := chatSnippets c;
     codeLocations := codeLocations c; firstSeen := firstSeen c;
     lastSeen := now |}.

(** [parent || undefined] *)
Definition orUndefined (p : option string) : option string :=
  if truthy p then p else None.

Definition updateConceptParent (clk : Clock) (i : string) (newParent : option string)
    (svc : StorageService) : Result Concept * StorageService :=
  let '(s, svc) := load clk svc in
  match findById i (concepts s) with
  | None => (Throw (ConceptNotFound i), svc)
  | Some (index, concept) =>
      let reassign :=
        let concept' := set_parent (orUndefined newParent) (t_now clk) concept in
        (Ok concept', save clk (withConcepts (<[index := concept']> (concepts s)) s svc)) in
      match newParent with
      | Some (String a p) =>
          let parentName := String a p in
          match findByExactName parentName (concepts s) with
          | None => (Throw (ParentNotFound parentName), svc)
          | Some _ =>
              if wouldCreateCycle (concepts s) i parentName
              then (Throw CircularReference, svc)
              else reassign
          end
      | _ => reassign
      end
  end.

(** ** The parent graph, read by name *)

(** The [parent] field of the concept a name resolves to (first exact match). *)
Definition parentOf (cs : list Concept) (n : string) : option string :=
  findByExactName n cs ≫= λ p, parent (snd p).

(** The [k]-th name on the chain of parent references that starts at [cur]. *)
Fixpoint chainFrom (cs : list Concept) (cur : option string) (k : nat) : option string :=
  match k with
  | O => cur
  | S k => chainFrom cs (cur ≫= parentOf cs) k
  end.

(** The walk from [cur] comes to [target], to a name of [visited], or to a
    name it has passed before. *)
Definition reachesOrRevisits (cs : list Concept) (target : string)
    (visited : gset string) (cur : option string) : Prop :=
  ∃ k n, chainFrom cs cur k = Some n ∧
         (n = target ∨ n ∈ visited ∨ ∃ j, j < k ∧ chainFrom cs cur j = Some n).

(** The walk of the cycle check as the specification words it: from [start]
    the chain reaches [target] or comes back to a name already passed. *)
Definition walkFindsCycle (cs : list Concept) (target start : string) : Prop :=
  ∃ k n, chainFrom cs (Some start) k = Some n ∧
         (n = target ∨ ∃ j, j < k ∧ chainFrom cs (Some start) j = Some n).

(** The chain as the code reads it: an empty string refers to nothing, as
    a missing parent does. *)
Fixpoint refChain (cs : list Concept) (cur : option string) (k : nat) : option string :=
  match k with
  | O => orUndefined cur
  | S k => refChain cs (orUndefined cur ≫= parentOf cs) k
  end.

Definition reachesOrRevisitsRef (cs : list Concept) (target : string)
    (visited : gset string) (cur : option string) : Prop :=
  ∃ k n, refChain cs cur k = Some n ∧
         (n = target ∨ n ∈ visited ∨ ∃ j, j < k ∧ refChain cs cur j = Some n).

(** The walk along that chain reaches [target] or comes back to a name
    already passed. *)
Definition walkFindsCycleRef (cs : list Concept) (target start : string) : Prop :=
  ∃ k n, refChain cs (Some start) k = Some n ∧
         (n = target ∨ ∃ j, j < k ∧ refChain cs (Some start) j = Some n).

(** Data model: a concept's name is non-empty. *)
Definition namesNonEmpty (cs : list Concept) : Prop := Forall (λ c, name c ≠ "") cs.

Definition conceptNames (cs : list Concept) : gset string := list_to_set (name <$> cs).

(** The parent graph has no cycle: no chain of parent references that
    starts at a concept's name comes back to that name. *)
Definition acyclic (cs : list Concept) : Prop :=
  ∀ c k, c ∈ cs → 0 < k → chainFrom cs (Some (name c)) k ≠ Some (name c).

(** Every chain of parent references dies out after finitely many steps. *)
Definition chainsEnd (cs : list Concept) : Prop :=
  ∀ n, ∃ k, chainFrom cs (Some n) k = None.

(** ** services/export.ts: the data format *)

(** The two switches of [ExportOptions] that [exportAsJson] reads; [None]
    is an option left undefined. *)
Record ExportOptions := {
  includeSnippets : option bool;
  includeCodeLocations : option bool
}.

(** [flag !== false] *)
Definition notFalse (flag : option bool) : bool :=
  match flag with
  | Some false => false
  | _ => true
  end.

(** The values [exportAsJson] builds and [JSON.parse] returns. An object is
    the list of its properties in insertion order. *)
Inductive JSValue :=
  | JSUndefined
  | JSNull
  | JSString (s : string)
  | JSNumber (n : nat)
  | JSArray (items : list JSValue)
  | JSObject (props : list (string * JSValue)).

Definition categoryName (k : ConceptCategory) : string :=
  match k with
  | language => "language"
  | library => "library"
  | pattern => "pattern"
  | architecture => "architecture"
  end.

Definition optionalString (s : option string) : JSValue :=
  match s with
  | Some s => JSString s
  | None => JSUndefined
  end.

Definition snippetValue (s : ChatSnippet) : JSValue :=
  JSObject [("timestamp", JSString (timestamp s)); ("content", JSString (content s))].

(** The record [data] built for one concept. *)
Definition conceptData (options : ExportOptions) (c : Concept) : JSValue :=
  JSObject
    ([("id", JSString (id c));
      ("name", JSString (name c));
      ("category", JSString (categoryName (category c)));
      ("parent", optionalString (parent c));
      ("explanation", JSString (explanation c));
      ("firstSeen", JSString (firstSeen c));
      ("lastSeen", JSString (lastSeen c))]
     ++ (if notFalse (includeSnippets options)
         then [("chatSnippets", JSArray (snippetValue <$> chatSnippets c))]
         else [])
     ++ (if notFalse (includeCodeLocations options)
         then [("codeLocations", JSArray (JSString <$> codeLocations c))]
         else [])).

(** The value handed to [JSON.stringify]. *)
Definition exportEnvelope (now : string) (cs : list Concept) (options : ExportOptions)
  : JSValue :=
  JSObject [("exportedAt", JSString now);
            ("count", JSNumber (length cs));
            ("concepts", JSArray (conceptData options <$> cs))].

Section JsonExport.
(** [JSON.stringify(value, null, 2)] and the text it produces. *)
Variable Text : Type.
Variable stringify : JSValue → Text.

Definition exportAsJson (now : string) (cs : list Concept) (options : ExportOptions)
  : Text :=
  stringify (exportEnvelope now cs options).
End JsonExport.

(** What survives serialization: [JSON.stringify] leaves out the properties
    whose value is [undefined] and writes [null] for an [undefined] array
    item. *)
Fixpoint serializable (v : JSValue) : JSValue :=
  match v with
  | JSArray items =>
      JSArray (map (λ x, match x with
                         | JSUndefined => JSNull
                         | _ => serializable x
                         end) items)
  | JSObject props =>
      JSObject (omap (λ p, match p with
                           | (k, JSUndefined) => None
                           | (k, x) => Some (k, serializable x)
                           end) props)
  | _ => v
  end.

(** [obj[key]] *)
Definition prop (key : string) (v : JSValue) : JSValue :=
  match v with
  | JSObject props =>
      match list_find (λ p, p.1 = key) props with
      | Some (_, (_, x)) => x
      | None => JSUndefined
      end
  | _ => JSUndefined
  end.

Definition readString (v : JSValue) : option string :=
  match v with
  | JSString s => Some s
  | _ => None
  end.

(** An optional string property: absent reads as [undefined]. *)
Definition readOptionalString (v : JSValue) : option (option string) :=
  match v with
  | JSUndefined => Some None
  | JSString s => Some (Some s)
  | _ => None
  end.

Definition readCategory (v : JSValue) : option ConceptCategory :=
  readString v ≫= λ s,
    if decide (s = "language") then Some language
    else if decide (s = "library") then Some library
    else if decide (s = "pattern") then Some pattern
    else if decide (s = "architecture") then Some architecture
    else None.

(** An array property that may have been left out of the export: absent
    reads as the empty array. *)
Definition readArray {A} (item : JSValue → option A) (v : JSValue) : option (list A) :=
  match v with
  | JSUndefined => Some []
  | JSArray items => mapM item items
  | _ => None
  end.

Definition readSnippet (v : JSValue) : option ChatSnippet :=
  t ← readString (prop "timestamp" v);
  c ← readString (prop "content" v);
  Some {| timestamp := t; content := c |}.

(** Reading an exported record back into a concept. *)
Definition readConcept (v : JSValue) : option Concept :=
  i ← readString (prop "id" v);
  n ← readString (prop "name" v);
  k ← readCategory (prop "category" v);
  p ← readOptionalString (prop "parent" v);
  e ← readString (prop "explanation" v);
  snippets ← readArray readSnippet (prop "chatSnippets" v);
  locations ← readArray readString (prop "codeLocations" v);
  f ← readString (prop "firstSeen" v);
  l ← readString (prop "lastSeen" v);
  Some {| id := i; name := n; category := k; parent := p; explanation := e;
          chatSnippets := snippets; codeLocations := locations;
          firstSeen := f; lastSeen := l |}.

Definition readItems (v : JSValue) : list JSValue :=
  match v with
  | JSArray items => items
  | _ => []
  end.

(** The fields of a concept an export with these options includes. *)
Definition included (options : ExportOptions) (c : Concept) : Concept :=
  {| id := id c; name := name c; category := category c; parent := parent c;
     explanation := explanation c;
     chatSnippets := if notFalse (includeSnippets options) then chatSnippets c else [];
     codeLocations := if notFalse (includeCodeLocations options) then codeLocations c else [];
     firstSeen := firstSeen c; lastSeen := lastSeen c |}.

(** ** services/export.ts: the tree *)

(** A [TreeNode] object as [buildTree] holds it: the concept and, in
    [children], references to other node objects. [nodeMap] is the only way
    the function reaches a node, so a reference is the key the node is
    stored under. *)
Record NodeCell := { concept : Concept; children : list string }.

(** [node.children.push(child)] *)
Definition pushChild (child : string) (node : NodeCell) : NodeCell :=
  {| concept := concept node; children := children node ++ [child] |}.

(** The first loop: one node per concept, keyed by name. *)
Definition createNodes (cs : list Concept) : gmap string NodeCell :=
  foldl (λ nodeMap c, <[name c := {| concept := c; children := [] |}]> nodeMap) ∅ cs.

(** One round of the second loop. *)
Definition attach (st : gmap string NodeCell * list string) (c : Concept)
  : gmap string NodeCell * list string :=
  let node := name c in
  match parent c with
  | Some (String a p) =>
      if decide (is_Some (st.1 !! String a p))
      then (alter (pushChild node) (String a p) st.1, st.2)
      else (st.1, st.2 ++ [node])
  | _ => (st.1, st.2 ++ [node])
  end.

(** The node objects and the [roots] array. *)
Definition buildTree (cs : list Concept) : gmap string NodeCell * list string :=
  foldl attach (createNodes cs, []) cs.

(** The returned [TreeNode[]] as a value. *)
Inductive TreeNode := treeNode (c : Concept) (subtrees : list TreeNode).

(** The tree below a node, [depth] levels of it. *)
Fixpoint treeView (depth : nat) (nodes : gmap string NodeCell) (ref : string)
  : option TreeNode :=
  match depth with
  | O => None
  | S depth =>
      cell ← nodes !! ref;
      Some (treeNode (concept cell) (omap (treeView depth nodes) (children cell)))
  end.

Definition forestView (depth : nat) (cs : list Concept) : list TreeNode :=
  omap (treeView depth (buildTree cs).1) (buildTree cs).2.

(** The forest [buildTree] returns: no tree of it is deeper than the number
    of concepts. *)
Definition forest (cs : list Concept) : list TreeNode := forestView (length cs) cs.

(** The number of nodes of a tree that hold the concept. *)
Fixpoint occurrences (c : Concept) (t : TreeNode) : nat :=
  match t with
  | treeNode c' subtrees =>
      (if decide (c' = c) then 1 else 0) + sum_list (map (occurrences c) subtrees)
  end.

Definition occurrencesIn (c : Concept) (forest : list TreeNode) : nat :=
  sum_list (map (occurrences c) forest).

(** The node a round of the second loop files [c] under, read off the map. *)
Definition target (nodeMap : gmap string NodeCell) (c : Concept) : option string :=
  match parent c with
  | Some (String a p) =>
      if decide (is_Some (nodeMap !! String a p)) then Some (String a p) else None
  | _ => None
  end.

(** The name of the node the second loop files a concept under: its parent,
    when that is a non-empty name some concept of the snapshot has. *)
Definition attachedTo (cs : list Concept) (c : Concept) : option string :=
  match parent c with
  | Some (String a p) =>
      if decide (String a p ∈ name <$> cs) then Some (String a p) else None
  | _ => None
  end.

(** The names of the concepts filed under the node named [n], and of those
    filed as roots, in input order. *)
Definition childrenOf (cs : list Concept) (n : string) : list string :=
  name <$> filter (λ c, attachedTo cs c = Some n) cs.

Definition rootsOf (cs : list Concept) : list string :=
  name <$> filter (λ c, attachedTo cs c = None) cs.

Definition withChildren (more : list string) (node : NodeCell) : NodeCell :=
  {| concept := concept node; children := children node ++ more |}.

(** The same, for the concept a name resolves to. *)
Definition parentNode (cs : list Concept) (n : string) : option string :=
  findByExactName n cs ≫= λ p, attachedTo cs p.2.

(** The [d]-th node above the node named [n]. *)
Fixpoint nodeAbove (cs : list Concept) (d : nat) (n : string) : option string :=
  match d with
  | O => Some n
  | S d => parentNode cs n ≫= nodeAbove cs d
  end.

(** The chain of parents of [c] ends: [d] steps up there is a root. *)
Definition rootAbove (cs : list Concept) (c : Concept) (d : nat) : Prop :=
  ∃ r, nodeAbove cs d (name c) = Some r ∧ parentNode cs r = None.

(** How often [c] occurs in the tree below the node [ref], [depth] levels deep. *)
Definition countAt (cs : list Concept) (c : Concept) (depth : nat) (ref : string) : nat :=
  from_option (occurrences c) 0 (treeView depth (buildTree cs).1 ref).

(** ** services/scanner.ts *)

Record CodeLocation := { file : string; line : nat; context : string }.

(** [\w] *)
Definition isWordChar (a : ascii) : bool :=
  let n := nat_of_ascii a in
  bool_decide (48 ≤ n ≤ 57) || bool_decide (65 ≤ n ≤ 90)
  || bool_decide (n = 95) || bool_decide (97 ≤ n ≤ 122).

Definition newline : ascii := ascii_of_nat 10.
Definition backslash : ascii := ascii_of_nat 92.

(** The characters of the class [[.*+?^${}()|[\]\\]]. *)
Definition regexSpecial (a : ascii) : bool :=
  bool_decide (nat_of_ascii a ∈ [46; 42; 43; 63; 94; 36; 123; 125; 40; 41; 124; 91; 93; 92]).

(** [str.replace(/[.*+?^${}()|[\]\\]/g, '\\$&')] *)
Fixpoint escapeRegex (str : string) : string :=
  match str with
  | EmptyString => EmptyString
  | String a s =>
      if regexSpecial a then String backslash (String a (escapeRegex s))
      else String a (escapeRegex s)
  end.

(** The source text of the pattern: [`\\b${escapeRegex(name)}\\b`]. *)
Definition patternSource (conceptName : string) : string :=
  String backslash (String "b"
    (escapeRegex conceptName +:+ String backslash (String "b" EmptyString))).

(** The fragment of regular expressions such sources are written in: the
    assertion [\b], an escaped syntax character, and any other character
    standing for itself. *)
Inductive RegexAtom :=
  | WordBoundary
  | Literal (a : ascii).

(** [new RegExp(src)] on that fragment; [None] outside of it. *)
Fixpoint parseRegex (src : string) : option (list RegexAtom) :=
  match src with
  | EmptyString => Some []
  | String a rest =>
      if decide (a = backslash) then
        match rest with
        | String c rest' =>
            if decide (c = "b"%char) then (WordBoundary ::.) <$> parseRegex rest'
            else if regexSpecial c then (Literal c ::.) <$> parseRegex rest'
            else None
        | EmptyString => None
        end
      else if regexSpecial a then None
      else (Literal a ::.) <$> parseRegex rest
  end.

(** [\b] between the character before the position and the text after it. *)
Definition atBoundary (prev : option ascii) (rest : string) : bool :=
  xorb (from_option isWordChar false prev)
       (match rest with String a _ => isWordChar a | EmptyString => false end).

(** A match of the atoms that starts at the current position, under the
    [i] flag: characters are compared after [toUpperCase]. *)
Fixpoint matchAtoms (atoms : list RegexAtom) (prev : option ascii) (rest : string) : bool :=
  match atoms with
  | [] => true
  | WordBoundary :: atoms => atBoundary prev rest && matchAtoms atoms prev rest
  | Literal a :: atoms =>
      match rest with
      | String b rest' =>
          bool_decide (upper_ascii a = upper_ascii b) && matchAtoms atoms (Some b) rest'
      | EmptyString => false
      end
  end.

(** A match that starts at the current position or further right. *)
Fixpoint searchFrom (atoms : list RegexAtom) (prev : option ascii) (rest : string) : bool :=
  matchAtoms atoms prev rest
  || match rest with
     | String b rest' => searchFrom atoms (Some b) rest'
     | EmptyString => false
     end.

(** [new RegExp(src, 'gi').test(input)] on a fresh expression. *)
Definition regexTest (src input : string) : bool :=
  match parseRegex src with
  | Some atoms => searchFrom atoms None input
  | None => false
  end.

(** A candidate file, as [getFiles] lists it, with what [fs.readFile]
    yields for it: [None] when the read throws. *)
Record CandidateFile := { path : string; readAs : option string }.

Section Scanner.
(** [path.relative] *)
Variable relative : string → string → string.
Variable rootPath : string.

Fixpoint scanLines (conceptName relativePath : string) (i : nat) (lines : list string)
  : list CodeLocation :=
  match lines with
  | [] => []
  | l :: lines =>
      (if regexTest (patternSource conceptName) l
       then [{| file := relativePath; line := i + 1; context := sliceTo 100 (trim l) |}]
       else [])
      ++ scanLines conceptName relativePath (S i) lines
  end.

Definition scanFile (concept : Concept) (f : CandidateFile) : list CodeLocation :=
  match readAs f with
  | Some content =>
      scanLines (name concept) (relative rootPath (path f)) 0 (split newline content)
  | None => []
  end.

Definition scanForConcept (concept : Concept) (files : list CandidateFile)
  : list CodeLocation :=
  files ≫= scanFile concept.

Definition scanAllConcepts (cs : list Concept) (files : list CandidateFile)
  : gmap string (list CodeLocation) :=
  foldl (λ results concept,
           let locations := scanForConcept concept files in
           if bool_decide (0 < length locations)
           then <[id concept := locations]> results
           else results) ∅ cs.
End Scanner.

(** The atoms a name's characters stand for. *)
Fixpoint literals (s : string) : list RegexAtom :=
  match s with
  | EmptyString => []
  | String a s => Literal a :: literals s
  end.

Definition firstChar (s : string) : option ascii :=
  match s with
  | String a _ => Some a
  | EmptyString => None
  end.

(** The last character of [s], or [prev] when [s] is empty. *)
Fixpoint lastChar (prev : option ascii) (s : string) : option ascii :=
  match s with
  | EmptyString => prev
  | String a s => lastChar (Some a) s
  end.

Definition wordCharAt (a : option ascii) : bool := from_option isWordChar false a.

(** What the pattern finds: [line] contains a case-insensitive occurrence
    of [conceptName] with the assertion [\b] holding on either side of it.
    Next to a word character of the name [\b] asks for no word character
    beyond; next to another character of the name it asks for one. *)
Definition betweenBoundaries (conceptName line : string) : Prop :=
  ∃ pre mid post,
    line = pre +:+ mid +:+ post
    ∧ toUpperCase mid = toUpperCase conceptName
    ∧ atBoundary (lastChar None pre) (mid +:+ post) = true
    ∧ atBoundary (lastChar None (pre +:+ mid)) post = true.

(** The name begins and ends with a word character. *)
Definition wordEdged (conceptName : string) : Prop :=
  wordCharAt (firstChar conceptName) = true
  ∧ wordCharAt (lastChar None conceptName) = true.

(** A whole-word match: [line] contains a case-insensitive occurrence of
    [conceptName] with no word character right before it and none right
    after it. *)
Definition standsAlone (conceptName line : string) : Prop :=
  ∃ pre mid post,
    line = pre +:+ mid +:+ post
    ∧ toUpperCase mid = toUpperCase conceptName
    ∧ wordCharAt (lastChar None pre) = false
    ∧ wordCharAt (firstChar post) = false.

(** Line [n] of the readable candidate file [f] is one the pattern finds
    the name in. *)
Definition mentionedAt (conceptName : string) (files : list CandidateFile)
    (f : CandidateFile) (n : nat) (text : string) : Prop :=
  f ∈ files
  ∧ (∃ content, readAs f = Some content ∧ split newline content !! n = Some text)
  ∧ betweenBoundaries conceptName text.

(** Some line of some readable candidate file is. *)
Definition mentioned (conceptName : string) (files : list CandidateFile) : Prop :=
  ∃ f n text, mentionedAt conceptName files f n text.

(** ** JSON.stringify and JSON.parse

    The two built-ins the data export goes through, for the values it
    builds: strings, natural numbers, arrays and objects. [printValue] lays
    a value out as [JSON.stringify(value, null, 2)] does, two columns per
    level; [parseValue] reads a JSON text of these values, with any white
    space between its tokens. *)

Definition quote : ascii := ascii_of_nat 34.

Definition hexDigit (n : nat) : ascii :=
  if decide (n < 10) then ascii_of_nat (48 + n) else ascii_of_nat (87 + n).

(** How [JSON.stringify] writes one character of a string. *)
Definition escapeChar (a : ascii) : list ascii :=
  let n := nat_of_ascii a in
  if decide (n = 34) then [backslash; quote]
  else if decide (n = 92) then [backslash; backslash]
  else if decide (n = 8) then [backslash; "b"%char]
  else if decide (n = 9) then [backslash; "t"%char]
  else if decide (n = 10) then [backslash; "n"%char]
  else if decide (n = 12) then [backslash; "f"%char]
  else if decide (n = 13) then [backslash; "r"%char]
  else if decide (n < 32)
       then [backslash; "u"%char; "0"%char; "0"%char; hexDigit (n / 16); hexDigit (n mod 16)]
  else [a].

Definition printString (s : string) : list ascii :=
  quote :: (list_ascii_of_string s ≫= escapeChar) ++ [quote].

Definition printNat (n : nat) : list ascii :=
  list_ascii_of_string (NilEmpty.string_of_uint (Nat.to_uint n)).

Definition spaces (n : nat) : list ascii := replicate n " "%char.

(** The lines of an array or object body, each indented, with commas
    between them. *)
Fixpoint printLines (indent : nat) (lines : list (list ascii)) : list ascii :=
  match lines with
  | [] => []
  | [l] => spaces indent ++ l
  | l :: lines => spaces indent ++ l ++ ","%char :: newline :: printLines indent lines
  end.

(** What follows the opening bracket of an array or object. *)
Definition blockBody (closing : ascii) (indent : nat) (lines : list (list ascii))
  : list ascii :=
  match lines with
  | [] => [closing]
  | _ => newline :: printLines (indent + 2) lines ++ newline :: spaces indent ++ [closing]
  end.

(** The text of a serializable value, [indent] columns deep. *)
Fixpoint printValue (indent : nat) (v : JSValue) : list ascii :=
  match v with
  | JSUndefined | JSNull => ["n"; "u"; "l"; "l"]%char
  | JSString s => printString s
  | JSNumber n => printNat n
  | JSArray items =>
      "["%char :: blockBody "]"%char indent (map (printValue (indent + 2)) items)
  | JSObject props =>
      "{"%char :: blockBody "}"%char indent
        (map (λ p, printString p.1 ++ ":"%char :: " "%char
                     :: printValue (indent + 2) p.2) props)
  end.

(** [JSON.stringify(v, null, 2)] *)
Definition JSON_stringify (v : JSValue) : string :=
  string_of_list_ascii (printValue 0 (serializable v)).

(** No [undefined] is left anywhere in the value. *)
Fixpoint clean (v : JSValue) : bool :=
  match v with
  | JSUndefined => false
  | JSArray items => forallb clean items
  | JSObject props => forallb (λ p, clean p.2) props
  | _ => true
  end.

Fixpoint height (v : JSValue) : nat :=
  match v with
  | JSArray items => S (max_list (map height items))
  | JSObject props => S (max_list (map (λ p, height p.2) props))
  | _ => 0
  end.

(** What may follow a value in the text: a comma, a line break, the end. *)
Definition afterValue (rest : list ascii) : Prop :=
  match rest with
  | [] => True
  | a :: _ => a = ","%char ∨ a = newline
  end.

Definition isJsonSpace (a : ascii) : bool :=
  bool_decide (nat_of_ascii a ∈ [32; 10; 13; 9]).

Fixpoint skipSpace (l : list ascii) : list ascii :=
  match l with
  | a :: l' => if isJsonSpace a then skipSpace l' else l
  | [] => []
  end.

Definition hexValue (a : ascii) : option nat :=
  let n := nat_of_ascii a in
  if decide (48 ≤ n ≤ 57) then Some (n - 48)
  else if decide (97 ≤ n ≤ 102) then Some (n - 87)
  else if decide (65 ≤ n ≤ 70) then Some (n - 55)
  else None.

Definition consChar (a : ascii) (r : option (string * list ascii))
  : option (string * list ascii) :=
  (λ p, (String a p.1, p.2)) <$> r.

(** The characters of a string literal, after its opening quote. *)
Fixpoint parseChars (l : list ascii) : option (string * list ascii) :=
  match l with
  | [] => None
  | a :: l' =>
      if decide (a = quote) then Some (EmptyString, l')
      else if decide (a = backslash) then
        match l' with
        | e :: l'' =>
            if decide (e = quote) then consChar quote (parseChars l'')
            else if decide (e = backslash) then consChar backslash (parseChars l'')
            else if decide (e = "/"%char) then consChar "/"%char (parseChars l'')
            else if decide (e = "b"%char) then consChar (ascii_of_nat 8) (parseChars l'')
            else if decide (e = "t"%char) then consChar (ascii_of_nat 9) (parseChars l'')
            else if decide (e = "n"%char) then consChar (ascii_of_nat 10) (parseChars l'')
            else if decide (e = "f"%char) then consChar (ascii_of_nat 12) (parseChars l'')
            else if decide (e = "r"%char) then consChar (ascii_of_nat 13) (parseChars l'')
            else if decide (e = "u"%char) then
              match l'' with
              | h1 :: h2 :: h3 :: h4 :: l''' =>
                  match hexValue h1, hexValue h2, hexValue h3, hexValue h4 with
                  | Some 0, Some 0, Some x, Some y =>
                      consChar (ascii_of_nat (16 * x + y)) (parseChars l''')
                  | _, _, _, _ => None
                  end
              | _ => None
              end
            else None
        | [] => None
        end
      else if decide (nat_of_ascii a < 32) then None
      else consChar a (parseChars l')
  end.

Definition isDigit (a : ascii) : bool := bool_decide (48 ≤ nat_of_ascii a ≤ 57).

Fixpoint spanDigits (l : list ascii) : list ascii * list ascii :=
  match l with
  | a :: l' => if isDigit a then let '(ds, r) := spanDigits l' in (a :: ds, r) else ([], l)
  | [] => ([], [])
  end.

Definition parseNat (l : list ascii) : option (nat * list ascii) :=
  let '(ds, r) := spanDigits l in
  (λ d, (Nat.of_uint d, r)) <$> NilEmpty.uint_of_string (string_of_list_ascii ds).

(** Items separated by commas up to the closing bracket; [n] bounds their
    number. *)
Fixpoint parseSeq {A} (n : nat) (item : list ascii → option (A * list ascii))
    (closing : ascii) (l : list ascii) : option (list A * list ascii) :=
  match n with
  | O => None
  | S n =>
      match item l with
      | Some (x, r) =>
          match skipSpace r with
          | c :: r' =>
              if decide (c = ","%char)
              then (λ p, (x :: p.1, p.2)) <$> parseSeq n item closing r'
              else if decide (c = closing) then Some ([x], r')
              else None
          | [] => None
          end
      | None => None
      end
  end.

Definition parseBlock {A} (item : list ascii → option (A * list ascii))
    (closing : ascii) (l : list ascii) : option (list A * list ascii) :=
  match skipSpace l with
  | c :: r => if decide (c = closing) then Some ([], r)
              else parseSeq (length l) item closing l
  | [] => None
  end.

Definition parseMember (value : list ascii → option (JSValue * list ascii))
    (l : list ascii) : option ((string * JSValue) * list ascii) :=
  match skipSpace l with
  | c :: r =>
      if decide (c = quote) then
        match parseChars r with
        | Some (k, r1) =>
            match skipSpace r1 with
            | c' :: r2 =>
                if decide (c' = ":"%char)
                then (λ p, ((k, p.1), p.2)) <$> value r2
                else None
            | [] => None
            end
        | None => None
        end
      else None
  | [] => None
  end.

(** [JSON.parse] of one value; [fuel] bounds the nesting. *)
Fixpoint parseValue (fuel : nat) (l : list ascii) : option (JSValue * list ascii) :=
  match fuel with
  | O => None
  | S fuel =>
      match skipSpace l with
      | c :: r =>
          if decide (c = quote) then (λ p, (JSString p.1, p.2)) <$> parseChars r
          else if decide (c = "["%char)
          then (λ p, (JSArray p.1, p.2)) <$> parseBlock (parseValue fuel) "]"%char r
          else if decide (c = "{"%char)
          then (λ p, (JSObject p.1, p.2))
                 <$> parseBlock (parseMember (parseValue fuel)) "}"%char r
          else if decide (c = "n"%char) then
            match r with
            | u :: l1 :: l2 :: r' =>
                if decide (u = "u"%char ∧ l1 = "l"%char ∧ l2 = "l"%char)
                then Some (JSNull, r') else None
            | _ => None
            end
          else if isDigit c then (λ p, (JSNumber p.1, p.2)) <$> parseNat (c :: r)
          else None
      | [] => None
      end
  end.

Definition JSON_parse (text : string) : option JSValue :=
  match parseValue (S (String.length text)) (list_ascii_of_string text) with
  | Some (v, r) => if decide (skipSpace r = []) then Some v else None
  | None => None
  end.

(** ** Sample data: the scenarios of the specification *)

Definition clock0 : Clock :=
  {| t_load := "2024-03-01T09:00:00.000Z";
     t_now := "2024-03-01T09:00:01.000Z";
     t_save := "2024-03-01T09:00:02.000Z" |}.

Definition uuid0 : string := "9f0e7c1a-5b7e-4f0a-8c3d-2a1b0c9d8e7f".
Definition uuid1 : string := "0a1b2c3d-4e5f-4a6b-8c7d-9e8f7a6b5c4d".

Definition reactHooks : Concept :=
  {| id := "4b3c0a52-0d0c-4c1e-9a58-0f1f3f1f0001";
     name := "React Hooks";
     category := library;
     parent := None;
     explanation := "Functions that let components use state and lifecycle features.";
     chatSnippets := [];
     codeLocations := [];
     firstSeen := "2024-02-01T10:00:00.000Z";
     lastSeen := "2024-02-01T10:00:00.000Z" |}.

Definition useState : Concept :=
  {| id := "4b3c0a52-0d0c-4c1e-9a58-0f1f3f1f0002";
     name := "useState";
     category := library;
     parent := Some "React Hooks";
     explanation := "A React Hook that adds state to a function component.";
     chatSnippets := [{| timestamp := "2024-02-01T10:05:00.000Z";
                         content := "const [n, setN] = useState(0)" |}];
     codeLocations := ["src/App.tsx:5"];
     firstSeen := "2024-02-01T10:05:00.000Z";
     lastSeen := "2024-02-01T10:05:00.000Z" |}.

Definition hooksStore : ConceptStore :=
  {| version := "1.0.0";
     concepts := [reactHooks; useState];
     lastUpdated := "2024-02-01T10:05:00.000Z" |}.

Definition hooksService : StorageService :=
  {| store := Some hooksStore; disk := contents (json hooksStore) |}.

(** A service that has not loaded yet and has no file to load. *)
Definition firstRun : StorageService := {| store := None; disk := enoent |}.

(** The extraction of the specification's first scenario. *)
Definition useStateExtracted : ExtractedConcept :=
  {| ex_name := "useState"; ex_category := library;
     ex_parent := Some "React Hooks";
     ex_explanation := "A React Hook that adds state to a function component." |}.

(** Two extractions that name each other as parent. *)
Definition hooksUnderState : ExtractedConcept :=
  {| ex_name := "React Hooks"; ex_category := library;
     ex_parent := Some "useState";
     ex_explanation := "Functions that let components use state and lifecycle features." |}.

(** A concept whose parent is its own name, as an extraction can return it. *)
Definition selfParented : ExtractedConcept :=
  {| ex_name := "React"; ex_category := library;
     ex_parent := Some "React";
     ex_explanation := "A library for building user interfaces." |}.

(** A snapshot with a concept that names itself as parent. *)
Definition selfParentedConcept : Concept :=
  {| id := uuid0; name := "React"; category := library; parent := Some "React";
     explanation := "A library for building user interfaces.";
     chatSnippets := []; codeLocations := [];
     firstSeen := "2024-03-01T09:00:01.000Z"; lastSeen := "2024-03-01T09:00:01.000Z" |}.

(** The scenario of the specification: a project of two files, of which
    [A.ts] has the word on its fifth line and [B.ts] does not have it. *)
Definition projectRoot : string := "/home/dev/app".

Definition fileA : CandidateFile :=
  {| path := "/home/dev/app/src/A.ts";
     readAs := Some "import React from 'react';

export function Counter() {
  // local state
  const [count, setCount] = useState(0);
  return count;
}
" |}.

Definition fileB : CandidateFile :=
  {| path := "/home/dev/app/src/B.ts";
     readAs := Some "export const users = [];
// usestateful is another word
" |}.

(** A concept whose name ends in punctuation, and two files that have the
    name: once as a word of its own, once run together with a letter. *)
Definition cPlusPlus : Concept :=
  {| id := uuid1; name := "C++"; category := language; parent := None;
     explanation := "A compiled language with classes and templates.";
     chatSnippets := []; codeLocations := [];
     firstSeen := "2024-03-01T09:00:01.000Z"; lastSeen := "2024-03-01T09:00:01.000Z" |}.

Definition fileDaily : CandidateFile :=
  {| path := "/home/dev/app/src/daily.ts"; readAs := Some "// I use C++ daily" |}.

Definition fileGlued : CandidateFile :=
  {| path := "/home/dev/app/src/glued.ts"; readAs := Some "let C++x = 1" |}.

Fixpoint dropChars (n : nat) (s : string) : string :=
  match n, s with
  | S n, String _ s => dropChars n s
  | _, _ => s
  end.

(** [path.relative] on a file below the root directory. *)
Definition belowRoot (root file : string) : string :=
  dropChars (String.length root + 1) file.


(** ** services/storage.ts: searching, and adding in batches *)

(** [s.startsWith(pre)] *)
Fixpoint startsWith (s pre : string) {struct pre} : bool :=
  match pre, s with
  | EmptyString, _ => true
  | String a pre', String b s' => bool_decide (a = b) && startsWith s' pre'
  | String _ _, EmptyString => false
  end.

(** [s.includes(sub)] *)
Fixpoint includes (s sub : string) : bool :=
  startsWith s sub
  || match s with
     | String _ s' => includes s' sub
     | EmptyString => false
     end.

(** [!query || name.toLowerCase().includes(lowerQuery)
     || explanation.toLowerCase().includes(lowerQuery)] *)
Definition matchesQuery (query : string) (c : Concept) : bool :=
  negb (truthy (Some query))
  || includes (toLowerCase (name c)) (toLowerCase query)
  || includes (toLowerCase (explanation c)) (toLowerCase query).

(** [!category || concept.category === category], the concept's category
    being one of the four strings of the enum. *)
Definition matchesCategory (wanted : option string) (c : Concept) : bool :=
  negb (truthy wanted) || bool_decide (Some (categoryName (category c)) = wanted).

Definition searchConcepts (clk : Clock) (query : string) (wanted : option string)
    (svc : StorageService) : list Concept * StorageService :=
  let '(s, svc) := load clk svc in
  (filter (λ c, Is_true (matchesQuery query c && matchesCategory wanted c)) (concepts s),
   svc).

(** The place in [store.concepts] of the object [addConcept] returns: that
    of the concept it updates, the first with the id of the one the name
    resolves to, or that of the concept it pushes. *)
Definition returnedAt (extracted : ExtractedConcept) (cs : list Concept) : nat :=
  match findByName (ex_name extracted) cs with
  | Some (_, existing) => from_option fst 0 (findById (id existing) cs)
  | None => length cs
  end.

(** The loop of [addConceptsFromExtraction], from its [i]-th round on;
    [clk i] and [uuid i] are the clock readings and the fresh id of that
    round. The objects the loop collects are the store's own, which a
    later round may update: [results] keeps each as its place in the
    store. *)
Fixpoint addEach (clk : nat → Clock) (uuid : nat → string) (i : nat)
    (extractions : list ExtractedConcept) (chatContext : option string)
    (results : list nat) (svc : StorageService)
  : Result (list nat) * StorageService :=
  match extractions with
  | [] => (Ok results, svc)
  | extracted :: rest =>
      let place := returnedAt extracted (concepts (load (clk i) svc).1) in
      match addConcept (clk i) (uuid i) extracted chatContext svc with
      | (Ok _, svc) => addEach clk uuid (S i) rest chatContext (results ++ [place]) svc
      | (Throw e, svc) => (Throw e, svc)
      end
  end.

(** The concepts of the cached store. *)
Definition cached (svc : StorageService) : list Concept :=
  from_option concepts [] (store svc).

(** The caller reads the collected objects when the loop is over, as the
    store has them then. *)
Definition addConceptsFromExtraction (clk : nat → Clock) (uuid : nat → string)
    (extractions : list ExtractedConcept) (chatContext : option string)
    (svc : StorageService) : Result (list Concept) * StorageService :=
  match addEach clk uuid 0 extractions chatContext [] svc with
  | (Ok places, svc) => (Ok (omap (λ place, cached svc !! place) places), svc)
  | (Throw e, svc) => (Throw e, svc)
  end.

(** A round of the batch between [from] and [to] has met the concept and
    was the last to: the concept's newest snippet, if the context is not
    empty, and its [lastSeen] are of that round. *)
Definition metIn (clk : nat → Clock) (chatContext : option string) (from to : nat)
    (c : Concept) : Prop :=
  ∃ old j, from ≤ j < to
    ∧ chatSnippets c = pushSnippet (t_now (clk j)) chatContext old
    ∧ lastSeen c = t_now (clk j).

(** Names are told apart by more than letter case. *)
Definition namesDistinct (cs : list Concept) : Prop :=
  NoDup ((λ c, toLowerCase (name c)) <$> cs).

(** What identifies the concepts of a store, in order: id and name. *)
Definition identities (cs : list Concept) : list (string * string) :=
  (λ c, (id c, name c)) <$> cs.

(** ** services/export.ts: choosing what to export *)

Inductive ExportFormat := formatJson | formatMarkdown.

(** [options.conceptIds?.length ? allConcepts.filter(c =>
    options.conceptIds.includes(c.id)) : allConcepts] *)
Definition selectConcepts (conceptIds : option (list string)) (allConcepts : list Concept)
  : list Concept :=
  match conceptIds with
  | Some (i :: ids) => filter (λ c, id c ∈ i :: ids) allConcepts
  | _ => allConcepts
  end.


(** A concept without its chat snippets, and without its code locations. *)
Definition withoutSnippets (c : Concept) : Concept :=
  {| id := id c; name := name c; category := category c; parent := parent c;
     explanation := explanation c; chatSnippets := [];
     codeLocations := codeLocations c; firstSeen := firstSeen c; lastSeen := lastSeen c |}.

Definition withoutLocations (c : Concept) : Concept :=
  {| id := id c; name := name c; category := category c; parent := parent c;
     explanation := explanation c; chatSnippets := chatSnippets c;
     codeLocations := []; firstSeen := firstSeen c; lastSeen := lastSeen c |}.

(** ** services/scanner.ts: listing the files *)

(** What [fs.readdir(dir, { withFileTypes: true })] yields for an entry,
    with what lies behind it: a file and what [fs.readFile] gives for it
    ([None] when the read throws), a directory and its own listing ([None]
    when [readdir] throws), or something that is neither. *)
Inductive DirEntry :=
  | fileEntry (entryName : string) (text : option string)
  | directoryEntry (entryName : string) (listing : option (list DirEntry))
  | otherEntry (entryName : string).

Definition entryName (entry : DirEntry) : string :=
  match entry with
  | fileEntry n _ | directoryEntry n _ | otherEntry n => n
  end.

Definition defaultInclude : list string :=
  ["ts"; "tsx"; "js"; "jsx"; "py"; "go"; "rs"; "java"; "cpp"; "c"; "h"].

Definition defaultExclude : list string :=
  ["node_modules"; "dist"; "build"; ".git"; "__pycache__"; "target"; "vendor"].

(** [exclude.some(pattern => entry.name === pattern
                            || entry.name.startsWith('.'))] *)
Definition skipped (exclude : list string) (n : string) : bool :=
  existsb (λ pattern, bool_decide (n = pattern) || startsWith n ".") exclude.

Record ScanOptions := {
  rootPath : string;
  includePatterns : option (list string);
  excludePatterns : option (list string)
}.

Section Walk.
(** [path.join] and [path.extname] *)
Variable join : string → string → string.
Variable extname : string → string.

(** One round of the loop of [walkDirectory] over the entries of [dir]; the
    files pushed, each with what reading it will give. *)
Fixpoint walkEntry (include exclude : list string) (dir : string) (entry : DirEntry)
  : list CandidateFile :=
  let fullPath := join dir (entryName entry) in
  if skipped exclude (entryName entry) then []
  else match entry with
       | directoryEntry _ (Some entries) =>
           flat_map (walkEntry include exclude fullPath) entries
       | directoryEntry _ None => []
       | fileEntry n text =>
           if bool_decide (dropChars 1 (extname n) ∈ include)
           then [{| path := fullPath; readAs := text |}]
           else []
       | otherEntry _ => []
       end.

(** [listing] is what [readdir(dir)] gives; a failed [readdir] is caught
    and pushes nothing. *)
Definition walkDirectory (include exclude : list string) (dir : string)
    (listing : option (list DirEntry)) : list CandidateFile :=
  match listing with
  | Some entries => flat_map (walkEntry include exclude dir) entries
  | None => []
  end.

(** [root] is the listing of [options.rootPath]. *)
Definition getFiles (options : ScanOptions) (root : option (list DirEntry))
  : list CandidateFile :=
  walkDirectory (default defaultInclude (includePatterns options))
                (default defaultExclude (excludePatterns options))
                (rootPath options) root.

(** A file is within reach of the walk: it sits, not skipped and with an
    included extension, in the directory or in a readable directory within
    reach that is not skipped. *)
Inductive listedIn (include exclude : list string)
  : string → list DirEntry → CandidateFile → Prop :=
  | listed_here dir entries n text :
      fileEntry n text ∈ entries →
      skipped exclude n = false →
      dropChars 1 (extname n) ∈ include →
      listedIn include exclude dir entries {| path := join dir n; readAs := text |}
  | listed_below dir entries n sub f :
      directoryEntry n (Some sub) ∈ entries →
      skipped exclude n = false →
      listedIn include exclude (join dir n) sub f →
      listedIn include exclude dir entries f.
End Walk.

(** ** tools/scan.ts *)

(** [`${n}`] for a natural number *)
Definition numberToString (n : nat) : string := string_of_list_ascii (printNat n).

(** [`${l.file}:${l.line}`] *)
Definition locationString (l : CodeLocation) : string :=
  file l +:+ ":" +:+ numberToString (line l).

(** [map.set(key, value)] on the entries of a [Map] in iteration order: a
    key already there keeps its place and takes the new value, a new key
    goes to the end. *)
Fixpoint mapSet {V} (key : string) (value : V) (entries : list (string * V))
  : list (string * V) :=
  match entries with
  | [] => [(key, value)]
  | (k, v) :: rest =>
      if decide (k = key) then (k, value) :: rest else (k, v) :: mapSet key value rest
  end.

(** [map.get(key)] on such entries. *)
Definition mapGet {V} (key : string) (entries : list (string * V)) : option V :=
  (λ found : nat * (string * V), found.2.2) <$> list_find (λ e, e.1 = key) entries.

Record ScanInput := {
  in_rootPath : string;
  in_conceptId : option string;
  in_fileTypes : option (list string)
}.

(** The object the tool answers with: an error, or the message, the count
    of updated concepts and the summary, an object read by concept name. *)
Inductive ScanResponse :=
  | scanFailed (error : string)
  | scanDone (message : string) (updatedConcepts : nat)
             (results : gmap string (nat * list string)).

Definition locationsOnly (locations : list string) : Updates :=
  {| u_name := None; u_explanation := None; u_chatSnippet := None;
     u_codeLocations := Some locations |}.

(** The loop that writes the locations back, from its [j]-th round on;
    [clk j] are the clock readings of that round's [updateConcept]. A
    failed update is passed over. *)
Fixpoint updateLocations (clk : nat → Clock) (j : nat)
    (entries : list (string * list CodeLocation)) (updatedCount : nat)
    (svc : StorageService) : nat * StorageService :=
  match entries with
  | [] => (updatedCount, svc)
  | (conceptId, locations) :: rest =>
      match updateConcept (clk j) conceptId
              (locationsOnly (locationString <$> locations)) svc with
      | (Ok _, svc) => updateLocations clk (S j) rest (S updatedCount) svc
      | (Throw _, svc) => updateLocations clk (S j) rest updatedCount svc
      end
  end.

(** The loop that builds [resultSummary], an object made by [{}]: its own
    properties, which are what [JSON.stringify] prints. Assigning to the
    key [__proto__] sets the prototype of the object and adds no property
    of its own. *)
Definition summarize (cs : list Concept) (entries : list (string * list CodeLocation))
  : gmap string (nat * list string) :=
  foldl (λ summary e,
           match findById e.1 cs with
           | Some (_, c) =>
               if decide (name c = "__proto__") then summary
               else <[name c := (length e.2, locationString <$> take 5 e.2)]> summary
           | None => summary
           end) ∅ entries.

Section ScanTool.
Variable join : string → string → string.
Variable extname : string → string.
Variable relative : string → string → string.

(** The entries of the [Map] that [scanAllConcepts] returns, in iteration
    order, for the files of the project. *)
Definition scanAllEntries (projectRoot : string) (cs : list Concept)
    (files : list CandidateFile) : list (string * list CodeLocation) :=
  foldl (λ results c,
           let locations := scanForConcept relative projectRoot c files in
           if bool_decide (0 < length locations)
           then mapSet (id c) locations results
           else results) [] cs.

(** [{ rootPath: input.rootPath, includePatterns: input.fileTypes }] *)
Definition scanOptions (input : ScanInput) : ScanOptions :=
  {| rootPath := in_rootPath input; includePatterns := in_fileTypes input;
     excludePatterns := None |}.

Definition scanMessage (scanned matched : nat) : string :=
  "Scanned " +:+ numberToString scanned +:+ " concept(s), found matches for "
  +:+ numberToString matched.

(** [clk 0] are the clock readings of the first storage call; [root] is
    the listing of the project's root directory. *)
Definition handleScanCodebase (clk : nat → Clock) (input : ScanInput)
    (root : option (list DirEntry)) (svc : StorageService)
  : ScanResponse * StorageService :=
  let scan (cs : list Concept) (svc : StorageService) :=
    let entries :=
      scanAllEntries (in_rootPath input) cs
        (getFiles join extname (scanOptions input) root) in
    let '(updatedCount, svc) := updateLocations clk 1 entries 0 svc in
    (scanDone (scanMessage (length cs) (length entries)) updatedCount
       (summarize cs entries), svc) in
  match in_conceptId input with
  | Some (String a i) =>
      let '(found, svc) := getConceptById (clk 0) (String a i) svc in
      match found with
      | None => (scanFailed ("Concept not found: " +:+ String a i), svc)
      | Some c => scan [c] svc
      end
  | _ =>
      let '(cs, svc) := getAllConcepts (clk 0) svc in
      scan cs svc
  end.
End ScanTool.

(** The concepts the tool scans for: the one asked for, when a non-empty id
    is given, or all of the store. *)
Definition scanTargets (conceptId : option string) (cs : list Concept)
  : option (list Concept) :=
  match conceptId with
  | Some (String a i) => (λ found : nat * Concept, [found.2]) <$> findById (String a i) cs
  | _ => Some cs
  end.

(** The code locations of a concept once the locations found for its id
    are merged in. *)
Definition mergedLocations (entries : list (string * list CodeLocation)) (c : Concept)
  : list string :=
  match mapGet (id c) entries with
  | Some locations => setOrder ∅ (codeLocations c ++ (locationString <$> locations))
  | None => codeLocations c
  end.

(** ** tools/manage.ts, tools/query.ts, tools/extract.ts and the REST API *)

(** The message of the [Error] thrown. *)
Definition errorMessage (e : Error) : string :=
  match e with
  | ConceptNotFound i => "Concept not found: " +:+ i
  | ParentNotFound p => "Parent concept not found: " +:+ p
  | CircularReference => "Cannot create circular reference"
  end.

(** The object [handleAddConcept] answers with: the refusal, with the id of
    the concept that has the name, or the message and the id, name,
    category, parent and explanation of the concept added. *)
Inductive AddResponse :=
  | addRefused (error : string) (existingId : string)
  | addFailed (e : Error)
  | addDone (message : string) (conceptId conceptName : string)
            (conceptCategory : ConceptCategory) (conceptParent : option string)
            (conceptExplanation : string).

Definition handleAddConcept (clk : Clock) (uuid : string) (input : ExtractedConcept)
    (svc : StorageService) : AddResponse * StorageService :=
  let '(existing, svc) := getConceptByName clk (ex_name input) svc in
  match existing with
  | Some e => (addRefused ("Concept already exists: " +:+ ex_name input) (id e), svc)
  | None =>
      let '(added, svc) := addConcept clk uuid input None svc in
      match added with
      | Ok c =>
          (addDone ("Added concept: " +:+ name c) (id c) (name c) (category c) (parent c)
             (explanation c), svc)
      | Throw e => (addFailed e, svc)
      end
  end.

(** [list.slice(0, limit)] for an integer [limit]: a negative one counts
    from the end. *)
Definition sliceList {A} (limit : Z) (l : list A) : list A :=
  if decide (0 ≤ limit)%Z then take (Z.to_nat limit) l
  else take (length l - Z.to_nat (- limit)) l.

Record ListInput := {
  l_category : option ConceptCategory;
  l_search : option string;
  l_limit : Z
}.

(** The fields of a concept that [handleListConcepts] lists. *)
Record ListedConcept := {
  listed_id : string;
  listed_name : string;
  listed_category : ConceptCategory;
  listed_parent : option string;
  listed_explanation : string;
  listed_lastSeen : string
}.

Definition listedConcept (c : Concept) : ListedConcept :=
  {| listed_id := id c; listed_name := name c; listed_category := category c;
     listed_parent := parent c; listed_explanation := explanation c;
     listed_lastSeen := lastSeen c |}.

Record ListResponse := {
  total : nat;
  returned : nat;
  listed : list ListedConcept
}.

Definition handleListConcepts (clk : Clock) (input : ListInput) (svc : StorageService)
  : ListResponse * StorageService :=
  let '(found, svc) :=
    searchConcepts clk (orKeep (l_search input) "") (categoryName <$> l_category input)
      svc in
  let limited := sliceList (l_limit input) found in
  ({| total := length found; returned := length limited;
      listed := listedConcept <$> limited |}, svc).

(** [text.slice(0, 500) + (text.length > 500 ? '...' : '')] when the
    context is to be saved. *)
Definition contextSnippet (saveContext : bool) (text : string) : option string :=
  if saveContext
  then Some (sliceTo 500 text
             +:+ (if bool_decide (500 < String.length text) then "..." else ""))
  else None.

(** The fields of a saved concept that [handleExtractConcepts] lists. *)
Record SavedConcept := {
  saved_id : string;
  saved_name : string;
  saved_category : ConceptCategory;
  saved_parent : option string;
  saved_explanation : string
}.

Definition savedConcept (c : Concept) : SavedConcept :=
  {| saved_id := id c; saved_name := name c; saved_category := category c;
     saved_parent := parent c; saved_explanation := explanation c |}.

(** The tool's answer: nothing found, or the concepts saved; the tool
    throws what the storage throws. [extracted] is what the extractor
    returned for the text. *)
Inductive ExtractResponse :=
  | nothingExtracted
  | extractThrows (e : Error)
  | extractedAndSaved (message : string) (saved : list SavedConcept).

Definition handleExtractConcepts (clk : nat → Clock) (uuid : nat → string)
    (text : string) (saveContext : bool) (extracted : list ExtractedConcept)
    (svc : StorageService) : ExtractResponse * StorageService :=
  match extracted with
  | [] => (nothingExtracted, svc)
  | _ =>
      let '(saved, svc) :=
        addConceptsFromExtraction clk uuid extracted (contextSnippet saveContext text) svc in
      match saved with
      | Ok savedConcepts =>
          (extractedAndSaved
             ("Extracted and saved " +:+ numberToString (length savedConcepts)
              +:+ " concept(s).") (savedConcept <$> savedConcepts), svc)
      | Throw e => (extractThrows e, svc)
      end
  end.

(** ** When a write fails

    [save] throws when [fs.mkdir] or [fs.writeFile] does, and an operation
    that ends in [save] then throws too, after it has changed the cached
    store. The definitions above take every write to succeed; those of
    this module take the way the write ends as an argument. *)
Module Fallible.

(** How the write of one [save] ends: it goes through; [fs.mkdir] throws,
    before [save] has changed anything; or [fs.writeFile] throws, after
    [lastUpdated] was set, and leaves [remains] on the disk. [message] is the
    message of the error thrown. *)
Inductive WriteEnd :=
  | written
  | mkdirThrows (message : string)
  | writeFileThrows (message : string) (remains : Disk).

Definition goesThrough (w : WriteEnd) : bool :=
  match w with
  | written => true
  | _ => false
  end.

(** What a storage call throws: an error of its own, or that of the write. *)
Inductive Thrown :=
  | ownError (e : Error)
  | writeError (message : string).

Definition thrownMessage (t : Thrown) : string :=
  match t with
  | ownError e => errorMessage e
  | writeError message => message
  end.

Inductive Attempt (A : Type) :=
  | returned (a : A)
  | threw (t : Thrown).
#[global] Arguments returned {A} a.
#[global] Arguments threw {A} t.

(** [save]: the message of the error it throws, if any, and what it leaves. *)
Definition save (w : WriteEnd) (clk : Clock) (svc : StorageService)
  : option string * StorageService :=
  match store svc with
  | None => (None, svc)
  | Some s =>
      let s' := set_lastUpdated (t_save clk) s in
      match w with
      | mkdirThrows message => (Some message, svc)
      | writeFileThrows message remains =>
          (Some message, {| store := Some s'; disk := remains |})
      | written => (None, {| store := Some s'; disk := contents (json s') |})
      end
  end.

(** [await this.save(); return value] *)
Definition saveAndReturn {A} (value : A) (w : WriteEnd) (clk : Clock)
    (svc : StorageService) : Attempt A * StorageService :=
  match save w clk svc with
  | (None, svc) => (returned value, svc)
  | (Some message, svc) => (threw (writeError message), svc)
  end.

Definition updateConcept (w : WriteEnd) (clk : Clock) (i : string) (updates : Updates)
    (svc : StorageService) : Attempt Concept * StorageService :=
  let '(s, svc) := load clk svc in
  match findById i (concepts s) with
  | None => (threw (ownError (ConceptNotFound i)), svc)
  | Some (index, concept) =>
      let concept' := applyUpdates (t_now clk) updates concept in
      saveAndReturn concept' w clk (withConcepts (<[index := concept']> (concepts s)) s svc)
  end.

Definition addConcept (w : WriteEnd) (clk : Clock) (uuid : string)
    (extracted : ExtractedConcept) (chatSnippet : option string) (svc : StorageService)
  : Attempt Concept * StorageService :=
  let '(s, svc) := load clk svc in
  let '(existing, svc) := getConceptByName clk (ex_name extracted) svc in
  match existing with
  | Some e => updateConcept w clk (id e) (snippetOnly chatSnippet) svc
  | None =>
      let now := t_now clk in
      let concept :=
        {| id := uuid;
           name := ex_name extracted;
           category := ex_category extracted;
           parent := ex_parent extracted;
           explanation := ex_explanation extracted;
           chatSnippets := pushSnippet now chatSnippet [];
           codeLocations := [];
           firstSeen := now;
           lastSeen := now |} in
      saveAndReturn concept w clk (withConcepts (concepts s ++ [concept]) s svc)
  end.

Definition updateConceptParent (w : WriteEnd) (clk : Clock) (i : string)
    (newParent : option string) (svc : StorageService)
  : Attempt Concept * StorageService :=
  let '(s, svc) := load clk svc in
  match findById i (concepts s) with
  | None => (threw (ownError (ConceptNotFound i)), svc)
  | Some (index, concept) =>
      let reassign :=
        let concept' := set_parent (orUndefined newParent) (t_now clk) concept in
        saveAndReturn concept' w clk
          (withConcepts (<[index := concept']> (concepts s)) s svc) in
      match newParent with
      | Some (String a p) =>
          let parentName := String a p in
          match findByExactName parentName (concepts s) with
          | None => (threw (ownError (ParentNotFound parentName)), svc)
          | Some _ =>
              if wouldCreateCycle (concepts s) i parentName
              then (threw (ownError CircularReference), svc)
              else reassign
          end
      | _ => reassign
      end
  end.

(** [PATCH /api/concepts/:id/parent]: the status of the answer,
    [error.message.includes('not found') ? 404 : 400] for an error. *)
Definition patchParentStatus (r : Attempt Concept) : nat :=
  match r with
  | returned _ => 200
  | threw t => if includes (thrownMessage t) "not found" then 404 else 400
  end.

Definition patchParent (w : WriteEnd) (clk : Clock) (i : string)
    (newParent : option string) (svc : StorageService)
  : nat * Attempt Concept * StorageService :=
  let '(r, svc) := updateConceptParent w clk i newParent svc in
  (patchParentStatus r, r, svc).

(** The loop of [handleScanCodebase] that writes the locations back, from
    its [j]-th round on; [w j] is how the write of that round ends. An
    update that throws is passed over and not counted. *)
Fixpoint updateLocations (w : nat → WriteEnd) (clk : nat → Clock) (j : nat)
    (entries : list (string * list CodeLocation)) (updatedCount : nat)
    (svc : StorageService) : nat * StorageService :=
  match entries with
  | [] => (updatedCount, svc)
  | (conceptId, locations) :: rest =>
      match updateConcept (w j) (clk j) conceptId
              (locationsOnly (locationString <$> locations)) svc with
      | (returned _, svc) => updateLocations w clk (S j) rest (S updatedCount) svc
      | (threw _, svc) => updateLocations w clk (S j) rest updatedCount svc
      end
  end.

Section ScanTool.
Variable join : string → string → string.
Variable extname : string → string.
Variable relative : string → string → string.

Definition handleScanCodebase (w : nat → WriteEnd) (clk : nat → Clock)
    (input : ScanInput) (root : option (list DirEntry)) (svc : StorageService)
  : ScanResponse * StorageService :=
  let scan (cs : list Concept) (svc : StorageService) :=
    let entries :=
      scanAllEntries relative (in_rootPath input) cs
        (getFiles join extname (scanOptions input) root) in
    let '(updatedCount, svc) := updateLocations w clk 1 entries 0 svc in
    (scanDone (scanMessage (length cs) (length entries)) updatedCount
       (summarize cs entries), svc) in
  match in_conceptId input with
  | Some (String a i) =>
      let '(found, svc) := getConceptById (clk 0) (String a i) svc in
      match found with
      | None => (scanFailed ("Concept not found: " +:+ String a i), svc)
      | Some c => scan [c] svc
      end
  | _ =>
      let '(cs, svc) := getAllConcepts (clk 0) svc in
      scan cs svc
  end.
End ScanTool.

End Fallible.

(** ** services/export.ts: the documentation format *)

(** [content.replace(/\n/g, ' ')] *)
Fixpoint replaceNewlines (s : string) : string :=
  match s with
  | EmptyString => EmptyString
  | String a s => String (if decide (a = newline) then " "%char else a) (replaceNewlines s)
  end.

(** ['#'.repeat(n)] *)
Definition hashes (n : nat) : string := string_of_list_ascii (replicate n "#"%char).

Definition categoryTitle (k : ConceptCategory) : string :=
  match k with
  | language => "Language Features"
  | library => "Libraries & Frameworks"
  | pattern => "Design Patterns"
  | architecture => "Architecture"
  end.

Section Markdown.
(** The two renderings of dates, which depend on the locale of the
    process: [new Date().toLocaleDateString('en-US', ...)] at the time of
    the export, and [new Date(timestamp).toLocaleDateString()]. *)
Variable exportDate : string.
Variable localeDate : string → string.

Definition referenceLine (snippet : ChatSnippet) : string :=
  let shown :=
    if bool_decide (100 < String.length (content snippet))
    then sliceTo 100 (content snippet) +:+ "..."
    else content snippet in
  "- *" +:+ localeDate (timestamp snippet) +:+ "*: " +:+ replaceNewlines shown.

(** The lines [renderNode] pushes for the node itself. *)
Definition nodeLines (level : nat) (options : ExportOptions) (c : Concept) : list string :=
  [hashes (level `min` 6) +:+ " " +:+ name c; ""]
  ++ (if truthy (parent c) then ["*Part of: " +:+ default "" (parent c) +:+ "*"; ""] else [])
  ++ [explanation c; ""]
  ++ (if notFalse (includeCodeLocations options)
         && bool_decide (0 < length (codeLocations c))
      then ["**Code Locations:**"]
           ++ ((λ loc, "- `" +:+ loc +:+ "`") <$> codeLocations c) ++ [""]
      else [])
  ++ (if notFalse (includeSnippets options) && bool_decide (0 < length (chatSnippets c))
      then ["**References:**"]
           ++ (referenceLine <$> take 3 (chatSnippets c))
           ++ (if bool_decide (3 < length (chatSnippets c))
               then ["- *...and " +:+ numberToString (length (chatSnippets c) - 3)
                     +:+ " more*"]
               else [])
           ++ [""]
      else []).

(** [renderNode] on the node objects of [buildTree], [fuel] calls deep;
    [None] when the fuel runs out. *)
Fixpoint renderNode (fuel : nat) (nodes : gmap string NodeCell) (options : ExportOptions)
    (level : nat) (ref : string) : option (list string) :=
  match fuel with
  | O => None
  | S fuel =>
      cell ← nodes !! ref;
      below ← mapM (renderNode fuel nodes options (S level)) (children cell);
      Some (nodeLines level options (concept cell) ++ concat below)
  end.

(** One round of the loop over the categories. *)
Definition renderCategory (fuel : nat) (nodes : gmap string NodeCell) (roots : list string)
    (options : ExportOptions) (k : ConceptCategory) : option (list string) :=
  match filter (λ ref, category ∘ concept <$> nodes !! ref = Some k) roots with
  | [] => Some []
  | categoryNodes =>
      rendered ← mapM (renderNode fuel nodes options 3) categoryNodes;
      Some (["## " +:+ categoryTitle k; ""] ++ concat rendered ++ [""])
  end.

(** [exportAsMarkdown]. A branch of the tree longer than the number of its
    nodes passes a node twice, and the recursion of [renderNode] then never
    returns: that is the [None]. *)
Definition exportAsMarkdown (cs : list Concept) (options : ExportOptions) : option string :=
  let tree := buildTree cs in
  sections ← mapM (renderCategory (S (length cs)) tree.1 tree.2 options)
                  [language; library; pattern; architecture];
  Some (String.concat (String newline "")
          (["# Concept Knowledge Base"; "";
            "*Exported on " +:+ exportDate +:+ "*"; "";
            "**Total concepts:** " +:+ numberToString (length cs); "";
            "---"; ""]
           ++ concat sections)).

(** [format] and [conceptIds] are the two fields of the options object that
    [ExportOptions] above leaves out. *)
Definition exportConcepts (clk : Clock) (format : ExportFormat)
    (conceptIds : option (list string)) (options : ExportOptions)
    (svc : StorageService) : option string * StorageService :=
  let '(allConcepts, svc) := getAllConcepts clk svc in
  let selected := selectConcepts conceptIds allConcepts in
  match format with
  | formatJson =>
      (Some (exportAsJson string JSON_stringify (t_now clk) selected options), svc)
  | formatMarkdown => (exportAsMarkdown selected options, svc)
  end.
End Markdown.

(** The extraction of the first scenario again, its name in capitals. *)
Definition useStateShouted : ExtractedConcept :=
  {| ex_name := "USESTATE"; ex_category := library;
     ex_parent := None; ex_explanation := "The same hook, shouted." |}.

(** [path.join] of a directory and a plain name, and [path.extname] of a
    name with a stem before its last dot. *)
Definition joinBelow (dir n : string) : string := dir +:+ "/" +:+ n.

Fixpoint fromLastDot (s : string) : option string :=
  match s with
  | EmptyString => None
  | String a s' =>
      match fromLastDot s' with
      | Some e => Some e
      | None => if decide (a = "."%char) then Some (String a s') else None
      end
  end.

Definition extnameOfPlain (n : string) : string := default "" (fromLastDot n).

(** The project of the scanner scenario as a directory tree, with a
    dependency directory and a notes file beside the two sources. *)
Definition projectTree : list DirEntry :=
  [directoryEntry "node_modules"
     (Some [fileEntry "index.js" (Some "export function useState() {}")]);
   directoryEntry "src"
     (Some [fileEntry "A.ts" (readAs fileA);
            fileEntry "B.ts" (readAs fileB);
            fileEntry "notes.md" (Some "useState is a hook")])].

Definition scanEverything : ScanInput :=
  {| in_rootPath := projectRoot; in_conceptId := None; in_fileTypes := None |}.

(** The clock of every call of a run. *)
Definition steady (n : nat) : Clock := clock0.

(** Two concepts of one name, as a rename of the first leaves them. *)
Definition hooksRenamed : Concept :=
  {| id := id reactHooks; name := "useState"; category := library; parent := None;
     explanation := explanation reactHooks; chatSnippets := []; codeLocations := [];
     firstSeen := firstSeen reactHooks; lastSeen := "2024-03-01T09:00:01.000Z" |}.

(** A third concept renamed to the name of the first, its parent the
    second: the store a rename can leave. *)
Definition hooksAgain : Concept :=
  {| id := uuid1; name := "React Hooks"; category := library;
     parent := Some "useState";
     explanation := "The hooks, noted a second time.";
     chatSnippets := []; codeLocations := [];
     firstSeen := "2024-03-01T09:00:01.000Z"; lastSeen := "2024-03-01T09:00:05.000Z" |}.

Definition renamedStore : list Concept := [reactHooks; useState; hooksAgain].

(** A rendering of dates for the samples: the day of the timestamp. *)
Definition dayOf (t : string) : string := sliceTo 10 t.

(** How the store of three comes about: a third concept is added under the
    second and then renamed to the name of the first. *)
Definition hooksAgainExtracted : ExtractedConcept :=
  {| ex_name := "Hooks again"; ex_category := library;
     ex_parent := Some "useState";
     ex_explanation := "The hooks, noted a second time." |}.

Definition clock1 : Clock :=
  {| t_load := "2024-03-01T09:00:04.000Z";
     t_now := "2024-03-01T09:00:05.000Z";
     t_save := "2024-03-01T09:00:06.000Z" |}.

Definition renameToHooks : Updates :=
  {| u_name := Some "React Hooks"; u_explanation := None;
     u_chatSnippet := None; u_codeLocations := None |}.

(** The clock readings and the fresh ids of a batch of two rounds. *)
Definition twoRounds (n : nat) : Clock :=
  match n with
  | 0 => clock0
  | _ => clock1
  end.

Definition twoIds (n : nat) : string :=
  match n with
  | 0 => uuid0
  | _ => uuid1
  end.
(** * Properties *)

(** ** The cycle walk *)

Section ParentChain.
Variable cs : list Concept.

Lemma namesNonEmpty_elem c : namesNonEmpty cs → c ∈ cs → name c ≠ "".
Proof. unfold namesNonEmpty. rewrite Forall_forall. auto. Qed.

Lemma chainFrom_None k : chainFrom cs None k = None.
Proof. induction k; simpl; auto. Qed.

Lemma findByExactName_Some n i c :
  findByExactName n cs = Some (i, c) → c ∈ cs ∧ name c = n.
Proof.
  unfold findByExactName. intros H. apply list_find_Some in H as (Hi & Hn & _).
  split; [by eapply list_elem_of_lookup_2 | done].
Qed.

Lemma findByExactName_None n :
  findByExactName n cs = None ↔ ∀ c, c ∈ cs → name c ≠ n.
Proof.
  unfold findByExactName. rewrite list_find_None, Forall_forall. done.
Qed.

Lemma parentOf_empty : namesNonEmpty cs → parentOf cs "" = None.
Proof.
  intros Hne. unfold parentOf.
  assert (findByExactName "" cs = None) as ->; [|done].
  apply findByExactName_None. intros c Hc. by apply namesNonEmpty_elem.
Qed.

Lemma parentOf_Some n p : parentOf cs n = Some p → n ∈ conceptNames cs.
Proof.
  unfold parentOf. destruct (findByExactName n cs) as [[i c]|] eqn:E; [|done].
  intros _. apply findByExactName_Some in E as [Hc <-].
  unfold conceptNames. rewrite elem_of_list_to_set. apply list_elem_of_fmap. eauto.
Qed.

Lemma reachesOrRevisits_step target visited cur :
  cur ≠ target → cur ∉ visited →
  reachesOrRevisits cs target visited (Some cur) ↔
  reachesOrRevisits cs target ({[cur]} ∪ visited) (parentOf cs cur).
Proof.
  intros Ht Hv. split.
  - intros (k & n & Hk & Hn). destruct k as [|k]; simpl in Hk.
    + injection Hk as <-. destruct Hn as [?|[?|(j & ? & _)]]; [done|done|lia].
    + exists k, n. split; [done|].
      destruct Hn as [?|[?|(j & Hj & Hc)]]; [by left|right; left; set_solver|].
      destruct j as [|j]; simpl in Hc.
      * injection Hc as <-. right; left; set_solver.
      * right; right. exists j. split; [lia|done].
  - intros (k & n & Hk & Hn). exists (S k), n. split; [done|].
    destruct Hn as [?|[Hin|(j & Hj & Hc)]]; [by left| |].
    + apply elem_of_union in Hin as [Hin|Hin]; [|by right; left].
      apply elem_of_singleton in Hin as ->.
      right; right. exists 0. split; [lia|done].
    + right; right. exists (S j). split; [lia|done].
Qed.

(** The loop answers [true] exactly when the walk reaches the target or
    revisits a name. *)
Lemma cycleWalk_spec target fuel cur visited b :
  namesNonEmpty cs → target ≠ "" → "" ∉ visited →
  cycleWalk fuel cs target cur visited = Some b →
  (b = true ↔ reachesOrRevisits cs target visited cur).
Proof.
  intros Hne Ht. revert cur visited.
  induction fuel as [|fuel IH]; intros cur visited Hv; simpl; [done|].
  destruct cur as [[|a s]|].
  - intros [= <-]. split; [done|].
    intros (k & n & Hk & Hn). destruct k as [|k]; simpl in Hk.
    + injection Hk as <-. destruct Hn as [?|[?|(j & ? & _)]]; [done|done|lia].
    + rewrite parentOf_empty, chainFrom_None in Hk by done. done.
  - destruct (decide (String a s = target)) as [Heq|Hneq].
    { intros [= <-]. split; [|done]. intros _. exists 0, (String a s). auto. }
    destruct (decide (String a s ∈ visited)) as [Hin|Hnin].
    { intros [= <-]. split; [|done]. intros _. exists 0, (String a s). auto. }
    intros Hw. rewrite reachesOrRevisits_step by done.
    apply IH; [|exact Hw]. set_solver.
  - intros [= <-]. split; [done|].
    intros (k & n & Hk & _). by rewrite chainFrom_None in Hk.
Qed.

Lemma refChain_None k : refChain cs None k = None.
Proof. induction k; simpl; auto. Qed.

Lemma refChain_empty k : refChain cs (Some "") k = None.
Proof. destruct k; simpl; [done|apply refChain_None]. Qed.

Lemma reachesOrRevisitsRef_step target visited a s :
  String a s ≠ target → String a s ∉ visited →
  reachesOrRevisitsRef cs target visited (Some (String a s)) ↔
  reachesOrRevisitsRef cs target ({[String a s]} ∪ visited)
    (orUndefined (parentOf cs (String a s))).
Proof.
  intros Ht Hv.
  assert (∀ k, refChain cs (Some (String a s)) (S k)
               = refChain cs (orUndefined (parentOf cs (String a s))) k) as Hshift.
  { intros k. simpl. destruct (parentOf cs (String a s)) as [[|b q]|]; simpl; try done.
    by rewrite refChain_empty, refChain_None. }
  split.
  - intros (k & n & Hk & Hn). destruct k as [|k].
    + simpl in Hk. injection Hk as <-. destruct Hn as [?|[?|(j & ? & _)]]; [done|done|lia].
    + rewrite Hshift in Hk. exists k, n. split; [done|].
      destruct Hn as [?|[?|(j & Hj & Hc)]]; [by left|right; left; set_solver|].
      destruct j as [|j].
      * simpl in Hc. injection Hc as <-. right; left; set_solver.
      * rewrite Hshift in Hc. right; right. exists j. split; [lia|done].
  - intros (k & n & Hk & Hn). exists (S k), n. rewrite Hshift. split; [done|].
    destruct Hn as [?|[Hin|(j & Hj & Hc)]]; [by left| |].
    + apply elem_of_union in Hin as [Hin|Hin]; [|by right; left].
      apply elem_of_singleton in Hin as ->.
      right; right. exists 0. split; [lia|done].
    + right; right. exists (S j). rewrite Hshift. split; [lia|done].
Qed.

(** The loop and the chain as the code reads it agree on every store. *)
Lemma cycleWalk_refSpec target fuel cur visited b :
  cycleWalk fuel cs target cur visited = Some b →
  (b = true ↔ reachesOrRevisitsRef cs target visited cur).
Proof.
  revert cur visited.
  induction fuel as [|fuel IH]; intros cur visited; simpl; [done|].
  destruct cur as [[|a s]|].
  - intros [= <-]. split; [done|].
    intros (k & n & Hk & _). by rewrite refChain_empty in Hk.
  - destruct (decide (String a s = target)) as [Heq|Hneq].
    { intros [= <-]. split; [|done]. intros _. exists 0, (String a s). auto. }
    destruct (decide (String a s ∈ visited)) as [Hin|Hnin].
    { intros [= <-]. split; [|done]. intros _. exists 0, (String a s). auto. }
    intros Hw. rewrite reachesOrRevisitsRef_step by done.
    assert (∀ o, cycleWalk fuel cs target o ({[String a s]} ∪ visited)
                 = cycleWalk fuel cs target (orUndefined o) ({[String a s]} ∪ visited))
      as Hfalsy.
    { intros [[|c q]|]; try done. by destruct fuel. }
    apply IH. by rewrite <- Hfalsy.
  - intros [= <-]. split; [done|].
    intros (k & n & Hk & _). by rewrite refChain_None in Hk.
Qed.

(** The loop exits within [walkFuel] iterations. *)
Lemma cycleWalk_terminates target fuel cur visited :
  size (conceptNames cs ∖ visited) + 2 ≤ fuel →
  is_Some (cycleWalk fuel cs target cur visited).
Proof.
  revert cur visited. induction fuel as [|fuel IH]; intros cur visited Hf; [lia|].
  simpl. destruct cur as [[|a s]|]; [by eexists| |by eexists].
  destruct (decide (String a s = target)); [by eexists|].
  destruct (decide (String a s ∈ visited)) as [|Hnin]; [by eexists|].
  destruct (parentOf cs (String a s)) as [p|] eqn:Ep;
    fold (parentOf cs (String a s)); rewrite Ep.
  - apply IH. apply parentOf_Some in Ep.
    assert (conceptNames cs ∖ ({[String a s]} ∪ visited) ⊂ conceptNames cs ∖ visited)
      as Hsub by set_solver.
    apply subset_size in Hsub. lia.
  - destruct fuel; [lia|]. by eexists.
Qed.

Lemma size_conceptNames : size (conceptNames cs) ≤ length cs.
Proof.
  unfold conceptNames. rewrite <- (length_fmap name cs).
  generalize (name <$> cs). intros l. induction l as [|n l IH].
  - rewrite list_to_set_nil, size_empty. done.
  - rewrite list_to_set_cons, size_union_alt, size_singleton. simpl.
    assert (size (list_to_set l ∖ {[n]} : gset string) ≤ size (list_to_set l : gset string))
      by (apply subseteq_size; set_solver).
    lia.
Qed.

Lemma cycleWalk_walkFuel target cur :
  is_Some (cycleWalk (walkFuel cs) cs target cur ∅).
Proof.
  apply cycleWalk_terminates. unfold walkFuel.
  assert (size (conceptNames cs ∖ ∅) ≤ size (conceptNames cs))
    by (apply subseteq_size; set_solver).
  pose proof size_conceptNames. lia.
Qed.

Lemma walkFindsCycle_alt target start :
  walkFindsCycle cs target start ↔ reachesOrRevisits cs target ∅ (Some start).
Proof.
  unfold walkFindsCycle, reachesOrRevisits. split.
  - intros (k & n & Hk & [?|?]); exists k, n; auto.
  - intros (k & n & Hk & [?|[?|?]]); [exists k, n; auto|set_solver|exists k, n; auto].
Qed.

Lemma wouldCreateCycle_spec childId parentName i child :
  namesNonEmpty cs →
  findById childId cs = Some (i, child) →
  wouldCreateCycle cs childId parentName = true
  ↔ walkFindsCycle cs (name child) parentName.
Proof.
  intros Hne Hc. unfold wouldCreateCycle. rewrite Hc.
  destruct (cycleWalk_walkFuel (name child) (Some parentName)) as [b Hb].
  rewrite Hb. simpl. rewrite walkFindsCycle_alt.
  eapply cycleWalk_spec; [done| |set_solver|exact Hb].
  apply namesNonEmpty_elem; [done|].
  unfold findById in Hc. apply list_find_Some in Hc as (Hi & _).
  by eapply list_elem_of_lookup_2.
Qed.
Lemma walkFindsCycleRef_alt target start :
  walkFindsCycleRef cs target start ↔ reachesOrRevisitsRef cs target ∅ (Some start).
Proof.
  unfold walkFindsCycleRef, reachesOrRevisitsRef. split.
  - intros (k & n & Hk & [?|?]); exists k, n; auto.
  - intros (k & n & Hk & [?|[?|?]]); [exists k, n; auto|set_solver|exists k, n; auto].
Qed.

Lemma wouldCreateCycle_refSpec childId parentName i child :
  findById childId cs = Some (i, child) →
  wouldCreateCycle cs childId parentName = true
  ↔ walkFindsCycleRef cs (name child) parentName.
Proof.
  intros Hc. unfold wouldCreateCycle. rewrite Hc.
  destruct (cycleWalk_walkFuel (name child) (Some parentName)) as [b Hb].
  rewrite Hb. simpl. rewrite walkFindsCycleRef_alt.
  by eapply cycleWalk_refSpec.
Qed.

End ParentChain.

(** ** Reparenting *)

Lemma findById_elem_of i cs k c : findById i cs = Some (k, c) → c ∈ cs ∧ id c = i.
Proof.
  unfold findById. intros H. apply list_find_Some in H as (Hk & Hi & _).
  split; [by eapply list_elem_of_lookup_2 | done].
Qed.

Lemma findByExactName_is_Some cs c : c ∈ cs → is_Some (findByExactName (name c) cs).
Proof.
  intros Hc. destruct (findByExactName (name c) cs) eqn:E; [by eexists|].
  rewrite findByExactName_None in E. by destruct (E c Hc).
Qed.

Lemma walkFindsCycle_self cs n : walkFindsCycle cs n n.
Proof. exists 0, n. simpl. auto. Qed.

(** A walk that starts from a name no concept has stops at once. *)
Lemma walkFindsCycle_unknown cs target start :
  findByExactName start cs = None → target ≠ start → ¬ walkFindsCycle cs target start.
Proof.
  intros Hnone Hne (k & n & Hk & Hn). destruct k as [|k]; simpl in Hk.
  - injection Hk as <-. destruct Hn as [?|(j & ? & _)]; [done|lia].
  - unfold parentOf in Hk. rewrite Hnone in Hk. simpl in Hk.
    by rewrite chainFrom_None in Hk.
Qed.

Lemma load_store clk svc : store (load clk svc).2 = Some (load clk svc).1.
Proof. unfold load. destruct (store svc) eqn:E; simpl; done. Qed.

Lemma load_disk clk svc : disk (load clk svc).2 = disk svc.
Proof. unfold load. destruct (store svc) eqn:E; simpl; done. Qed.

(** A rejected reparent leaves the service as [load] left it: the cached
    store is the loaded one and nothing was written. *)
Lemma updateConceptParent_Throw clk i newParent svc e :
  (updateConceptParent clk i newParent svc).1 = Throw e →
  (updateConceptParent clk i newParent svc).2 = (load clk svc).2.
Proof.
  unfold updateConceptParent. destruct (load clk svc) as [s svc'].
  destruct (findById i (concepts s)) as [[index concept]|]; [|done].
  destruct newParent as [[|a p]|]; [done| |done].
  destruct (findByExactName (String a p) (concepts s)); [|done].
  destruct (wouldCreateCycle (concepts s) i (String a p)); done.
Qed.

Lemma updateConceptParent_cycle_iff clk i p svc :
  namesNonEmpty (concepts (load clk svc).1) →
  (updateConceptParent clk i (Some p) svc).1 = Throw CircularReference ↔
  ∃ k child, findById i (concepts (load clk svc).1) = Some (k, child)
             ∧ walkFindsCycle (concepts (load clk svc).1) (name child) p.
Proof.
  unfold updateConceptParent. destruct (load clk svc) as [s svc']. simpl.
  intros Hne.
  destruct (findById i (concepts s)) as [[index concept]|] eqn:Hi; simpl.
  2: { split; [done|]. by intros (? & ? & ? & _). }
  pose proof (findById_elem_of _ _ _ _ Hi) as [Hin _].
  assert (∀ P : Prop, (P ↔ walkFindsCycle (concepts s) (name concept) p) →
    (P ↔ ∃ k child, Some (index, concept) = Some (k, child)
                    ∧ walkFindsCycle (concepts s) (name child) p)) as Hone.
  { intros P ->. split; [eauto|]. by intros (? & ? & [= <- <-] & ?). }
  apply Hone. destruct p as [|a p].
  - split; [done|]. intros Hw. exfalso. revert Hw.
    apply walkFindsCycle_unknown; [|by eapply namesNonEmpty_elem].
    apply findByExactName_None. intros c Hc. by eapply namesNonEmpty_elem.
  - destruct (findByExactName (String a p) (concepts s)) as [[j q]|] eqn:Hp.
    + rewrite <- (wouldCreateCycle_spec _ i _ index concept) by done.
      destruct (wouldCreateCycle (concepts s) i (String a p)); simpl; split; done.
    + split; [done|]. intros Hw. exfalso. revert Hw.
      apply walkFindsCycle_unknown; [done|].
      intros Heq. rewrite findByExactName_None in Hp. by apply (Hp concept).
Qed.

(** A walk that starts from a non-empty name no concept has stops at once. *)
Lemma walkFindsCycleRef_unknown cs target start :
  findByExactName start cs = None → target ≠ start → ¬ walkFindsCycleRef cs target start.
Proof.
  intros Hnone Hne (k & n & Hk & Hn). destruct k as [|k]; simpl in Hk.
  - destruct start; [done|]. injection Hk as <-.
    destruct Hn as [?|(j & ? & _)]; [done|lia].
  - destruct start; simpl in Hk; [by rewrite refChain_None in Hk|].
    unfold parentOf in Hk. rewrite Hnone in Hk. simpl in Hk.
    by rewrite refChain_None in Hk.
Qed.

Lemma updateConceptParent_cycle_iff_ref clk i p svc :
  (updateConceptParent clk i (Some p) svc).1 = Throw CircularReference ↔
  ∃ k child, findById i (concepts (load clk svc).1) = Some (k, child)
             ∧ walkFindsCycleRef (concepts (load clk svc).1) (name child) p.
Proof.
  unfold updateConceptParent. destruct (load clk svc) as [s svc']. simpl.
  destruct (findById i (concepts s)) as [[index concept]|] eqn:Hi; simpl.
  2: { split; [done|]. by intros (? & ? & ? & _). }
  pose proof (findById_elem_of _ _ _ _ Hi) as [Hin _].
  assert (∀ P : Prop, (P ↔ walkFindsCycleRef (concepts s) (name concept) p) →
    (P ↔ ∃ k child, Some (index, concept) = Some (k, child)
                    ∧ walkFindsCycleRef (concepts s) (name child) p)) as Hone.
  { intros P ->. split; [eauto|]. by intros (? & ? & [= <- <-] & ?). }
  apply Hone. destruct p as [|a p].
  - split; [done|]. intros (k & n & Hk & _). by rewrite refChain_empty in Hk.
  - destruct (findByExactName (String a p) (concepts s)) as [[j q]|] eqn:Hp.
    + rewrite <- (wouldCreateCycle_refSpec _ i _ index concept) by done.
      destruct (wouldCreateCycle (concepts s) i (String a p)); simpl; split; done.
    + split; [done|]. intros Hw. exfalso. revert Hw.
      apply walkFindsCycleRef_unknown; [done|].
      intros Heq. rewrite findByExactName_None in Hp. by apply (Hp concept).
Qed.

Lemma updateConceptParent_self clk i svc k child :
  findById i (concepts (load clk svc).1) = Some (k, child) →
  name child ≠ "" →
  (updateConceptParent clk i (Some (name child)) svc).1 = Throw CircularReference.
Proof.
  unfold updateConceptParent. destruct (load clk svc) as [s svc']. simpl.
  intros Hi Hne. rewrite Hi.
  pose proof (findById_elem_of _ _ _ _ Hi) as [Hin _].
  destruct (name child) as [|a p] eqn:En; [done|]. rewrite <- En.
  destruct (findByExactName_is_Some _ _ Hin) as [[j q] ->].
  unfold wouldCreateCycle. rewrite Hi.
  unfold walkFuel. rewrite Nat.add_comm. simpl. rewrite En.
  rewrite decide_True by done. done.
Qed.

(** ** Updating *)

Lemma findById_lookup i cs k c : findById i cs = Some (k, c) → cs !! k = Some c.
Proof. unfold findById. intros H. by apply list_find_Some in H as (Hk & _). Qed.

Lemma updateConcept_found clk i updates svc k c :
  findById i (concepts (load clk svc).1) = Some (k, c) →
  updateConcept clk i updates svc =
    (Ok (applyUpdates (t_now clk) updates c),
     save clk (withConcepts (<[k := applyUpdates (t_now clk) updates c]>
                               (concepts (load clk svc).1))
                            (load clk svc).1 (load clk svc).2)).
Proof.
  unfold updateConcept. destruct (load clk svc) as [s svc']. simpl. by intros ->.
Qed.

Lemma updateConcept_missing clk i updates svc :
  findById i (concepts (load clk svc).1) = None →
  updateConcept clk i updates svc = (Throw (ConceptNotFound i), (load clk svc).2).
Proof.
  unfold updateConcept. destruct (load clk svc) as [s svc']. simpl. by intros ->.
Qed.

(** What [save] leaves behind after the concepts array was rewritten. *)
Lemma save_withConcepts clk cs s svc :
  save clk (withConcepts cs s svc) =
    {| store := Some (set_lastUpdated (t_save clk) (set_concepts cs s));
       disk := contents (json (set_lastUpdated (t_save clk) (set_concepts cs s))) |}.
Proof. done. Qed.

Lemma load_load clk clk' svc :
  load clk' (load clk svc).2 = ((load clk svc).1, (load clk svc).2).
Proof. unfold load. destruct (store svc) eqn:E; simpl; [by rewrite E|done]. Qed.

(** With unique ids, looking a stored concept up by its id finds it. *)
Lemma findById_NoDup cs k c :
  NoDup (id <$> cs) → cs !! k = Some c → findById (id c) cs = Some (k, c).
Proof.
  intros Hnd Hk. unfold findById. apply list_find_Some. split; [done|]. split; [done|].
  intros j y Hj Hlt Heq.
  assert (j = k); [|lia].
  eapply NoDup_lookup; [exact Hnd| |]; rewrite list_lookup_fmap.
  - by rewrite Hj.
  - rewrite Hk. simpl. by rewrite Heq.
Qed.

Lemma findByName_lookup n cs k c : findByName n cs = Some (k, c) → cs !! k = Some c.
Proof. unfold findByName. intros H. by apply list_find_Some in H as (Hk & _). Qed.

(** ** Adding *)

Lemma addConcept_merge clk uuid extracted snippet svc k e :
  findByName (ex_name extracted) (concepts (load clk svc).1) = Some (k, e) →
  addConcept clk uuid extracted snippet svc
  = updateConcept clk (id e) (snippetOnly snippet) (load clk svc).2.
Proof.
  unfold addConcept, getConceptByName. intros He.
  destruct (load clk svc) as [s svc'] eqn:El.
  replace svc' with (load clk svc).2 by (by rewrite El).
  rewrite load_load, El. simpl in *. by rewrite He.
Qed.

Lemma addConcept_create clk uuid extracted snippet svc :
  findByName (ex_name extracted) (concepts (load clk svc).1) = None →
  addConcept clk uuid extracted snippet svc
  = let concept :=
      {| id := uuid; name := ex_name extracted; category := ex_category extracted;
         parent := ex_parent extracted; explanation := ex_explanation extracted;
         chatSnippets := pushSnippet (t_now clk) snippet []; codeLocations := [];
         firstSeen := t_now clk; lastSeen := t_now clk |} in
    (Ok concept,
     save clk (withConcepts (concepts (load clk svc).1 ++ [concept])
                 (load clk svc).1 (load clk svc).2)).
Proof.
  unfold addConcept, getConceptByName. intros He.
  destruct (load clk svc) as [s svc'] eqn:El.
  replace svc' with (load clk svc).2 by (by rewrite El).
  rewrite load_load, El. simpl in *. by rewrite He.
Qed.

Lemma length_pushSnippet now text l :
  length (pushSnippet now text l) = length l + (if truthy text then 1 else 0).
Proof.
  destruct text as [[|a s]|]; simpl; rewrite ?length_app; simpl; lia.
Qed.

(** ** Reparenting, continued *)

Lemma updateConceptParent_Ok clk i newParent svc c :
  (updateConceptParent clk i newParent svc).1 = Ok c →
  ∃ k old, findById i (concepts (load clk svc).1) = Some (k, old)
    ∧ c = set_parent (orUndefined newParent) (t_now clk) old
    ∧ (truthy newParent = true →
       ∃ p, newParent = Some p
            ∧ is_Some (findByExactName p (concepts (load clk svc).1))
            ∧ wouldCreateCycle (concepts (load clk svc).1) i p = false).
Proof.
  unfold updateConceptParent. destruct (load clk svc) as [s svc']. simpl.
  destruct (findById i (concepts s)) as [[index concept]|]; [|done].
  destruct newParent as [[|a p]|].
  - intros [= <-]. eexists _, _. split; [done|]. split; [done|]. done.
  - destruct (findByExactName (String a p) (concepts s)) eqn:Ep; [|done].
    destruct (wouldCreateCycle (concepts s) i (String a p)) eqn:Ew; [done|].
    intros [= <-]. eexists _, _. split; [done|]. split; [done|].
    intros _. exists (String a p). by rewrite Ep.
  - intros [= <-]. eexists _, _. split; [done|]. split; [done|]. done.
Qed.

Lemma updateConceptParent_unknown clk i p svc k child :
  findById i (concepts (load clk svc).1) = Some (k, child) →
  p ≠ "" →
  findByExactName p (concepts (load clk svc).1) = None →
  (updateConceptParent clk i (Some p) svc).1 = Throw (ParentNotFound p).
Proof.
  unfold updateConceptParent. destruct (load clk svc) as [s svc']. simpl.
  intros -> Hp Hnone. destruct p as [|a p]; [done|]. by rewrite Hnone.
Qed.

(** ** Reparenting keeps the parent graph free of cycles *)

Lemma chainFrom_add cs cur j m :
  chainFrom cs cur (j + m) = chainFrom cs (chainFrom cs cur j) m.
Proof. revert cur. induction j as [|j IH]; intros cur; simpl; auto. Qed.

Lemma chainFrom_None_ge cs cur k k' :
  chainFrom cs cur k = None → k ≤ k' → chainFrom cs cur k' = None.
Proof.
  intros Hk Hle. replace k' with (k + (k' - k)) by lia.
  by rewrite chainFrom_add, Hk, chainFrom_None.
Qed.

(** Chains that die out do not come back to where they started. *)
Lemma chainsEnd_acyclic cs : chainsEnd cs → acyclic cs.
Proof.
  intros Hend c k _ Hk Hloop.
  assert (∀ q, chainFrom cs (Some (name c)) (q * k) = Some (name c)) as Hq.
  { intros q. induction q as [|q IH]; [done|].
    simpl. by rewrite chainFrom_add, Hloop. }
  destruct (Hend (name c)) as [K HK].
  specialize (Hq K). rewrite (chainFrom_None_ge _ _ K) in Hq; [done|done|nia].
Qed.


Section Reparented.
Variables (cs : list Concept) (i : nat) (t : Concept) (p' : option string) (now : string).
Hypothesis t_at_i : cs !! i = Some t.






End Reparented.



(** ** Cycles that creation and renaming let in *)

(** A parent that does not resolve yet is stored as given; creating the
    missing parent later, with the first concept as its parent, closes a
    cycle of length two. *)
Example add_closes_cycle :
  let svc1 := (addConcept clock0 uuid0 useStateExtracted None firstRun).2 in
  let r := addConcept clock0 uuid1 hooksUnderState None svc1 in
  ∃ c s', r.1 = Ok c ∧ store r.2 = Some s'
    ∧ (name <$> concepts s') = ["useState"; "React Hooks"]
    ∧ chainFrom (concepts s') (Some "useState") 2 = Some "useState"
    ∧ ¬ acyclic (concepts s').
Proof.
  eexists _, _. do 4 (split; [reflexivity|]).
  intros Hac. eapply (Hac _ 2); [apply list_elem_of_here|lia|reflexivity].
Qed.

(** Renaming a concept to the name its dangling parent reference holds
    closes a cycle as well. *)
Example rename_closes_cycle :
  let r := updateConcept clock0 (id useState)
             {| u_name := Some "React Hooks"; u_explanation := None;
                u_chatSnippet := None; u_codeLocations := None |}
             {| store := Some (set_concepts [useState] hooksStore); disk := enoent |} in
  ∃ c s', r.1 = Ok c ∧ store r.2 = Some s'
    ∧ concepts s' = [c]
    ∧ parent c = Some (name c)
    ∧ ¬ acyclic (concepts s').
Proof.
  eexists _, _. do 4 (split; [reflexivity|]).
  intros Hac. eapply (Hac _ 1); [apply list_elem_of_here|lia|reflexivity].
Qed.

(** ** The data export *)

Lemma readArray_snippets (l : list ChatSnippet) :
  readArray readSnippet (serializable (JSArray (snippetValue <$> l))) = Some l.
Proof.
  simpl. induction l as [|s l IH]; [done|].
  simpl in *. unfold fmap in IH. rewrite IH. by destruct s.
Qed.

Lemma readArray_strings (l : list string) :
  readArray readString (serializable (JSArray (JSString <$> l))) = Some l.
Proof.
  simpl. induction l as [|s l IH]; [done|].
  simpl in *. unfold fmap in IH. by rewrite IH.
Qed.

Lemma readCategory_categoryName k : readCategory (JSString (categoryName k)) = Some k.
Proof. by destruct k. Qed.

Lemma readOptionalString_optionalString p :
  readOptionalString (optionalString p) = Some p.
Proof. by destruct p. Qed.

(** A serialized record reads back as the concept's included fields. *)
Lemma readConcept_conceptData options c :
  readConcept (serializable (conceptData options c)) = Some (included options c).
Proof.
  pose proof (readArray_snippets (chatSnippets c)) as Hs.
  pose proof (readArray_strings (codeLocations c)) as Hl.
  pose proof (readCategory_categoryName (category c)) as Hk.
  unfold readConcept, included, conceptData.
  destruct options as [[[]|] [[]|]], c as [i n k [p|] e sn lo f l];
    simpl in *; rewrite ?Hs, ?Hl, ?Hk; reflexivity.
Qed.

Lemma serializable_conceptData_item options c :
  match conceptData options c with
  | JSUndefined => JSNull
  | x => serializable x
  end = serializable (conceptData options c).
Proof. done. Qed.

Lemma readItems_concepts now cs options :
  readItems (prop "concepts" (serializable (exportEnvelope now cs options)))
  = (λ c, serializable (conceptData options c)) <$> cs.
Proof.
  simpl. induction cs as [|c cs IH]; [done|]. simpl. f_equal. exact IH.
Qed.

Lemma mapM_readConcept options cs :
  mapM readConcept ((λ c, serializable (conceptData options c)) <$> cs)
  = Some (included options <$> cs).
Proof.
  induction cs as [|c cs IH]; [done|].
  rewrite !fmap_cons.
  change (mapM readConcept (?x :: ?l))
    with (y ← readConcept x; k ← mapM readConcept l; mret (y :: k)).
  rewrite readConcept_conceptData, IH. done.
Qed.

Lemma included_all options c :
  notFalse (includeSnippets options) = true →
  notFalse (includeCodeLocations options) = true →
  included options c = c.
Proof. unfold included. intros -> ->. by destruct c. Qed.

(** ** Building the tree *)

Lemma attach_target st c :
  attach st c = match target st.1 c with
                | Some p => (alter (pushChild (name c)) p st.1, st.2)
                | None => (st.1, st.2 ++ [name c])
                end.
Proof.
  unfold attach, target. destruct (parent c) as [[|a p]|]; [done| |done].
  by destruct (decide (is_Some (st.1 !! String a p))).
Qed.

Lemma target_alter f p (m : gmap string NodeCell) c :
  target (alter f p m) c = target m c.
Proof.
  unfold target. destruct (parent c) as [[|a q]|]; [done| |done].
  destruct (decide (is_Some (m !! String a q))) as [H|H];
    [rewrite decide_True|rewrite decide_False]; try done.
  - by apply lookup_alter_is_Some.
  - by rewrite lookup_alter_is_Some.
Qed.

(** The second loop from any map and any roots: every remaining concept is
    appended to the roots or to the children of the node it names. *)
Lemma foldl_attach l : ∀ (m : gmap string NodeCell) roots,
  (foldl attach (m, roots) l).2 = roots ++ (name <$> filter (λ c, target m c = None) l)
  ∧ ∀ n, (foldl attach (m, roots) l).1 !! n
         = withChildren (name <$> filter (λ c, target m c = Some n) l) <$> m !! n.
Proof.
  induction l as [|c l IH]; intros m roots.
  - simpl. split; [by rewrite app_nil_r|].
    intros n. destruct (m !! n) as [[x ch]|]; [|done].
    simpl. unfold withChildren. simpl. by rewrite app_nil_r.
  - simpl. rewrite attach_target. simpl.
    destruct (target m c) as [p|] eqn:Et.
    + destruct (IH (alter (pushChild (name c)) p m) roots) as [IHr IHn].
      split.
      * rewrite IHr, filter_cons_False by (by rewrite Et). f_equal. f_equal.
        apply list_filter_iff. intros c'. by rewrite target_alter.
      * intros n. rewrite IHn.
        rewrite (list_filter_iff (λ c', target (alter (pushChild (name c)) p m) c' = Some n)
                   (λ c', target m c' = Some n))
          by (intros c'; by rewrite target_alter).
        destruct (decide (p = n)) as [->|Hne].
        -- rewrite lookup_alter_eq, filter_cons_True by done.
           destruct (m !! n) as [[x ch]|]; [|done].
           simpl. unfold withChildren, pushChild. simpl.
           by rewrite <- app_assoc.
        -- rewrite lookup_alter_ne by done.
           rewrite filter_cons_False by (rewrite Et; congruence). done.
    + destruct (IH m (roots ++ [name c])) as [IHr IHn].
      split.
      * rewrite IHr, filter_cons_True by done. by rewrite <- app_assoc.
      * intros n. rewrite IHn, filter_cons_False by (by rewrite Et). done.
Qed.

Lemma createNodes_snoc l c :
  createNodes (l ++ [c]) = <[name c := {| concept := c; children := [] |}]> (createNodes l).
Proof. unfold createNodes. by rewrite foldl_snoc. Qed.

Lemma createNodes_is_Some cs n : is_Some (createNodes cs !! n) ↔ n ∈ name <$> cs.
Proof.
  induction cs as [|c l IH] using rev_ind.
  - split; [by intros [? ?]|by intros ?%elem_of_nil].
  - rewrite createNodes_snoc, fmap_app, elem_of_app, <- IH. simpl.
    rewrite list_elem_of_singleton.
    destruct (decide (name c = n)) as [->|Hne].
    + rewrite lookup_insert_eq. split; [auto|by eexists].
    + rewrite lookup_insert_ne by done. split; [auto|]. intros [?|?]; [done|congruence].
Qed.

Lemma createNodes_lookup cs c :
  NoDup (name <$> cs) → c ∈ cs →
  createNodes cs !! name c = Some {| concept := c; children := [] |}.
Proof.
  induction cs as [|x l IH] using rev_ind; [by intros _ ?%elem_of_nil|].
  rewrite fmap_app, createNodes_snoc. simpl.
  intros (Hnd & Hdisj & _)%NoDup_app [Hc| ->%list_elem_of_singleton]%elem_of_app.
  - rewrite lookup_insert_ne; [by apply IH|].
    intros Heq. apply (Hdisj (name c)).
    + apply list_elem_of_fmap. eauto.
    + rewrite <- Heq. apply list_elem_of_here.
  - by rewrite lookup_insert_eq.
Qed.

Lemma target_createNodes cs c : target (createNodes cs) c = attachedTo cs c.
Proof.
  unfold target, attachedTo. destruct (parent c) as [[|a p]|]; [done| |done].
  destruct (decide (String a p ∈ name <$> cs)) as [H|H];
    [rewrite decide_True|rewrite decide_False]; try done;
    by rewrite createNodes_is_Some.
Qed.

(** The [roots] array is the concepts filed under no node, in input order. *)
Lemma buildTree_roots cs : (buildTree cs).2 = rootsOf cs.
Proof.
  unfold buildTree, rootsOf. rewrite (proj1 (foldl_attach cs _ _)). simpl.
  f_equal. apply list_filter_iff. intros c. by rewrite target_createNodes.
Qed.

(** With unique names, the node of a concept holds that concept and, as
    children, the concepts that name it as parent, in input order. *)
Lemma buildTree_node cs c :
  NoDup (name <$> cs) → c ∈ cs →
  (buildTree cs).1 !! name c
  = Some {| concept := c; children := childrenOf cs (name c) |}.
Proof.
  intros Hnd Hc. unfold buildTree, childrenOf.
  rewrite (proj2 (foldl_attach cs _ _)), createNodes_lookup by done. simpl.
  unfold withChildren. simpl. do 3 f_equal.
  apply list_filter_iff. intros c'. by rewrite target_createNodes.
Qed.

Lemma NoDup_fmap_eq {A B} (f : A → B) (l : list A) x y :
  NoDup (f <$> l) → x ∈ l → y ∈ l → f x = f y → x = y.
Proof.
  intros Hnd [j Hj]%list_elem_of_lookup [j' Hj']%list_elem_of_lookup Heq.
  assert (j = j') as ->; [|congruence].
  eapply NoDup_lookup; [exact Hnd| |]; rewrite list_lookup_fmap.
  - by rewrite Hj.
  - rewrite Hj'. simpl. by rewrite Heq.
Qed.

Lemma sum_list_zero {A} (f : A → nat) l :
  (∀ y, y ∈ l → f y = 0) → sum_list (map f l) = 0.
Proof.
  induction l as [|x l IH]; intros H; simpl; [done|].
  rewrite (H x), IH; [done| |apply list_elem_of_here].
  intros y Hy. apply H. by apply list_elem_of_further.
Qed.

Lemma sum_list_one {A} (f : A → nat) l y0 :
  NoDup l → y0 ∈ l → f y0 = 1 → (∀ y, y ∈ l → y ≠ y0 → f y = 0) →
  sum_list (map f l) = 1.
Proof.
  induction l as [|x l IH]; intros Hnd Hin H1 H0; [by apply elem_of_nil in Hin|].
  apply NoDup_cons in Hnd as [Hx Hnd]. simpl.
  apply elem_of_cons in Hin as [->|Hin].
  - rewrite H1, sum_list_zero; [done|].
    intros y Hy. apply H0; [by apply list_elem_of_further|]. by intros ->.
  - rewrite (H0 x), IH; try done; [|apply list_elem_of_here|by intros ->].
    intros y Hy. apply H0. by apply list_elem_of_further.
Qed.

Section Forest.
Variable cs : list Concept.
Hypothesis names_unique : NoDup (name <$> cs).

Lemma findByExactName_NoDup c :
  c ∈ cs → ∃ k, findByExactName (name c) cs = Some (k, c).
Proof.
  intros [k Hk]%list_elem_of_lookup. exists k. unfold findByExactName.
  apply list_find_Some. split; [done|]. split; [done|].
  intros j y Hj Hlt Heq. assert (y = c) as ->.
  { eapply (NoDup_fmap_eq name cs); [done| | |done]; by eapply list_elem_of_lookup_2. }
  assert (j = k); [|lia].
  eapply NoDup_lookup; [exact names_unique| |]; rewrite list_lookup_fmap.
  - by rewrite Hj.
  - by rewrite Hk.
Qed.

Lemma parentNode_concept c : c ∈ cs → parentNode cs (name c) = attachedTo cs c.
Proof.
  intros Hc. unfold parentNode. by destruct (findByExactName_NoDup c Hc) as [k ->].
Qed.

Lemma attachedTo_Some c p : attachedTo cs c = Some p → ∃ x, x ∈ cs ∧ name x = p.
Proof.
  unfold attachedTo. destruct (parent c) as [[|a q]|]; [done| |done].
  destruct (decide (String a q ∈ name <$> cs)) as [H|]; [|done].
  intros [= <-]. apply list_elem_of_fmap in H as (x & ? & ?). eauto.
Qed.

Lemma elem_of_childrenOf y n :
  y ∈ childrenOf cs n ↔ ∃ x, x ∈ cs ∧ name x = y ∧ attachedTo cs x = Some n.
Proof.
  unfold childrenOf. rewrite list_elem_of_fmap. split.
  - intros (x & -> & Hx). apply list_elem_of_filter in Hx as [? ?]. eauto.
  - intros (x & Hx & <- & Ha). exists x. split; [done|]. by apply list_elem_of_filter.
Qed.

Lemma elem_of_rootsOf y :
  y ∈ rootsOf cs ↔ ∃ x, x ∈ cs ∧ name x = y ∧ attachedTo cs x = None.
Proof.
  unfold rootsOf. rewrite list_elem_of_fmap. split.
  - intros (x & -> & Hx). apply list_elem_of_filter in Hx as [? ?]. eauto.
  - intros (x & Hx & <- & Ha). exists x. split; [done|]. by apply list_elem_of_filter.
Qed.

Lemma NoDup_names_filter (P : Concept → Prop) `{∀ c, Decision (P c)} :
  NoDup (name <$> filter P cs).
Proof.
  apply (sublist_NoDup _ (name <$> cs)); [exact names_unique|].
  apply fmap_sublist, sublist_filter.
Qed.

Lemma nodeAbove_S j n : nodeAbove cs (S j) n = nodeAbove cs j n ≫= parentNode cs.
Proof.
  revert n. induction j as [|j IH]; intros n.
  - simpl. by destruct (parentNode cs n).
  - change (nodeAbove cs (S (S j)) n) with (parentNode cs n ≫= nodeAbove cs (S j)).
    change (nodeAbove cs (S j) n) with (parentNode cs n ≫= nodeAbove cs j).
    destruct (parentNode cs n) as [p|]; [|done]. simpl. apply IH.
Qed.

Lemma nodeAbove_add j m n :
  nodeAbove cs (j + m) n = nodeAbove cs j n ≫= nodeAbove cs m.
Proof.
  revert n. induction j as [|j IH]; intros n; [done|].
  simpl. destruct (parentNode cs n) as [p|]; [|done]. simpl. apply IH.
Qed.

Lemma nodeAbove_concept c j n :
  c ∈ cs → nodeAbove cs j (name c) = Some n → ∃ x, x ∈ cs ∧ name x = n.
Proof.
  revert c. induction j as [|j IH]; intros c Hc; simpl.
  - intros [= <-]. eauto.
  - rewrite parentNode_concept by done.
    destruct (attachedTo cs c) as [p|] eqn:Ep; [|done]. simpl.
    apply attachedTo_Some in Ep as (x & Hx & <-). by apply IH.
Qed.
End Forest.

(** A chain of parents that ends passes each node once: it has no room for
    a repetition. *)
Section EndingChain.
Variable cs : list Concept.
Variables (start top : string) (d : nat).
Hypothesis chain_ends : nodeAbove cs d start = Some top.
Hypothesis top_is_root : parentNode cs top = None.

Lemma nodeAbove_beyond m : nodeAbove cs (d + S m) start = None.
Proof. rewrite nodeAbove_add, chain_ends. simpl. by rewrite top_is_root. Qed.

Lemma nodeAbove_within j y : nodeAbove cs j start = Some y → j ≤ d.
Proof.
  intros Hj. destruct (decide (j ≤ d)) as [|Hgt]; [done|].
  replace j with (d + S (j - d - 1)) in Hj by lia.
  by rewrite nodeAbove_beyond in Hj.
Qed.

Lemma nodeAbove_lt j j' y :
  nodeAbove cs j start = Some y → nodeAbove cs j' start = Some y → ¬ j < j'.
Proof.
  intros Hj Hj' Hlt.
  pose proof (nodeAbove_within _ _ Hj') as Hle.
  assert (nodeAbove cs (d - j) y = Some top) as Hy.
  { pose proof chain_ends as He. replace d with (j + (d - j)) in He at 1 by lia.
    by rewrite nodeAbove_add, Hj in He. }
  assert (nodeAbove cs (j' + (d - j)) start = Some top) as Hbad.
  { by rewrite nodeAbove_add, Hj'. }
  replace (j' + (d - j)) with (d + S (j' - j - 1)) in Hbad by lia.
  by rewrite nodeAbove_beyond in Hbad.
Qed.

Lemma nodeAbove_inj j j' y :
  nodeAbove cs j start = Some y → nodeAbove cs j' start = Some y → j = j'.
Proof.
  intros Hj Hj'.
  pose proof (nodeAbove_lt _ _ _ Hj Hj'). pose proof (nodeAbove_lt _ _ _ Hj' Hj). lia.
Qed.

Lemma nodeAbove_root j y :
  nodeAbove cs j start = Some y → parentNode cs y = None → j = d ∧ y = top.
Proof.
  intros Hj Hy. assert (j = d) as ->.
  { pose proof (nodeAbove_within _ _ Hj) as Hle.
    destruct (decide (j = d)) as [|Hne]; [done|].
    pose proof chain_ends as He. replace d with (j + S (d - j - 1)) in He by lia.
    rewrite nodeAbove_add, Hj in He. simpl in He. by rewrite Hy in He. }
  split; [done|]. congruence.
Qed.
End EndingChain.

Section Counting.
Variable cs : list Concept.
Hypothesis names_unique : NoDup (name <$> cs).

Lemma treeView_S k x :
  x ∈ cs →
  treeView (S k) (buildTree cs).1 (name x)
  = Some (treeNode x (omap (treeView k (buildTree cs).1) (childrenOf cs (name x)))).
Proof. intros Hx. simpl. by rewrite buildTree_node. Qed.

Lemma sum_occurrences_omap c k refs :
  sum_list (map (occurrences c) (omap (treeView k (buildTree cs).1) refs))
  = sum_list (map (countAt cs c k) refs).
Proof.
  induction refs as [|r refs IH]; [done|].
  simpl. unfold countAt at 1. unfold omap in IH.
  destruct (treeView k (buildTree cs).1 r); simpl; by rewrite IH.
Qed.

Lemma countAt_0 c ref : countAt cs c 0 ref = 0.
Proof. done. Qed.

Lemma countAt_S c k x :
  x ∈ cs →
  countAt cs c (S k) (name x)
  = (if decide (x = c) then 1 else 0)
    + sum_list (map (countAt cs c k) (childrenOf cs (name x))).
Proof.
  intros Hx. unfold countAt at 1. rewrite treeView_S by done.
  simpl. by rewrite sum_occurrences_omap.
Qed.

Variables (c : Concept) (top : string) (d : nat).
Hypothesis c_in : c ∈ cs.
Hypothesis chain_ends : nodeAbove cs d (name c) = Some top.
Hypothesis top_is_root : parentNode cs top = None.

(** Below a node, [k] levels deep, the concept occurs once when the node is
    one of the first [k] on the concept's chain of parents, and not at all
    otherwise. *)
Lemma countAt_chain k : ∀ x, x ∈ cs →
  ((∃ j, j < k ∧ nodeAbove cs j (name c) = Some (name x)) → countAt cs c k (name x) = 1)
  ∧ ((¬ ∃ j, j < k ∧ nodeAbove cs j (name c) = Some (name x)) → countAt cs c k (name x) = 0).
Proof.
  induction k as [|k IH]; intros x Hx.
  { split; [intros (j & ? & _); lia|done]. }
  assert (∀ y j', y ∈ childrenOf cs (name x) →
            nodeAbove cs j' (name c) = Some y →
            nodeAbove cs (S j') (name c) = Some (name x)) as Hup.
  { intros y j' (z & Hz & <- & Ha)%elem_of_childrenOf Hj'.
    rewrite nodeAbove_S, Hj'. simpl. by rewrite parentNode_concept. }
  rewrite countAt_S by done. split.
  - intros (j & Hj & Hn). destruct j as [|j].
    + simpl in Hn. injection Hn as Hn.
      assert (x = c) as -> by (by eapply (NoDup_fmap_eq name cs)).
      rewrite decide_True by done. rewrite sum_list_zero; [done|].
      intros y Hy. pose proof Hy as (z & Hz & <- & Ha)%elem_of_childrenOf.
      apply (IH z Hz). intros (j' & Hj' & Hn').
      pose proof (Hup _ _ Hy Hn') as Hbad.
      by pose proof (nodeAbove_inj cs _ _ _ chain_ends top_is_root (S j') 0 _ Hbad eq_refl).
    + rewrite decide_False.
      2: { intros ->.
           by pose proof (nodeAbove_inj cs _ _ _ chain_ends top_is_root (S j) 0 _ Hn eq_refl). }
      rewrite nodeAbove_S in Hn.
      destruct (nodeAbove cs j (name c)) as [y0|] eqn:Hy0; [|done]. simpl in Hn.
      destruct (nodeAbove_concept cs names_unique c j y0 c_in Hy0) as (z0 & Hz0 & <-).
      rewrite parentNode_concept in Hn by done.
      rewrite (sum_list_one _ _ (name z0)); [done| | | |].
      * unfold childrenOf. by apply NoDup_names_filter.
      * apply elem_of_childrenOf. by exists z0.
      * apply (IH z0 Hz0). exists j. split; [lia|done].
      * intros y Hy Hne. pose proof Hy as (z & Hz & <- & Ha)%elem_of_childrenOf.
        apply (IH z Hz). intros (j' & Hj' & Hn').
        pose proof (Hup _ _ Hy Hn') as Hsame.
        assert (nodeAbove cs (S j) (name c) = Some (name x)) as Hj1
          by (rewrite nodeAbove_S, Hy0; simpl; by rewrite parentNode_concept).
        pose proof (nodeAbove_inj cs _ _ _ chain_ends top_is_root _ _ _ Hsame Hj1) as [= ->].
        congruence.
  - intros Hno. rewrite decide_False.
    2: { intros ->. apply Hno. exists 0. split; [lia|done]. }
    rewrite sum_list_zero; [done|].
    intros y Hy. pose proof Hy as (z & Hz & <- & Ha)%elem_of_childrenOf.
    apply (IH z Hz). intros (j' & Hj' & Hn'). apply Hno.
    exists (S j'). split; [lia|]. by eapply Hup.
Qed.

(** In the forest, deep enough to show the concept's level, the concept
    occurs exactly once. *)
Lemma occurrencesIn_forestView k :
  d < k → occurrencesIn c (forestView k cs) = 1.
Proof.
  intros Hk. unfold occurrencesIn, forestView.
  rewrite sum_occurrences_omap, buildTree_roots.
  destruct (nodeAbove_concept cs names_unique c d top c_in chain_ends) as (t & Ht & Et).
  pose proof top_is_root as Htop. rewrite <- Et, parentNode_concept in Htop by done.
  apply (sum_list_one _ _ (name t)).
  - unfold rootsOf. by apply NoDup_names_filter.
  - apply elem_of_rootsOf. by exists t.
  - apply (countAt_chain k t Ht). exists d. by rewrite Et.
  - intros y (z & Hz & <- & Ha)%elem_of_rootsOf Hne.
    apply (countAt_chain k z Hz). intros (j & Hj & Hn).
    rewrite <- parentNode_concept in Ha by done.
    destruct (nodeAbove_root cs _ _ _ chain_ends top_is_root j _ Hn Ha) as [_ ?].
    congruence.
Qed.
End Counting.

(** A chain of parents that ends is shorter than the snapshot. *)
Lemma ending_chain_short cs c d top :
  NoDup (name <$> cs) → c ∈ cs →
  nodeAbove cs d (name c) = Some top → parentNode cs top = None →
  d < length cs.
Proof.
  intros Hnd Hc Hd Htop.
  assert (∀ j, j ≤ d → is_Some (nodeAbove cs j (name c))) as Hdef.
  { intros j Hj. pose proof Hd as He. replace d with (j + (d - j)) in He by lia.
    rewrite nodeAbove_add in He. destruct (nodeAbove cs j (name c)); [by eexists|done]. }
  set (chain := (λ j, default "" (nodeAbove cs j (name c))) <$> seq 0 (S d)).
  assert (NoDup chain) as Hchain.
  { apply NoDup_fmap_2_strong; [|apply NoDup_seq].
    intros j j' Hj Hj' Heq. apply elem_of_seq in Hj, Hj'.
    destruct (Hdef j) as [y Hy]; [lia|]. destruct (Hdef j') as [y' Hy']; [lia|].
    rewrite Hy, Hy' in Heq. simpl in Heq. subst y'.
    by eapply (nodeAbove_inj cs (name c) top d). }
  assert (chain ⊆+ name <$> cs) as Hsub.
  { apply NoDup_submseteq; [done|]. intros y (j & -> & Hj)%list_elem_of_fmap.
    apply elem_of_seq in Hj. destruct (Hdef j) as [z Hz]; [lia|]. rewrite Hz. simpl.
    destruct (nodeAbove_concept cs Hnd c j z Hc Hz) as (x & Hx & <-).
    apply list_elem_of_fmap. eauto. }
  apply submseteq_length in Hsub. unfold chain in Hsub.
  rewrite !length_fmap, length_seq in Hsub. lia.
Qed.

Lemma rootsOf_concept cs c :
  NoDup (name <$> cs) → c ∈ cs → name c ∈ rootsOf cs ↔ attachedTo cs c = None.
Proof.
  intros Hnd Hc. rewrite elem_of_rootsOf. split.
  - intros (x & Hx & Hn & Ha). by rewrite <- (NoDup_fmap_eq name cs x c).
  - intros Ha. by exists c.
Qed.

(** A concept filed under its own node has no root above it. *)
Lemma self_attached_no_root cs c d :
  NoDup (name <$> cs) → c ∈ cs → attachedTo cs c = Some (name c) → ¬ rootAbove cs c d.
Proof.
  intros Hnd Hc Hself (r & Hr & Hroot).
  assert (∀ j, nodeAbove cs j (name c) = Some (name c)) as Hloop.
  { intros j. induction j as [|j IH]; [done|].
    by rewrite nodeAbove_S, IH; simpl; rewrite parentNode_concept. }
  rewrite Hloop in Hr. injection Hr as <-.
  rewrite parentNode_concept in Hroot by done. congruence.
Qed.

Lemma attachedTo_None cs c :
  attachedTo cs c = None
  ↔ truthy (parent c) = false ∨ ∀ c', c' ∈ cs → parent c ≠ Some (name c').
Proof.
  unfold attachedTo. destruct (parent c) as [[|a p]|]; simpl.
  - split; [by left|done].
  - destruct (decide (String a p ∈ name <$> cs)) as [Hin|Hnin].
    + split; [done|]. intros [?|Hno]; [done|].
      apply list_elem_of_fmap in Hin as (x & Hx & Hin). destruct (Hno x Hin). by rewrite Hx.
    + split; [|done]. intros _. right. intros c' Hc' [= Heq]. apply Hnin.
      rewrite Heq. apply list_elem_of_fmap. eauto.
  - split; [by left|done].
Qed.

(** ** The scanner's pattern *)

Lemma regexSpecial_not_b a : regexSpecial a = true → a ≠ "b"%char.
Proof. intros H ->. vm_compute in H. done. Qed.

Lemma regexSpecial_backslash a : regexSpecial a = false → a ≠ backslash.
Proof. intros H ->. vm_compute in H. done. Qed.

Lemma parseRegex_escapeRegex s tail :
  parseRegex (escapeRegex s +:+ tail)
  = (λ atoms, literals s ++ atoms) <$> parseRegex tail.
Proof.
  induction s as [|a s IH]; simpl.
  - by destruct (parseRegex tail).
  - destruct (regexSpecial a) eqn:Ea; simpl.
    + rewrite decide_False by (by apply regexSpecial_not_b).
      rewrite Ea, IH. by destruct (parseRegex tail).
    + rewrite decide_False by (by apply regexSpecial_backslash).
      rewrite Ea, IH. by destruct (parseRegex tail).
Qed.

(** The pattern built for a name always parses, to the name's characters
    between two word-boundary assertions. *)
Lemma parseRegex_patternSource n :
  parseRegex (patternSource n) = Some (WordBoundary :: literals n ++ [WordBoundary]).
Proof.
  unfold patternSource. simpl. rewrite parseRegex_escapeRegex. done.
Qed.

Lemma lastChar_app prev a b :
  lastChar prev (a +:+ b) = lastChar (lastChar prev a) b.
Proof. revert prev. induction a as [|c a IH]; intros prev; simpl; auto. Qed.

Lemma matchAtoms_literals n atoms prev input :
  matchAtoms (literals n ++ atoms) prev input = true
  ↔ ∃ mid post, input = (mid +:+ post)
                ∧ toUpperCase mid = toUpperCase n
                ∧ matchAtoms atoms (lastChar prev mid) post = true.
Proof.
  revert prev input. induction n as [|a n IH]; intros prev input; simpl.
  - split.
    + intros H. exists EmptyString, input. done.
    + intros (mid & post & -> & Hm & H). destruct mid; [done|discriminate].
  - destruct input as [|b input].
    + split; [done|]. intros (mid & post & Hi & Hm & _).
      destruct mid; simpl in *; discriminate.
    + rewrite andb_true_iff, bool_decide_eq_true, IH. split.
      * intros (Hab & mid & post & -> & Hm & H).
        exists (String b mid), post. simpl. rewrite Hm, Hab. done.
      * intros (mid & post & Hi & Hm & H). destruct mid as [|c mid]; [discriminate|].
        simpl in *. injection Hi as <- ->. injection Hm as Hc Hm.
        split; [done|]. by exists mid, post.
Qed.

Lemma searchFrom_spec atoms prev input :
  searchFrom atoms prev input = true
  ↔ ∃ pre rest, input = (pre +:+ rest)
                ∧ matchAtoms atoms (lastChar prev pre) rest = true.
Proof.
  revert prev. induction input as [|b input IH]; intros prev; simpl.
  - rewrite orb_false_r. split.
    + intros H. by exists EmptyString, EmptyString.
    + intros (pre & rest & Hi & H). destruct pre; [|discriminate].
      simpl in *. by subst rest.
  - rewrite orb_true_iff, IH. split.
    + intros [H|(pre & rest & -> & H)].
      * by exists EmptyString, (String b input).
      * by exists (String b pre), rest.
    + intros (pre & rest & Hi & H). destruct pre as [|c pre]; simpl in *.
      * left. by subst rest.
      * right. injection Hi as <- ->. by exists pre, rest.
Qed.

(** The test the scanner runs on a line succeeds exactly on the lines with
    a whole-word occurrence of the name. *)
Lemma regexTest_betweenBoundaries n text :
  regexTest (patternSource n) text = true ↔ betweenBoundaries n text.
Proof.
  unfold regexTest, betweenBoundaries. rewrite parseRegex_patternSource, searchFrom_spec.
  split.
  - intros (pre & rest & -> & H). simpl in H.
    apply andb_true_iff in H as [Hb H].
    apply matchAtoms_literals in H as (mid & post & -> & Hm & H).
    simpl in H. rewrite andb_true_r in H.
    exists pre, mid, post. rewrite lastChar_app. done.
  - intros (pre & mid & post & -> & Hm & Hb & He).
    exists pre, (mid +:+ post). split; [done|]. simpl.
    rewrite Hb. simpl. apply matchAtoms_literals.
    exists mid, post. split; [done|]. split; [done|]. simpl.
    rewrite andb_true_r. by rewrite lastChar_app in He.
Qed.

(** ** Word boundaries around a name with word characters at its ends *)

Lemma isWordChar_upper a : isWordChar (upper_ascii a) = isWordChar a.
Proof. destruct a as [[] [] [] [] [] [] [] []]; reflexivity. Qed.

Lemma firstChar_toUpperCase s :
  wordCharAt (firstChar (toUpperCase s)) = wordCharAt (firstChar s).
Proof. destruct s; simpl; [done|apply isWordChar_upper]. Qed.

Lemma lastChar_toUpperCase prev s :
  wordCharAt (lastChar (upper_ascii <$> prev) (toUpperCase s))
  = wordCharAt (lastChar prev s).
Proof.
  revert prev. induction s as [|a s IH]; intros prev; simpl.
  - destruct prev; simpl; [apply isWordChar_upper|done].
  - apply (IH (Some a)).
Qed.

Lemma lastChar_nonempty prev a s : lastChar prev (String a s) = lastChar None (String a s).
Proof. done. Qed.

Lemma atBoundary_alt prev rest :
  atBoundary prev rest = xorb (wordCharAt prev) (wordCharAt (firstChar rest)).
Proof. unfold atBoundary. by destruct rest. Qed.

(** For a name that begins and ends with a word character, a word boundary
    on either side of an occurrence says that the occurrence stands alone. *)
Lemma betweenBoundaries_standsAlone n text :
  wordEdged n → betweenBoundaries n text ↔ standsAlone n text.
Proof.
  intros [Hfirst Hlast].
  assert (∀ pre mid post, toUpperCase mid = toUpperCase n →
    atBoundary (lastChar None pre) (mid +:+ post) = negb (wordCharAt (lastChar None pre))
    ∧ atBoundary (lastChar None (pre +:+ mid)) post = negb (wordCharAt (firstChar post)))
    as Hedges.
  { intros pre mid post Hm. rewrite !atBoundary_alt.
    assert (wordCharAt (firstChar mid) = true) as Hf
      by (by rewrite <- firstChar_toUpperCase, Hm, firstChar_toUpperCase).
    assert (wordCharAt (lastChar None mid) = true) as Hl.
    { rewrite <- (lastChar_toUpperCase None), Hm. simpl.
      by rewrite (lastChar_toUpperCase None). }
    destruct mid as [|a mid]; [done|]. split.
    - simpl in *. rewrite Hf. by destruct (wordCharAt (lastChar None pre)).
    - rewrite lastChar_app, lastChar_nonempty, Hl. done. }
  split; intros (pre & mid & post & -> & Hm & Hb & He); exists pre, mid, post;
    destruct (Hedges pre mid post Hm) as [H1 H2]; rewrite H1, H2 in *;
    (split; [done|]); (split; [done|]).
  - by rewrite !negb_true_iff in Hb, He.
  - by rewrite Hb, He.
Qed.

(** ** Scanning *)

Section ScannerFacts.
Variable relative : string → string → string.
Variable rootPath : string.

Lemma elem_of_scanLines n rel i lines loc :
  loc ∈ scanLines n rel i lines
  ↔ ∃ j text, lines !! j = Some text
              ∧ regexTest (patternSource n) text = true
              ∧ loc = {| file := rel; line := i + j + 1;
                         context := sliceTo 100 (trim text) |}.
Proof.
  revert i. induction lines as [|l lines IH]; intros i; simpl.
  - split; [by intros ?%elem_of_nil|]. by intros (j & text & ? & _).
  - rewrite elem_of_app, IH. split.
    + intros [H|(j & text & Hj & Ht & ->)].
      * destruct (regexTest (patternSource n) l) eqn:E; [|by apply elem_of_nil in H].
        apply list_elem_of_singleton in H as ->.
        exists 0, l. rewrite Nat.add_0_r. done.
      * exists (S j), text. split; [done|]. split; [done|]. f_equal. lia.
    + intros (j & text & Hj & Ht & ->). destruct j as [|j]; simpl in Hj.
      * injection Hj as ->. left. rewrite Ht, Nat.add_0_r. apply list_elem_of_here.
      * right. exists j, text. split; [done|]. split; [done|]. f_equal. lia.
Qed.

Lemma elem_of_scanForConcept c files loc :
  loc ∈ scanForConcept relative rootPath c files
  ↔ ∃ f n text, mentionedAt (name c) files f n text
                ∧ loc = {| file := relative rootPath (path f); line := n + 1;
                           context := sliceTo 100 (trim text) |}.
Proof.
  unfold scanForConcept, mentionedAt. rewrite list_elem_of_bind. split.
  - intros (f & Hloc & Hf). unfold scanFile in Hloc.
    destruct (readAs f) as [content|] eqn:Er; [|by apply elem_of_nil in Hloc].
    apply elem_of_scanLines in Hloc as (j & text & Hj & Ht & ->).
    exists f, j, text. split; [|done]. split; [done|]. split; [by exists content|].
    by apply regexTest_betweenBoundaries.
  - intros (f & n & text & (Hf & (content & Er & Hn) & Hw) & ->).
    exists f. split; [|done]. unfold scanFile. rewrite Er.
    apply elem_of_scanLines. exists n, text. split; [done|].
    split; [by apply regexTest_betweenBoundaries|done].
Qed.

Lemma scanForConcept_nonempty c files :
  0 < length (scanForConcept relative rootPath c files) ↔ mentioned (name c) files.
Proof.
  unfold mentioned. split.
  - intros Hlen. destruct (scanForConcept relative rootPath c files) as [|loc l] eqn:E;
      [simpl in Hlen; lia|].
    assert (loc ∈ scanForConcept relative rootPath c files) as Hin
      by (rewrite E; apply list_elem_of_here).
    apply elem_of_scanForConcept in Hin as (f & n & text & H & _). eauto.
  - intros (f & n & text & H).
    assert ({| file := relative rootPath (path f); line := n + 1;
               context := sliceTo 100 (trim text) |}
            ∈ scanForConcept relative rootPath c files) as Hin
      by (apply elem_of_scanForConcept; eauto).
    destruct (scanForConcept relative rootPath c files); [by apply elem_of_nil in Hin|].
    simpl. lia.
Qed.

(** The loop over the concepts, from any map of earlier results. *)
Lemma scanAll_fold_lookup files cs (results : gmap string (list CodeLocation)) i locs :
  foldl (λ results concept,
           let locations := scanForConcept relative rootPath concept files in
           if bool_decide (0 < length locations)
           then <[id concept := locations]> results
           else results) results cs !! i = Some locs →
  results !! i = Some locs
  ∨ ∃ c, c ∈ cs ∧ id c = i ∧ locs = scanForConcept relative rootPath c files
         ∧ 0 < length locs.
Proof.
  revert results. induction cs as [|c cs IH]; intros results; simpl; [auto|].
  intros H. apply IH in H as [H|(c' & Hc' & ?)].
  - case_bool_decide as Hlen; [|auto].
    destruct (decide (id c = i)) as [<-|Hne].
    + rewrite lookup_insert_eq in H. injection H as <-.
      right. exists c. split; [apply list_elem_of_here|done].
    + rewrite lookup_insert_ne in H by done. auto.
  - right. exists c'. split; [by apply list_elem_of_further|done].
Qed.

Lemma scanAll_fold_dom files cs (results : gmap string (list CodeLocation)) i :
  is_Some (foldl (λ results concept,
           let locations := scanForConcept relative rootPath concept files in
           if bool_decide (0 < length locations)
           then <[id concept := locations]> results
           else results) results cs !! i)
  ↔ is_Some (results !! i)
    ∨ ∃ c, c ∈ cs ∧ id c = i ∧ 0 < length (scanForConcept relative rootPath c files).
Proof.
  revert results. induction cs as [|c cs IH]; intros results; simpl.
  - split; [auto|]. intros [?|(c & ?%elem_of_nil & _)]; done.
  - rewrite IH. split.
    + intros [H|(c' & Hc' & ?)].
      * case_bool_decide as Hlen; [|auto].
        destruct (decide (id c = i)) as [<-|Hne].
        -- right. exists c. split; [apply list_elem_of_here|done].
        -- rewrite lookup_insert_ne in H by done. auto.
      * right. exists c'. split; [by apply list_elem_of_further|done].
    + intros [H|(c' & Hc' & Hi & Hlen)].
      * left. case_bool_decide; [|done].
        destruct (decide (id c = i)) as [<-|Hne].
        -- rewrite lookup_insert_eq. by eexists.
        -- by rewrite lookup_insert_ne.
      * apply elem_of_cons in Hc' as [->|Hc'].
        -- left. rewrite bool_decide_eq_true_2 by done.
           rewrite <- Hi, lookup_insert_eq. by eexists.
        -- right. exists c'. done.
Qed.
End ScannerFacts.

Lemma NoDup_id_eq cs (c c' : Concept) :
  NoDup (id <$> cs) → c ∈ cs → c' ∈ cs → id c = id c' → c = c'.
Proof.
  intros Hnd [j Hj]%list_elem_of_lookup [j' Hj']%list_elem_of_lookup Heq.
  assert (j = j') as ->; [|congruence].
  eapply NoDup_lookup; [exact Hnd| |]; rewrite list_lookup_fmap.
  - by rewrite Hj.
  - rewrite Hj'. simpl. by rewrite Heq.
Qed.

(** The scan of the two-file project maps the concept's id to the one
    location [src/A.ts:5], and has no entry for the concept no file names. *)
Example scan_two_files :
  scanAllConcepts belowRoot projectRoot [reactHooks; useState] [fileA; fileB]
    !! id useState
  = Some [{| file := "src/A.ts"; line := 5;
             context := "const [count, setCount] = useState(0);" |}]
  ∧ scanAllConcepts belowRoot projectRoot [reactHooks; useState] [fileA; fileB]
      !! id reactHooks = None.
Proof. split; vm_compute; reflexivity. Qed.


(** ** The JSON text read back *)

Lemma skipSpace_spaces n l : skipSpace (spaces n ++ l) = skipSpace l.
Proof. induction n as [|n IH]; [done|]. simpl. exact IH. Qed.

Lemma skipSpace_newline l : skipSpace (newline :: l) = skipSpace l.
Proof. done. Qed.

Lemma skipSpace_cons a l : isJsonSpace a = false → skipSpace (a :: l) = a :: l.
Proof. intros H. simpl. by rewrite H. Qed.

(** *** Strings *)

Lemma parseChars_escapeChar a tail :
  parseChars (escapeChar a ++ tail) = consChar a (parseChars tail).
Proof. destruct a as [[] [] [] [] [] [] [] []]; reflexivity. Qed.

Lemma parseChars_escaped s rest :
  parseChars ((list_ascii_of_string s ≫= escapeChar) ++ quote :: rest) = Some (s, rest).
Proof.
  induction s as [|a s IH]; [done|].
  change (list_ascii_of_string (String a s)) with (a :: list_ascii_of_string s).
  rewrite bind_cons, <- app_assoc, parseChars_escapeChar, IH. done.
Qed.

Lemma printString_app s rest :
  printString s ++ rest
  = quote :: (list_ascii_of_string s ≫= escapeChar) ++ quote :: rest.
Proof. unfold printString. simpl. by rewrite <- app_assoc. Qed.

(** *** Numbers *)

Lemma isDigit_string_of_uint d :
  Forall (λ a, isDigit a = true) (list_ascii_of_string (NilEmpty.string_of_uint d)).
Proof. induction d; simpl; constructor; done. Qed.

Lemma spanDigits_app ds rest :
  Forall (λ a, isDigit a = true) ds →
  match rest with a :: _ => isDigit a = false | [] => True end →
  spanDigits (ds ++ rest) = (ds, rest).
Proof.
  intros Hds Hrest. induction Hds as [|a ds Ha _ IH]; simpl.
  - destruct rest as [|a rest]; [done|]. simpl. by rewrite Hrest.
  - by rewrite Ha, IH.
Qed.

Lemma parseNat_printNat n rest :
  match rest with a :: _ => isDigit a = false | [] => True end →
  parseNat (printNat n ++ rest) = Some (n, rest).
Proof.
  intros Hrest. unfold parseNat, printNat.
  rewrite spanDigits_app by (done || apply isDigit_string_of_uint).
  rewrite string_of_list_ascii_of_string, NilEmpty.usu. simpl.
  by rewrite DecimalNat.Unsigned.of_to.
Qed.

Lemma printNat_head n : ∃ a l, printNat n = a :: l ∧ isDigit a = true.
Proof.
  unfold printNat.
  pose proof (isDigit_string_of_uint (Nat.to_uint n)) as Hd.
  destruct (list_ascii_of_string (NilEmpty.string_of_uint (Nat.to_uint n)))
    as [|a l] eqn:E.
  - exfalso. assert (Nat.to_uint n = Decimal.Nil) as Hnil.
    { destruct (Nat.to_uint n); simpl in E; done. }
    pose proof (DecimalNat.Unsigned.to_of (Nat.to_uint n)) as Hto.
    rewrite DecimalNat.Unsigned.of_to, Hnil in Hto.
    by apply (DecimalFacts.unorm_nonnil Decimal.Nil).
  - exists a, l. split; [done|]. by apply Forall_cons in Hd as [? _].
Qed.

(** *** Arrays and objects *)

Lemma skipSpace_lead lead l :
  Forall (λ a, isJsonSpace a = true) lead → skipSpace (lead ++ l) = skipSpace l.
Proof. intros H. induction H as [|a lead Ha _ IH]; [done|]. simpl. by rewrite Ha. Qed.

Lemma spaces_space n : Forall (λ a, isJsonSpace a = true) (spaces n).
Proof. induction n; constructor; done. Qed.

Lemma afterValue_no_digit rest :
  afterValue rest → match rest with a :: _ => isDigit a = false | [] => True end.
Proof. destruct rest as [|a rest]; [done|]. by intros [->| ->]. Qed.

Lemma printLines_one ind l : printLines ind [l] = spaces ind ++ l.
Proof. done. Qed.

Lemma printLines_more ind l l' ls :
  printLines ind (l :: l' :: ls)
  = spaces ind ++ l ++ ","%char :: newline :: printLines ind (l' :: ls).
Proof. done. Qed.

Lemma length_printLines ind lines : length lines ≤ S (length (printLines ind lines)).
Proof.
  induction lines as [|l [|l' ls] IH]; [simpl; lia|simpl; lia|].
  rewrite printLines_more, !length_app. simpl in *. lia.
Qed.

Section Sequence.
Context {A : Type}.
Variable item : list ascii → option (A * list ascii).
Variable print : A → list ascii.
Variable closing : ascii.
Hypothesis closing_no_comma : closing ≠ ","%char.
Hypothesis closing_no_space : isJsonSpace closing = false.

Lemma parseSeq_S n l :
  parseSeq (S n) item closing l
  = match item l with
    | Some (x, r) =>
        match skipSpace r with
        | c :: r' =>
            if decide (c = ","%char)
            then (λ p, (x :: p.1, p.2)) <$> parseSeq n item closing r'
            else if decide (c = closing) then Some ([x], r')
            else None
        | [] => None
        end
    | None => None
    end.
Proof. done. Qed.

Lemma parseSeq_printLines ind ind' rest : ∀ xs lead n,
  (∀ x, x ∈ xs → ∀ lead r, Forall (λ a, isJsonSpace a = true) lead → afterValue r →
     item (lead ++ print x ++ r) = Some (x, r)) →
  xs ≠ [] → length xs ≤ n → Forall (λ a, isJsonSpace a = true) lead →
  parseSeq n item closing
    (lead ++ printLines ind (map print xs) ++ newline :: spaces ind' ++ closing :: rest)
  = Some (xs, rest).
Proof.
  induction xs as [|x xs IH]; intros lead n Hitem Hne Hn Hlead; [done|].
  destruct n as [|n]; [simpl in Hn; lia|].
  destruct xs as [|y xs].
  - simpl map. rewrite printLines_one.
    replace (lead ++ (spaces ind ++ print x) ++ newline :: spaces ind' ++ closing :: rest)
      with ((lead ++ spaces ind) ++ print x ++ newline :: spaces ind' ++ closing :: rest)
      by (by rewrite <- !app_assoc).
    rewrite parseSeq_S, Hitem; [|apply list_elem_of_here|apply Forall_app; split; [done|apply spaces_space]
                   |by right].
    rewrite skipSpace_newline, skipSpace_spaces, skipSpace_cons by done.
    rewrite decide_False by done. rewrite decide_True by done. done.
  - change (map print (x :: y :: xs)) with (print x :: print y :: map print xs).
    rewrite printLines_more.
    replace (lead ++ (spaces ind ++ print x ++ ","%char :: newline
                        :: printLines ind (print y :: map print xs))
               ++ newline :: spaces ind' ++ closing :: rest)
      with ((lead ++ spaces ind) ++ print x ++ ","%char
              :: ([newline] ++ printLines ind (map print (y :: xs))
                    ++ newline :: spaces ind' ++ closing :: rest))
      by (simpl; rewrite <- ?app_assoc; simpl; by rewrite <- ?app_assoc).
    rewrite parseSeq_S, Hitem;
      [|apply list_elem_of_here|apply Forall_app; split; [done|apply spaces_space]|by left].
    rewrite skipSpace_cons by done. rewrite decide_True by done.
    rewrite IH; [done| |done|simpl in *; lia|by constructor].
    intros z Hz. apply Hitem. by apply list_elem_of_further.
Qed.

Lemma parseBlock_blockBody ind rest xs :
  (∀ x, x ∈ xs → ∀ lead r, Forall (λ a, isJsonSpace a = true) lead → afterValue r →
     item (lead ++ print x ++ r) = Some (x, r)) →
  (∀ x, x ∈ xs → ∃ c l, print x = c :: l ∧ isJsonSpace c = false ∧ c ≠ closing) →
  parseBlock item closing (blockBody closing ind (map print xs) ++ rest) = Some (xs, rest).
Proof.
  intros Hitem Hhead. destruct xs as [|x xs].
  - unfold parseBlock. simpl. rewrite closing_no_space. by rewrite decide_True.
  - unfold blockBody.
    change (map print (x :: xs)) with (print x :: map print xs).
    cbv iota beta.
    set (body := (newline :: printLines (ind + 2) (print x :: map print xs)
                    ++ newline :: spaces ind ++ [closing]) ++ rest).
    assert (body = [newline] ++ printLines (ind + 2) (map print (x :: xs))
                     ++ newline :: spaces ind ++ closing :: rest) as Hbody.
    { unfold body. simpl. rewrite <- ?app_assoc. simpl. by rewrite <- ?app_assoc. }
    unfold parseBlock.
    destruct (Hhead x (list_elem_of_here _ _)) as (c & l & Hx & Hc & Hcc).
    assert (∃ tail, skipSpace body = c :: tail) as [tail ->].
    { rewrite Hbody. change ([newline] ++ ?z) with (newline :: z).
      rewrite skipSpace_newline. destruct xs as [|y xs].
      - change (map print [x]) with [print x].
        rewrite printLines_one, <- app_assoc, skipSpace_spaces, Hx.
        simpl. rewrite Hc. by eexists.
      - change (map print (x :: y :: xs)) with (print x :: print y :: map print xs).
        rewrite printLines_more, <- app_assoc, skipSpace_spaces, Hx.
        simpl. rewrite Hc. by eexists. }
    rewrite decide_False by done.
    rewrite Hbody at 2. apply parseSeq_printLines; [done|done| |by constructor].
    unfold body. rewrite length_app. simpl.
    pose proof (length_printLines (ind + 2) (print x :: map print xs)) as Hlen.
    simpl in Hlen. rewrite length_map in Hlen. rewrite !length_app. simpl. lia.
Qed.
End Sequence.

(** *** Values *)

Lemma isDigit_not_space a : isDigit a = true → isJsonSpace a = false.
Proof. destruct a as [[] [] [] [] [] [] [] []]; done. Qed.

Lemma isDigit_dispatch a :
  isDigit a = true →
  a ≠ quote ∧ a ≠ "["%char ∧ a ≠ "{"%char ∧ a ≠ "n"%char ∧ a ≠ "]"%char ∧ a ≠ "}"%char.
Proof. intros Ha. repeat split; intros ->; done. Qed.

(** The first character of a printed value tells what it is. *)
Lemma printValue_head ind w :
  ∃ c l, printValue ind w = c :: l ∧ isJsonSpace c = false
         ∧ c ≠ "]"%char ∧ c ≠ "}"%char.
Proof.
  destruct w as [| |s|n|items|props]; try (by eexists _, _).
  destruct (printNat_head n) as (a & l & Hn & Ha).
  exists a, l. split; [done|]. split; [by apply isDigit_not_space|].
  by destruct (isDigit_dispatch a Ha) as (_ & _ & _ & _ & ? & ?).
Qed.

Lemma height_item x items : x ∈ items → height x ≤ max_list (map height items).
Proof.
  intros Hx. apply max_list_elem_of_le. by apply (list_elem_of_fmap_2 height).
Qed.

Lemma height_prop (p : string * JSValue) props :
  p ∈ props → height p.2 ≤ max_list (map (λ p, height p.2) props).
Proof.
  intros Hp. apply max_list_elem_of_le.
  by apply (list_elem_of_fmap_2 (λ p : string * JSValue, height p.2)).
Qed.

Lemma forallb_elem_of {A} (f : A → bool) l x :
  forallb f l = true → x ∈ l → f x = true.
Proof. intros H Hx. by apply (proj1 (forallb_forall f l) H), list_elem_of_In. Qed.

Lemma parseMember_print value ind k x lead r :
  Forall (λ a, isJsonSpace a = true) lead →
  (∀ lead, Forall (λ a, isJsonSpace a = true) lead →
     value (lead ++ printValue ind x ++ r) = Some (x, r)) →
  parseMember value
    (lead ++ (printString k ++ ":"%char :: " "%char :: printValue ind x) ++ r)
  = Some ((k, x), r).
Proof.
  intros Hlead Hvalue. unfold parseMember.
  rewrite skipSpace_lead by done.
  rewrite <- app_assoc, printString_app, skipSpace_cons by done.
  rewrite decide_True by done. rewrite parseChars_escaped.
  pose proof (Hvalue [" "%char]) as Hv. simpl in Hv |- *.
  rewrite Hv by (by constructor). done.
Qed.

(** Reading back what was printed, with any white space before it. *)
Lemma parseValue_printValue fuel : ∀ w ind lead rest,
  height w < fuel → clean w = true →
  Forall (λ a, isJsonSpace a = true) lead → afterValue rest →
  parseValue fuel (lead ++ printValue ind w ++ rest) = Some (w, rest).
Proof.
  induction fuel as [|fuel IH]; intros w ind lead rest Hh Hclean Hlead Hrest; [lia|].
  simpl parseValue. rewrite skipSpace_lead by done.
  destruct w as [| |s|n|items|props]; [done|done| | | |].
  - change (printValue ind (JSString s)) with (printString s).
    rewrite printString_app, skipSpace_cons by done.
    rewrite decide_True by done. by rewrite parseChars_escaped.
  - destruct (printNat_head n) as (a & l & Hn & Ha).
    destruct (isDigit_dispatch a Ha) as (? & ? & ? & ? & _).
    change (printValue ind (JSNumber n)) with (printNat n).
    rewrite Hn. simpl app. rewrite skipSpace_cons by (by apply isDigit_not_space).
    rewrite !decide_False by done. rewrite Ha.
    change (a :: l ++ rest) with ((a :: l) ++ rest). rewrite <- Hn.
    rewrite parseNat_printNat by (by apply afterValue_no_digit). done.
  - simpl in Hh, Hclean.
    change (printValue ind (JSArray items))
      with ("["%char :: blockBody "]"%char ind (map (printValue (ind + 2)) items)).
    simpl app. rewrite skipSpace_cons by done.
    rewrite decide_False by done. rewrite decide_True by done.
    rewrite (parseBlock_blockBody (parseValue fuel) (printValue (ind + 2)));
      [done|done|done| |].
    + intros x Hx lead' r Hlead' Hr. apply IH; [|by apply (forallb_elem_of clean items)|done|done].
      pose proof (height_item x items Hx). lia.
    + intros x _. destruct (printValue_head (ind + 2) x) as (c & l & ? & ? & ? & _).
      by exists c, l.
  - simpl in Hh, Hclean.
    change (printValue ind (JSObject props))
      with ("{"%char :: blockBody "}"%char ind
              (map (λ p, printString p.1 ++ ":"%char :: " "%char
                           :: printValue (ind + 2) p.2) props)).
    simpl app. rewrite skipSpace_cons by done.
    rewrite !decide_False by done. rewrite decide_True by done.
    rewrite (parseBlock_blockBody (parseMember (parseValue fuel))
               (λ p, printString p.1 ++ ":"%char :: " "%char
                       :: printValue (ind + 2) p.2));
      [done|done|done| |].
    + intros [k x] Hx lead' r Hlead' Hr. apply parseMember_print; [done|].
      intros lead'' Hlead''. apply IH; [| |done|done].
      * pose proof (height_prop (k, x) props Hx). simpl in *. lia.
      * by apply (forallb_elem_of (λ p, clean p.2) props (k, x)).
    + intros [k x] _. by eexists _, _.
Qed.

(** *** The whole text *)

Lemma max_list_bound l n : (∀ x, x ∈ l → x ≤ n) → max_list l ≤ n.
Proof.
  induction l as [|x l IH]; intros H; simpl; [lia|].
  pose proof (H x (list_elem_of_here _ _)).
  pose proof (IH (λ y Hy, H y (list_elem_of_further _ _ _ Hy))). lia.
Qed.

Lemma length_printLines_line ind l lines :
  l ∈ lines → length l ≤ length (printLines ind lines).
Proof.
  induction lines as [|l0 [|l1 ls] IH]; intros Hl.
  - by apply elem_of_nil in Hl.
  - apply list_elem_of_singleton in Hl as ->.
    rewrite printLines_one, length_app. lia.
  - rewrite printLines_more, !length_app, !length_cons.
    apply elem_of_cons in Hl as [->|Hl]; [lia|]. specialize (IH Hl). lia.
Qed.

Lemma length_blockBody_line closing ind l lines :
  l ∈ lines → length l ≤ length (blockBody closing ind lines).
Proof.
  intros Hl. pose proof (length_printLines_line (ind + 2) l lines Hl).
  destruct lines as [|l0 ls]; [by apply elem_of_nil in Hl|].
  unfold blockBody. rewrite length_cons, length_app. lia.
Qed.

(** The nesting of a value is bounded by the length of its text. *)
Lemma height_printValue n : ∀ w ind, height w < n → height w ≤ length (printValue ind w).
Proof.
  induction n as [|n IH]; intros w ind Hh; [lia|].
  destruct w as [| |s|m|items|props]; try (simpl; lia).
  - change (printValue ind (JSArray items))
      with ("["%char :: blockBody "]"%char ind (map (printValue (ind + 2)) items)).
    simpl in *. apply le_n_S, max_list_bound.
    intros h (x & -> & Hx)%list_elem_of_fmap.
    pose proof (height_item x items Hx).
    etrans; [apply (IH x (ind + 2)); lia|].
    apply length_blockBody_line. by apply (list_elem_of_fmap_2 (printValue (ind + 2))).
  - change (printValue ind (JSObject props))
      with ("{"%char :: blockBody "}"%char ind
              (map (λ p, printString p.1 ++ ":"%char :: " "%char
                           :: printValue (ind + 2) p.2) props)).
    simpl in *. apply le_n_S, max_list_bound.
    intros h ([k x] & -> & Hx)%list_elem_of_fmap.
    pose proof (height_prop (k, x) props Hx) as Hk. simpl in Hk |- *.
    etrans; [apply (IH x (ind + 2)); lia|].
    etrans; [|apply (length_blockBody_line "}"%char ind
                       (printString k ++ ":"%char :: " "%char :: printValue (ind + 2) x))].
    + rewrite length_app. simpl. lia.
    + by apply (list_elem_of_fmap_2
                  (λ p : string * JSValue,
                     printString p.1 ++ ":"%char :: " "%char
                       :: printValue (ind + 2) p.2) props (k, x)).
Qed.

(** Serialization leaves no [undefined] behind. *)
Lemma clean_serializable n : ∀ v,
  height v < n → v ≠ JSUndefined → clean (serializable v) = true.
Proof.
  induction n as [|n IH]; intros v Hh Hv; [lia|].
  destruct v as [| |s|m|items|props]; try done.
  - simpl in *. apply forallb_forall. intros y Hy%list_elem_of_In.
    apply list_elem_of_fmap in Hy as (x & -> & Hx).
    pose proof (height_item x items Hx).
    destruct x; try done; apply IH; (done || lia).
  - simpl in *. apply forallb_forall. intros y Hy%list_elem_of_In.
    apply list_elem_of_omap in Hy as ([k x] & Hx & Hy).
    pose proof (height_prop (k, x) props Hx) as Hk. simpl in Hk.
    assert (x ≠ JSUndefined ∧ y = (k, serializable x)) as [Hxu ->].
    { destruct x; try done; by injection Hy as <-. }
    apply IH; [lia|done].
Qed.

Lemma length_string_of_list_ascii l : String.length (string_of_list_ascii l) = length l.
Proof. induction l as [|a l IH]; simpl; congruence. Qed.

(** [JSON.parse] reads back what [JSON.stringify] wrote. *)
Lemma JSON_parse_stringify v :
  v ≠ JSUndefined → JSON_parse (JSON_stringify v) = Some (serializable v).
Proof.
  intros Hv. unfold JSON_parse, JSON_stringify.
  rewrite list_ascii_of_string_of_list_ascii, length_string_of_list_ascii.
  pose proof (parseValue_printValue
                (S (length (printValue 0 (serializable v))))
                (serializable v) 0 [] []) as Hparse.
  simpl app in Hparse. rewrite app_nil_r in Hparse. rewrite Hparse; [done| | |done|done].
  - apply Nat.lt_succ_r, (height_printValue (S (height (serializable v)))). lia.
  - by apply (clean_serializable (S (height v))); [lia|].
Qed.


(** ** Deleting *)

Lemma deleteConcept_found clk i svc k c :
  findById i (concepts (load clk svc).1) = Some (k, c) →
  deleteConcept clk i svc
  = (true, save clk (withConcepts (delete k (concepts (load clk svc).1))
                       (load clk svc).1 (load clk svc).2)).
Proof.
  unfold deleteConcept. destruct (load clk svc) as [s svc']. simpl. by intros ->.
Qed.

Lemma deleteConcept_missing clk i svc :
  findById i (concepts (load clk svc).1) = None →
  deleteConcept clk i svc = (false, (load clk svc).2).
Proof.
  unfold deleteConcept. destruct (load clk svc) as [s svc']. simpl. by intros ->.
Qed.

(** A service that holds a store answers from it. *)
Lemma load_cached clk s d : load clk {| store := Some s; disk := d |} = (s, {| store := Some s; disk := d |}).
Proof. done. Qed.

Lemma getConceptById_load clk i svc :
  (getConceptById clk i svc).1 = snd <$> findById i (concepts (load clk svc).1).
Proof. unfold getConceptById. by destruct (load clk svc). Qed.

Lemma getConceptByName_load clk n svc :
  (getConceptByName clk n svc).1 = snd <$> findByName n (concepts (load clk svc).1).
Proof. unfold getConceptByName. by destruct (load clk svc). Qed.

(** Taking out an element the search would pass over does not change what
    it finds. *)
Lemma list_find_delete_other {A} (P : A → Prop) `{∀ x, Decision (P x)} (l : list A) k x :
  l !! k = Some x → ¬ P x →
  snd <$> list_find P (delete k l) = snd <$> list_find P l.
Proof.
  revert k. induction l as [|y l IH]; intros k Hk Hx; [done|].
  destruct k as [|k]; simpl in *.
  - injection Hk as ->. rewrite decide_False by done.
    destruct (list_find P l) as [[j z]|]; done.
  - destruct (decide (P y)); [done|].
    specialize (IH k Hk Hx).
    destruct (list_find P (delete k l)) as [[j z]|], (list_find P l) as [[j' z']|];
      simpl in *; congruence.
Qed.

(** With unique ids, the concept taken out was the only one with its id. *)
Lemma findById_delete_gone cs k c :
  NoDup (id <$> cs) → cs !! k = Some c → findById (id c) (delete k cs) = None.
Proof.
  intros Hnd Hk. unfold findById. apply list_find_None, Forall_forall.
  intros x Hx Hid. apply list_elem_of_lookup in Hx as [j Hj].
  assert (∃ j', j' ≠ k ∧ cs !! j' = Some x) as (j' & Hne & Hj').
  { destruct (decide (j < k)).
    - exists j. split; [lia|]. by rewrite list_lookup_delete_lt in Hj.
    - exists (S j). split; [lia|]. by rewrite list_lookup_delete_ge in Hj by lia. }
  apply Hne. eapply NoDup_lookup; [exact Hnd| |]; rewrite list_lookup_fmap.
  - by rewrite Hj'.
  - rewrite Hk. simpl. by rewrite Hid.
Qed.

Lemma elem_of_delete_other {A} (l : list A) k x y :
  l !! k = Some y → x ∈ l → x ≠ y → x ∈ delete k l.
Proof.
  intros Hk [j Hj]%list_elem_of_lookup Hne. apply list_elem_of_lookup.
  destruct (decide (j < k)).
  - exists j. by rewrite list_lookup_delete_lt.
  - assert (j ≠ k) by (intros ->; congruence).
    exists (j - 1). rewrite list_lookup_delete_ge by lia.
    by replace (S (j - 1)) with j by lia.
Qed.

Lemma fmap_delete {A B} (f : A → B) (l : list A) k : f <$> delete k l = delete k (f <$> l).
Proof. revert k. induction l as [|x l IH]; intros [|k]; simpl; [done..|]. by rewrite <- IH. Qed.

Lemma NoDup_delete {A} (l : list A) k : NoDup l → NoDup (delete k l).
Proof. intros H. eapply sublist_NoDup; [done|apply sublist_delete]. Qed.

(** With unique names, the name of the concept taken out is the name of no
    concept that stays. *)
Lemma name_delete_gone cs k d :
  NoDup (name <$> cs) → cs !! k = Some d → name d ∉ name <$> delete k cs.
Proof.
  intros Hnd Hk Hin. apply list_elem_of_fmap in Hin as (x & Hname & Hx).
  apply list_elem_of_lookup in Hx as [j Hj].
  assert (∃ j', j' ≠ k ∧ cs !! j' = Some x) as (j' & Hne & Hj').
  { destruct (decide (j < k)).
    - exists j. split; [lia|]. by rewrite list_lookup_delete_lt in Hj.
    - exists (S j). split; [lia|]. by rewrite list_lookup_delete_ge in Hj by lia. }
  apply Hne. eapply NoDup_lookup; [exact Hnd| |]; rewrite list_lookup_fmap.
  - by rewrite Hj'.
  - rewrite Hk. simpl. by rewrite Hname.
Qed.

(** What a name's parent reference is after a deletion: nothing for the
    deleted name, what it was for every other. *)
Lemma parentOf_delete cs k d n :
  NoDup (name <$> cs) → cs !! k = Some d →
  parentOf (delete k cs) n = if decide (n = name d) then None else parentOf cs n.
Proof.
  intros Hnd Hk. unfold parentOf. destruct (decide (n = name d)) as [->|Hne].
  - assert (findByExactName (name d) (delete k cs) = None) as ->; [|done].
    apply findByExactName_None. intros c Hc Hname.
    apply (name_delete_gone cs k d Hnd Hk), list_elem_of_fmap. eauto.
  - unfold findByExactName.
    pose proof (list_find_delete_other (λ c, name c = n) cs k d Hk) as Hfind.
    specialize (Hfind (λ H, Hne (eq_sym H))).
    destruct (list_find _ (delete k cs)) as [[j z]|], (list_find _ cs) as [[j' z']|];
      simpl in *; congruence.
Qed.

Lemma chainFrom_delete_None cs k d :
  NoDup (name <$> cs) → cs !! k = Some d →
  ∀ m cur, chainFrom cs cur m = None → chainFrom (delete k cs) cur m = None.
Proof.
  intros Hnd Hk. induction m as [|m IH]; intros cur Hm; [done|]. simpl in *.
  destruct cur as [n|]; simpl in *; [|apply chainFrom_None].
  rewrite (parentOf_delete cs k d) by done.
  destruct (decide (n = name d)); [apply chainFrom_None|by apply IH].
Qed.

Lemma delete_beyond {A} (l : list A) k : l !! k = None → delete k l = l.
Proof.
  revert k. induction l as [|x l IH]; intros [|k] Hk; simpl in *; [done..|].
  by rewrite IH.
Qed.

Lemma chainsEnd_delete cs k : NoDup (name <$> cs) → chainsEnd cs → chainsEnd (delete k cs).
Proof.
  intros Hnd Hends n. destruct (cs !! k) as [d|] eqn:Hk.
  - destruct (Hends n) as [m Hm]. exists m. by eapply chainFrom_delete_None.
  - rewrite delete_beyond by done. apply Hends.
Qed.

(** ** Merging code locations *)

Lemma elem_of_setOrder l : ∀ seen x, x ∈ setOrder seen l ↔ x ∈ l ∧ x ∉ seen.
Proof.
  induction l as [|y l IH]; intros seen x; simpl.
  - rewrite elem_of_nil. naive_solver.
  - destruct (decide (y ∈ seen)) as [Hy|Hy].
    + rewrite IH, elem_of_cons. naive_solver.
    + rewrite !elem_of_cons, IH. split.
      * intros [->|[? ?]]; [by auto|]. split; [by auto|set_solver].
      * intros [[->|?] ?]; [by left|].
        destruct (decide (x = y)) as [->|]; [by left|]. right. split; [done|set_solver].
Qed.

Lemma NoDup_setOrder l : ∀ seen, NoDup (setOrder seen l).
Proof.
  induction l as [|y l IH]; intros seen; simpl; [constructor|].
  destruct (decide (y ∈ seen)); [apply IH|].
  constructor; [|apply IH]. rewrite elem_of_setOrder. set_solver.
Qed.

Lemma setOrder_app l1 l2 : ∀ seen,
  setOrder seen (l1 ++ l2) = setOrder seen l1 ++ setOrder (list_to_set l1 ∪ seen) l2.
Proof.
  induction l1 as [|y l1 IH]; intros seen; simpl.
  - f_equal. set_solver.
  - destruct (decide (y ∈ seen)) as [Hy|Hy].
    + rewrite IH. f_equal. f_equal. set_solver.
    + simpl. rewrite IH. f_equal. f_equal. f_equal. set_solver.
Qed.

(** A list without repetitions, none of it seen before, is left as it is. *)
Lemma setOrder_NoDup l : ∀ seen,
  NoDup l → (∀ x, x ∈ l → x ∉ seen) → setOrder seen l = l.
Proof.
  induction l as [|y l IH]; intros seen Hnd Hnew; simpl; [done|].
  apply NoDup_cons in Hnd as [Hy Hnd].
  rewrite decide_False by (apply Hnew; left). f_equal. apply IH; [done|].
  intros x Hx. pose proof (Hnew x (list_elem_of_further _ _ _ Hx)).
  assert (x ≠ y) by (intros ->; done). set_solver.
Qed.

(** A list all of which was seen before adds nothing. *)
Lemma setOrder_seen l : ∀ seen, (∀ x, x ∈ l → x ∈ seen) → setOrder seen l = [].
Proof.
  induction l as [|y l IH]; intros seen Hseen; simpl; [done|].
  rewrite decide_True by (apply Hseen; left). apply IH.
  intros x Hx. apply Hseen. by right.
Qed.

(** Merging the same locations a second time changes nothing. *)
Lemma setOrder_again old new :
  setOrder ∅ (setOrder ∅ (old ++ new) ++ new) = setOrder ∅ (old ++ new).
Proof.
  rewrite (setOrder_app (setOrder ∅ (old ++ new)) new).
  rewrite (setOrder_NoDup (setOrder ∅ (old ++ new))) by (apply NoDup_setOrder || set_solver).
  rewrite (setOrder_seen new); [by rewrite app_nil_r|].
  intros x Hx. apply elem_of_union_l, elem_of_list_to_set, elem_of_setOrder.
  split; [|set_solver]. apply elem_of_app. by right.
Qed.

(** The search by id after the concept found was rewritten in place,
    keeping its id. *)
Lemma findById_insert i cs k c c' :
  findById i cs = Some (k, c) → id c' = i → findById i (<[k := c']> cs) = Some (k, c').
Proof.
  unfold findById. intros Hfind Hid. apply list_find_Some in Hfind as (Hk & _ & Hleast).
  apply list_find_Some. split; [|split; [done|]].
  - apply list_lookup_insert_eq. by eapply lookup_lt_Some.
  - intros j y Hj Hlt. rewrite list_lookup_insert_ne in Hj by lia. by eapply Hleast.
Qed.

Lemma updateConcept_again clk clk' i updates updates' svc k c :
  findById i (concepts (load clk svc).1) = Some (k, c) →
  (updateConcept clk' i updates' (updateConcept clk i updates svc).2).1
  = Ok (applyUpdates (t_now clk') updates' (applyUpdates (t_now clk) updates c)).
Proof.
  intros Hi. pose proof (findById_elem_of _ _ _ _ Hi) as [_ Hid].
  rewrite (updateConcept_found _ _ _ _ _ _ Hi), save_withConcepts. cbn [fst snd].
  erewrite updateConcept_found; [done|]. rewrite load_cached. simpl.
  by apply (findById_insert i _ k c).
Qed.

(** ** Renaming *)



(** ** Adding, and finding what was added *)

(** Rewriting an element in place by one the search treats alike leaves
    the search where it was. *)
Lemma list_find_insert_alike {A} (P : A → Prop) `{∀ x, Decision (P x)}
    (l : list A) j x x' k e :
  l !! j = Some x → (P x' ↔ P x) →
  list_find P l = Some (k, e) →
  list_find P (<[j := x']> l) = Some (k, if decide (k = j) then x' else e).
Proof.
  intros Hj Halike (Hk & He & Hleast)%list_find_Some.
  apply list_find_Some. split; [|split].
  - destruct (decide (k = j)) as [->|Hne].
    + apply list_lookup_insert_eq. by eapply lookup_lt_Some.
    + by rewrite list_lookup_insert_ne.
  - destruct (decide (k = j)) as [->|Hne]; [|done].
    apply Halike. by replace x with e by congruence.
  - intros i y Hi Hlt.
    apply list_lookup_insert_Some in Hi as [(-> & -> & _)|[Hij Hi]].
    + rewrite Halike. by eapply Hleast.
    + by eapply Hleast.
Qed.

Lemma list_find_insert_alike_None {A} (P : A → Prop) `{∀ x, Decision (P x)}
    (l : list A) j x x' :
  l !! j = Some x → (P x' ↔ P x) →
  list_find P l = None → list_find P (<[j := x']> l) = None.
Proof.
  intros Hj Halike Hnone. apply list_find_None, Forall_forall. intros y Hy.
  rewrite list_find_None, Forall_forall in Hnone.
  apply list_elem_of_lookup in Hy as [i Hi].
  apply list_lookup_insert_Some in Hi as [(-> & -> & _)|[Hij Hi]].
  - rewrite Halike. apply Hnone. by eapply list_elem_of_lookup_2.
  - apply Hnone. by eapply list_elem_of_lookup_2.
Qed.

Lemma findByName_elem_of n cs k c :
  findByName n cs = Some (k, c) → c ∈ cs ∧ toLowerCase (name c) = toLowerCase n.
Proof.
  unfold findByName. intros (Hk & Hn & _)%list_find_Some.
  split; [by eapply list_elem_of_lookup_2|done].
Qed.

Lemma findByName_None n cs :
  findByName n cs = None ↔ ∀ c, c ∈ cs → toLowerCase (name c) ≠ toLowerCase n.
Proof. unfold findByName. by rewrite list_find_None, Forall_forall. Qed.

Lemma findById_is_Some cs c : c ∈ cs → is_Some (findById (id c) cs).
Proof. intros Hc. unfold findById. by eapply list_find_elem_of. Qed.

Lemma findByName_snoc n cs c :
  findByName n cs = None → toLowerCase (name c) = toLowerCase n →
  findByName n (cs ++ [c]) = Some (length cs, c).
Proof.
  unfold findByName. intros Hnone Hc. rewrite list_find_app_r by done. simpl.
  rewrite decide_True by done. done.
Qed.

Lemma name_applyUpdates_snippetOnly now snippet c :
  name (applyUpdates now (snippetOnly snippet) c) = name c
  ∧ id (applyUpdates now (snippetOnly snippet) c) = id c.
Proof. done. Qed.

(** The store [addConcept] leaves behind, in either case. *)
Lemma addConcept_store clk uuid extracted snippet svc :
  ∃ c, (addConcept clk uuid extracted snippet svc).1 = Ok c
    ∧ ∃ cs', (addConcept clk uuid extracted snippet svc).2
             = save clk (withConcepts cs' (load clk svc).1 (load clk svc).2)
      ∧ ((findByName (ex_name extracted) (concepts (load clk svc).1) = None
          ∧ name c = ex_name extracted ∧ id c = uuid
          ∧ cs' = concepts (load clk svc).1 ++ [c])
         ∨ (∃ k e j e0,
              findByName (ex_name extracted) (concepts (load clk svc).1) = Some (k, e)
              ∧ findById (id e) (concepts (load clk svc).1) = Some (j, e0)
              ∧ c = applyUpdates (t_now clk) (snippetOnly snippet) e0
              ∧ cs' = <[j := c]> (concepts (load clk svc).1))).
Proof.
  destruct (findByName (ex_name extracted) (concepts (load clk svc).1)) as [[k e]|] eqn:He.
  - rewrite (addConcept_merge _ _ _ _ _ _ _ He).
    pose proof (findByName_elem_of _ _ _ _ He) as [Hin _].
    destruct (findById_is_Some _ _ Hin) as [[j e0] Hj].
    rewrite (updateConcept_found _ _ _ _ j e0) by (by rewrite load_load).
    rewrite load_load. cbn [fst snd].
    eexists. split; [done|]. eexists. split; [done|]. right. by exists k, e, j, e0.
  - rewrite (addConcept_create _ _ _ _ _ He). cbv zeta. cbn [fst snd].
    eexists. split; [done|]. eexists. split; [done|]. left. done.
Qed.

(** [addConcept] keeps the names apart. *)
Lemma addConcept_namesDistinct clk uuid extracted snippet svc s' :
  namesDistinct (concepts (load clk svc).1) →
  store (addConcept clk uuid extracted snippet svc).2 = Some s' →
  namesDistinct (concepts s').
Proof.
  intros Hnd Hs.
  destruct (addConcept_store clk uuid extracted snippet svc) as (c & _ & cs' & Hsvc & Hcase).
  rewrite Hsvc, save_withConcepts in Hs. injection Hs as <-. simpl.
  unfold namesDistinct in *.
  destruct Hcase as [(Hnone & Hname & _ & ->)|(k & e & j & e0 & _ & Hj & -> & ->)].
  - rewrite fmap_app. simpl. apply NoDup_app. split; [done|]. split; [|apply NoDup_singleton].
    intros x Hx ->%list_elem_of_singleton.
    apply list_elem_of_fmap in Hx as (y & Hy & Hin).
    rewrite Hname in Hy. by apply (proj1 (findByName_None _ _) Hnone y).
  - rewrite list_fmap_insert. simpl. rewrite list_insert_id; [done|].
    rewrite list_lookup_fmap, (findById_lookup _ _ _ _ Hj). done.
Qed.

Lemma concepts_load clk clk' svc : concepts (load clk svc).1 = concepts (load clk' svc).1.
Proof. unfold load. destruct (store svc); [done|]. by destruct (readFile (disk svc) ≫= parseStore). Qed.

(** After [addConcept] the name resolves to the concept it returned. *)
Lemma addConcept_resolves clk uuid extracted snippet svc :
  ∃ c s' k e, (addConcept clk uuid extracted snippet svc).1 = Ok c
    ∧ store (addConcept clk uuid extracted snippet svc).2 = Some s'
    ∧ findByName (ex_name extracted) (concepts s') = Some (k, e)
    ∧ id e = id c
    ∧ (NoDup (id <$> concepts (load clk svc).1) → e = c).
Proof.
  destruct (addConcept_store clk uuid extracted snippet svc) as (c & Hc & cs' & Hsvc & Hcase).
  rewrite Hsvc, save_withConcepts.
  destruct Hcase as [(Hnone & Hname & _ & ->)|(k & e & j & e0 & He & Hj & Hc' & ->)].
  - exists c. eexists. exists (length (concepts (load clk svc).1)), c. simpl.
    split; [done|]. split; [done|]. split; [|by split].
    apply findByName_snoc; [done|by rewrite Hname].
  - exists c. eexists. eexists k, _. simpl. split; [done|]. split; [done|].
    subst c. split; [|split].
    + unfold findByName.
      eapply (list_find_insert_alike _ _ j e0); [by eapply findById_lookup|done|exact He].
    + destruct (decide (k = j)); [done|]. simpl.
      by apply findById_elem_of in Hj as [_ ?].
    + intros Hnd. pose proof (findByName_lookup _ _ _ _ He) as Hk.
      rewrite (findById_NoDup _ _ _ Hnd Hk) in Hj. injection Hj as <- <-.
      by rewrite decide_True.
Qed.

Lemma addConcept_identities clk uuid extracted snippet svc s' :
  store (addConcept clk uuid extracted snippet svc).2 = Some s' →
  identities (concepts (load clk svc).1) `prefix_of` identities (concepts s').
Proof.
  intros Hs.
  destruct (addConcept_store clk uuid extracted snippet svc) as (c & _ & cs' & Hsvc & Hcase).
  rewrite Hsvc, save_withConcepts in Hs. injection Hs as <-. simpl. unfold identities.
  destruct Hcase as [(_ & _ & _ & ->)|(k & e & j & e0 & _ & Hj & -> & ->)].
  - rewrite fmap_app. by eexists.
  - rewrite list_fmap_insert. simpl. rewrite list_insert_id; [done|].
    by rewrite list_lookup_fmap, (findById_lookup _ _ _ _ Hj).
Qed.

(** Once a name resolves to an id it keeps doing so while the identities
    already there stay. *)
Lemma findByName_stable n cs cs' k e :
  identities cs `prefix_of` identities cs' →
  findByName n cs = Some (k, e) →
  ∃ e', findByName n cs' = Some (k, e') ∧ id e' = id e.
Proof.
  intros Hpre (Hk & He & Hleast)%list_find_Some.
  assert (∀ j y, cs !! j = Some y → ∃ y', cs' !! j = Some y' ∧ id y' = id y ∧ name y' = name y)
    as Hsame.
  { intros j y Hj.
    assert (identities cs' !! j = Some (id y, name y)) as Hj'.
    { eapply prefix_lookup_Some; [|exact Hpre]. unfold identities.
      by rewrite list_lookup_fmap, Hj. }
    unfold identities in Hj'. rewrite list_lookup_fmap in Hj'.
    destruct (cs' !! j) as [y'|]; [|done]. injection Hj' as ? ?. by exists y'. }
  destruct (Hsame k e Hk) as (e' & Hk' & Hid & Hname).
  exists e'. split; [|done]. apply list_find_Some. split; [done|]. split.
  - by rewrite Hname.
  - intros j y Hj Hlt.
    destruct (lookup_lt_is_Some_2 cs j) as [z Hz].
    { apply lookup_lt_Some in Hk. lia. }
    destruct (Hsame j z Hz) as (y' & Hj' & _ & Hn). rewrite Hj in Hj'.
    injection Hj' as <-. rewrite Hn. by eapply Hleast.
Qed.

(** Where the identities of a store stay, each place keeps its id and name. *)
Lemma identities_prefix_lookup cs cs' k c :
  identities cs `prefix_of` identities cs' → cs !! k = Some c →
  ∃ c', cs' !! k = Some c' ∧ id c' = id c ∧ name c' = name c.
Proof.
  intros Hpre Hk.
  assert (identities cs' !! k = Some (id c, name c)) as Hk'.
  { eapply prefix_lookup_Some; [|exact Hpre]. unfold identities.
    by rewrite list_lookup_fmap, Hk. }
  unfold identities in Hk'. rewrite list_lookup_fmap in Hk'.
  destruct (cs' !! k) as [c'|]; [|done]. injection Hk' as ? ?. by exists c'.
Qed.

Lemma addConcept_lastSeen clk uuid extracted snippet svc c :
  (addConcept clk uuid extracted snippet svc).1 = Ok c → lastSeen c = t_now clk.
Proof.
  destruct (addConcept_store clk uuid extracted snippet svc) as (c' & Hc' & cs' & _ & Hcase).
  rewrite Hc'. intros [= <-].
  destruct Hcase as [(Hnone & _)|(k & e & j & e0 & _ & _ & -> & _)]; [|done].
  rewrite (addConcept_create _ _ _ _ _ Hnone) in Hc'. cbv zeta in Hc'. cbn [fst] in Hc'.
  by injection Hc' as <-.
Qed.

Lemma addConcept_snippet clk uuid extracted snippet svc c :
  (addConcept clk uuid extracted snippet svc).1 = Ok c →
  ∃ old, chatSnippets c = pushSnippet (t_now clk) snippet old.
Proof.
  destruct (addConcept_store clk uuid extracted snippet svc) as (c' & Hc' & cs' & _ & Hcase).
  rewrite Hc'. intros [= <-].
  destruct Hcase as [(Hnone & _)|(k & e & j & e0 & _ & _ & -> & _)].
  - rewrite (addConcept_create _ _ _ _ _ Hnone) in Hc'. cbv zeta in Hc'. cbn [fst] in Hc'.
    injection Hc' as <-. by exists [].
  - by exists (chatSnippets e0).
Qed.

(** One round of the batch: the concept returned is in the store at its
    place, and every other place holds what it held. *)
Lemma addConcept_place clk uuid extracted snippet svc :
  ∃ c s', (addConcept clk uuid extracted snippet svc).1 = Ok c
    ∧ store (addConcept clk uuid extracted snippet svc).2 = Some s'
    ∧ concepts s' !! returnedAt extracted (concepts (load clk svc).1) = Some c
    ∧ ∀ k c0, concepts (load clk svc).1 !! k = Some c0 →
        k ≠ returnedAt extracted (concepts (load clk svc).1) →
        concepts s' !! k = Some c0.
Proof.
  destruct (addConcept_store clk uuid extracted snippet svc) as (c & Hc & cs' & Hsvc & Hcase).
  exists c. rewrite Hsvc, save_withConcepts. eexists. split; [done|]. split; [done|].
  unfold returnedAt. simpl.
  destruct Hcase as [(-> & _ & _ & ->)|(k & e & j & e0 & -> & Hj & _ & ->)]; simpl.
  - split; [by rewrite lookup_app_r, Nat.sub_diag|].
    intros k c0 Hk _. by rewrite lookup_app_l by (by eapply lookup_lt_Some).
  - rewrite Hj. simpl. split.
    + apply list_lookup_insert_eq. eapply lookup_lt_Some. by eapply findById_lookup.
    + intros k' c0 Hk Hne. by rewrite list_lookup_insert_ne.
Qed.

Lemma addEach_spec clk uuid chatContext : ∀ extractions i results svc,
  ∃ added,
    (addEach clk uuid i extractions chatContext results svc).1 = Ok (results ++ added)
    ∧ length added = length extractions
    ∧ (extractions ≠ [] →
       is_Some (store (addEach clk uuid i extractions chatContext results svc).2))
    ∧ ∀ clk',
        let final :=
          concepts (load clk' (addEach clk uuid i extractions chatContext results svc).2).1 in
        identities (concepts (load clk' svc).1) `prefix_of` identities final
        ∧ (namesDistinct (concepts (load clk' svc).1) → namesDistinct final)
        ∧ (∀ k c0, concepts (load clk' svc).1 !! k = Some c0 →
             ∃ c, final !! k = Some c
               ∧ (c = c0 ∨ metIn clk chatContext i (i + length extractions) c))
        ∧ (∀ j place x, added !! j = Some place → extractions !! j = Some x →
             ∃ c, final !! place = Some c
               ∧ (∃ k e, findByName (ex_name x) final = Some (k, e) ∧ id e = id c)
               ∧ metIn clk chatContext (i + j) (i + length extractions) c).
Proof.
  induction extractions as [|x rest IH]; intros i results svc.
  - exists []. simpl. rewrite app_nil_r. split; [done|]. split; [done|]. split; [done|].
    intros clk'. split; [done|]. split; [done|]. split; [|by intros j r x' [=]].
    intros k c0 Hk. exists c0. split; [done|by left].
  - destruct (addConcept_resolves (clk i) (uuid i) x chatContext svc)
      as (c & s1 & k & e & Hc & Hs1 & Hfind & Hid & _).
    destruct (addConcept_place (clk i) (uuid i) x chatContext svc)
      as (c_ & s1_ & Hc_ & Hs1_ & Hplace & Hothers).
    rewrite Hc in Hc_. injection Hc_ as <-. rewrite Hs1 in Hs1_. injection Hs1_ as <-.
    pose proof (addConcept_snippet _ _ _ _ _ _ Hc) as [old Hold].
    pose proof (addConcept_lastSeen _ _ _ _ _ _ Hc) as Hseen.
    pose proof (addConcept_identities (clk i) (uuid i) x chatContext svc s1 Hs1) as Hpre1.
    pose proof (λ H, addConcept_namesDistinct (clk i) (uuid i) x chatContext svc s1 H Hs1)
      as Hnd1.
    cbn [addEach].
    destruct (addConcept (clk i) (uuid i) x chatContext svc) as [r1 svc1].
    cbn [fst snd] in Hc, Hs1, Hplace, Hothers. subst r1.
    destruct (IH (S i) (results ++ [returnedAt x (concepts (load (clk i) svc).1)]) svc1)
      as (added & Hok & Hlen & Hstore & Hfinal).
    exists (returnedAt x (concepts (load (clk i) svc).1) :: added).
    split; [by rewrite Hok, <- app_assoc|].
    split; [simpl; by rewrite Hlen|]. split.
    { intros _. destruct rest as [|y rest']; [simpl; by rewrite Hs1|]. by apply Hstore. }
    intros clk'. destruct (Hfinal clk') as (Hpre & Hnd & Hslots & Heach).
    assert (concepts (load clk' svc1).1 = concepts s1) as Hs.
    { unfold load. by rewrite Hs1. }
    rewrite Hs in Hpre, Hnd, Hslots.
    rewrite (concepts_load clk' (clk i) svc).
    split; [by etrans|]. split; [by auto|]. split.
    + intros k0 c0 Hk0.
      destruct (decide (k0 = returnedAt x (concepts (load (clk i) svc).1))) as [->|Hne].
      * destruct (Hslots _ _ Hplace) as (c' & Hc' & [->|(old' & j' & Hj' & ? & ?)]).
        -- exists c. split; [done|]. right. exists old, i. split; [simpl; lia|done].
        -- exists c'. split; [done|]. right. exists old', j'. split; [simpl; lia|done].
      * destruct (Hslots _ _ (Hothers _ _ Hk0 Hne)) as (c' & Hc' & [->|(old' & j' & Hj' & ? & ?)]).
        -- exists c0. split; [done|by left].
        -- exists c'. split; [done|]. right. exists old', j'. split; [simpl; lia|done].
    + intros [|j] place x'; simpl.
      * intros [= <-] [= <-].
        destruct (Hslots _ _ Hplace) as (c' & Hc' & Hcase).
        destruct (identities_prefix_lookup _ _ _ _ Hpre Hplace) as (c'' & Hc'' & Hid'' & _).
        rewrite Hc' in Hc''. injection Hc'' as <-.
        exists c'. split; [done|]. split.
        -- destruct (findByName_stable _ _ _ _ _ Hpre Hfind) as (e' & He' & Hid').
           exists k, e'. split; [done|congruence].
        -- destruct Hcase as [->|(old' & j' & Hj' & ? & ?)].
           ++ exists old, i. split; [lia|done].
           ++ exists old', j'. split; [lia|done].
      * intros Hj Hx'. destruct (Heach j place x' Hj Hx') as (c' & Hc' & Hres & old' & j' & Hj' & ? & ?).
        exists c'. split; [done|]. split; [done|]. exists old', j'. split; [lia|done].
Qed.

Lemma omap_lookup_all {A B} (f : A → option B) (l : list A) :
  (∀ x, x ∈ l → is_Some (f x)) →
  length (omap f l) = length l ∧ ∀ j, omap f l !! j = (l !! j) ≫= f.
Proof.
  induction l as [|a l IH]; intros Hall; [done|].
  destruct (Hall a) as [b Hb]; [by left|].
  destruct IH as [Hlen Hlook]; [intros x Hx; apply Hall; by right|].
  simpl. rewrite Hb. simpl. split; [by f_equal|]. intros [|j]; [done|apply Hlook].
Qed.

(** The batch: what it returns, read when it is over, and what it leaves. *)
Lemma addConceptsFromExtraction_spec clk uuid extractions chatContext svc :
  ∃ results,
    (addConceptsFromExtraction clk uuid extractions chatContext svc).1 = Ok results
    ∧ length results = length extractions
    ∧ ∀ clk',
        let final :=
          concepts
            (load clk' (addConceptsFromExtraction clk uuid extractions chatContext svc).2).1 in
        identities (concepts (load clk' svc).1) `prefix_of` identities final
        ∧ (namesDistinct (concepts (load clk' svc).1) → namesDistinct final)
        ∧ (∀ j c x, results !! j = Some c → extractions !! j = Some x →
             c ∈ final
             ∧ (∃ k e, findByName (ex_name x) final = Some (k, e) ∧ id e = id c)
             ∧ metIn clk chatContext j (length extractions) c).
Proof.
  unfold addConceptsFromExtraction.
  destruct (addEach_spec clk uuid chatContext extractions 0 [] svc)
    as (places & Hok & Hlen & Hstore & Hfinal).
  destruct (addEach clk uuid 0 extractions chatContext [] svc) as [r svc'] eqn:Hrun.
  cbn [fst snd] in *. subst r. cbn [fst snd].
  assert (∀ clk', ∀ j place, places !! j = Some place →
            cached svc' !! place = concepts (load clk' svc').1 !! place
            ∧ is_Some (cached svc' !! place)) as Hcached.
  { intros clk' j place Hj.
    destruct extractions as [|x rest]; [by destruct places|].
    destruct Hstore as [s Hs]; [done|]. unfold cached, load. rewrite Hs. simpl.
    split; [done|].
    destruct (lookup_lt_is_Some_2 (x :: rest) j) as [x' Hx'].
    { rewrite <- Hlen. by eapply lookup_lt_Some. }
    destruct (Hfinal clk') as (_ & _ & _ & Heach).
    destruct (Heach j place x' Hj Hx') as (c & Hc & _).
    unfold load in Hc. rewrite Hs in Hc. simpl in Hc. by eexists. }
  destruct (omap_lookup_all (λ place, cached svc' !! place) places) as [Hlen' Hlook].
  { intros place [j Hj]%list_elem_of_lookup_1. by apply (Hcached clock0 j place). }
  eexists. split; [done|]. split; [etrans; [exact Hlen'|exact Hlen]|].
  intros clk'. destruct (Hfinal clk') as (Hpre & Hnd & _ & Heach).
  split; [done|]. split; [done|].
  intros j c x Hc Hx. rewrite Hlook in Hc.
  destruct (places !! j) as [place|] eqn:Hj; [|done]. simpl in Hc.
  rewrite (proj1 (Hcached clk' j place Hj)) in Hc.
  destruct (Heach j place x Hj Hx) as (c' & Hc' & Hres & Hmet).
  rewrite Hc in Hc'. injection Hc' as <-.
  split; [by eapply list_elem_of_lookup_2|]. split; [done|]. done.
Qed.

(** ** Searching *)

Lemma startsWith_spec s pre : startsWith s pre = true ↔ ∃ post, s = pre +:+ post.
Proof.
  revert s. induction pre as [|a pre IH]; intros s; simpl.
  - split; [by exists s|done].
  - destruct s as [|b s]; simpl.
    + split; [done|]. intros [post H]. simpl in H. done.
    + rewrite andb_true_iff, bool_decide_eq_true, IH. split.
      * intros [-> [post ->]]. by exists post.
      * intros [post H]. simpl in H. injection H as -> ->. split; [done|by exists post].
Qed.

Lemma includes_spec s sub :
  includes s sub = true ↔ ∃ pre post, s = pre +:+ sub +:+ post.
Proof.
  induction s as [|b s IH]; simpl.
  - rewrite orb_false_r, startsWith_spec. split.
    + intros [post ->]. by exists "", post.
    + intros (pre & post & H). destruct pre as [|a pre]; [by exists post|done].
  - rewrite orb_true_iff, startsWith_spec, IH. split.
    + intros [[post ->]|(pre & post & ->)]; [by exists "", post|].
      by exists (String b pre), post.
    + intros (pre & post & H). destruct pre as [|a pre]; simpl in H.
      * left. by exists post.
      * injection H as -> ->. right. by exists pre, post.
Qed.

Lemma includes_self s : includes s s = true.
Proof.
  apply includes_spec. exists "", "". simpl.
  induction s as [|a s IH]; simpl; [done|]. by rewrite <- IH.
Qed.

Lemma includes_empty s : includes s "" = true.
Proof. by destruct s. Qed.

Lemma searchConcepts_load clk query wanted svc :
  searchConcepts clk query wanted svc
  = (filter (λ c, Is_true (matchesQuery query c && matchesCategory wanted c))
       (concepts (load clk svc).1), (load clk svc).2).
Proof. unfold searchConcepts. by destruct (load clk svc). Qed.

Lemma filter_all {A} (P : A → Prop) `{∀ x, Decision (P x)} (l : list A) :
  (∀ x, x ∈ l → P x) → filter P l = l.
Proof.
  induction l as [|x l IH]; intros Hall; [done|].
  rewrite filter_cons_True by (apply Hall; left).
  rewrite IH; [done|]. intros y Hy. apply Hall. by right.
Qed.

(** ** Choosing what to export *)

Lemma selectConcepts_filter ids cs :
  ids ≠ [] → selectConcepts (Some ids) cs = filter (λ c, id c ∈ ids) cs.
Proof. by destruct ids. Qed.

Lemma exportEnvelope_read now cs options :
  ∃ doc, JSON_parse (exportAsJson string JSON_stringify now cs options) = Some doc
    ∧ prop "count" doc = JSNumber (length cs)
    ∧ mapM readConcept (readItems (prop "concepts" doc)) = Some (included options <$> cs).
Proof.
  exists (serializable (exportEnvelope now cs options)).
  split; [by apply JSON_parse_stringify|]. split; [done|].
  rewrite readItems_concepts. apply mapM_readConcept.
Qed.

Lemma conceptData_withoutSnippets options c :
  includeSnippets options = Some false →
  conceptData options (withoutSnippets c) = conceptData options c.
Proof. unfold conceptData. by intros ->. Qed.

Lemma conceptData_withoutLocations options c :
  includeCodeLocations options = Some false →
  conceptData options (withoutLocations c) = conceptData options c.
Proof. unfold conceptData. by intros ->. Qed.

(** ** Listing the files *)

Lemma skipped_spec exclude n :
  skipped exclude n = true ↔ exclude ≠ [] ∧ (n ∈ exclude ∨ startsWith n "." = true).
Proof.
  unfold skipped. induction exclude as [|p exclude IH]; simpl.
  - split; [done|]. by intros [? _].
  - rewrite !orb_true_iff, bool_decide_eq_true, IH, elem_of_cons. split.
    + intros [[->|?]|[_ [?|?]]]; split; auto.
    + intros [_ [[->|?]|?]]; auto.
      destruct exclude as [|q exclude]; [by apply elem_of_nil in H|]. right. auto.
Qed.

Lemma DirEntry_nested_ind (P : DirEntry → Prop) :
  (∀ n text, P (fileEntry n text)) →
  (∀ n, P (directoryEntry n None)) →
  (∀ n entries, Forall P entries → P (directoryEntry n (Some entries))) →
  (∀ n, P (otherEntry n)) →
  ∀ entry, P entry.
Proof.
  intros Hfile Hnone Hdir Hother. fix IH 1.
  intros [n text|n [entries|]|n]; [apply Hfile| |apply Hnone|apply Hother].
  apply Hdir. induction entries as [|x l IHl]; constructor; [apply IH|apply IHl].
Qed.

Section WalkFacts.
Variable join : string → string → string.
Variable extname : string → string.
Variables include exclude : list string.

Lemma elem_of_flat_map {A B} (f : A → list B) (l : list A) y :
  y ∈ flat_map f l ↔ ∃ x, x ∈ l ∧ y ∈ f x.
Proof.
  rewrite list_elem_of_In, in_flat_map. split.
  - intros (x & Hx & Hy). exists x. by rewrite !list_elem_of_In.
  - intros (x & Hx & Hy). exists x. by rewrite <- !list_elem_of_In.
Qed.

Lemma elem_of_walkEntry entry : ∀ dir f,
  f ∈ walkEntry join extname include exclude dir entry
  ↔ skipped exclude (entryName entry) = false
    ∧ ((∃ n text, entry = fileEntry n text
                  ∧ dropChars 1 (extname n) ∈ include
                  ∧ f = {| path := join dir n; readAs := text |})
       ∨ (∃ n sub, entry = directoryEntry n (Some sub)
                   ∧ listedIn join extname include exclude (join dir n) sub f)).
Proof.
  induction entry as [n text|n|n entries IH|n] using DirEntry_nested_ind; intros dir f; simpl.
  - destruct (skipped exclude n); [rewrite elem_of_nil; naive_solver|].
    case_bool_decide as Hext.
    + rewrite list_elem_of_singleton. split.
      * intros ->. split; [done|]. left. by exists n, text.
      * intros [_ [(n' & text' & [= <- <-] & _ & ->)|(n' & sub & [=] & _)]]. done.
    + rewrite elem_of_nil. split; [done|].
      intros [_ [(n' & text' & [= <- <-] & ? & _)|(n' & sub & [=] & _)]]. done.
  - destruct (skipped exclude n); rewrite elem_of_nil; naive_solver.
  - destruct (skipped exclude n); [rewrite elem_of_nil; naive_solver|].
    rewrite elem_of_flat_map. rewrite Forall_forall in IH. split.
    + intros (x & Hx & Hf). split; [done|]. right. exists n, entries. split; [done|].
      apply (IH x Hx) in Hf as [Hskip [(m & text & -> & Hext & ->)|(m & sub & -> & Hsub)]].
      * by apply listed_here.
      * by eapply listed_below.
    + intros [_ [(n' & text' & [=] & _)|(n' & sub & [= <- <-] & Hsub)]].
      destruct Hsub as [dir' entries' m text Hin Hskip Hext|dir' entries' m sub f' Hin Hskip Hsub].
      * exists (fileEntry m text). split; [done|]. apply (IH _ Hin).
        split; [done|]. left. by exists m, text.
      * exists (directoryEntry m (Some sub)). split; [done|]. apply (IH _ Hin).
        split; [done|]. right. by exists m, sub.
  - destruct (skipped exclude n); rewrite elem_of_nil; naive_solver.
Qed.

Lemma elem_of_walkDirectory dir entries f :
  f ∈ walkDirectory join extname include exclude dir (Some entries)
  ↔ listedIn join extname include exclude dir entries f.
Proof.
  simpl. rewrite elem_of_flat_map. split.
  - intros (x & Hx & Hf).
    apply elem_of_walkEntry in Hf as [Hskip [(m & text & -> & Hext & ->)|(m & sub & -> & Hsub)]].
    + by apply listed_here.
    + by eapply listed_below.
  - intros [dir' entries' m text Hin Hskip Hext|dir' entries' m sub f' Hin Hskip Hsub].
    + exists (fileEntry m text). split; [done|]. apply elem_of_walkEntry.
      split; [done|]. left. by exists m, text.
    + exists (directoryEntry m (Some sub)). split; [done|]. apply elem_of_walkEntry.
      split; [done|]. right. by exists m, sub.
Qed.

(** What is listed has an included extension and a name that is not
    skipped. *)
Lemma listedIn_file dir entries f :
  listedIn join extname include exclude dir entries f →
  ∃ dir' n, path f = join dir' n ∧ skipped exclude n = false
            ∧ dropChars 1 (extname n) ∈ include.
Proof.
  induction 1 as [dir entries n text Hin Hskip Hext|dir entries n sub f Hin Hskip Hsub IH].
  - by exists dir, n.
  - exact IH.
Qed.
End WalkFacts.

(** ** The entries of a [Map] *)

Lemma mapSet_keys {V} key (value : V) entries :
  (mapSet key value entries).*1
  = if decide (key ∈ entries.*1) then entries.*1 else entries.*1 ++ [key].
Proof.
  induction entries as [|[k v] rest IH]; [done|]. cbn [mapSet].
  destruct (decide (k = key)) as [->|Hne]; rewrite !fmap_cons; cbn [fst].
  - by rewrite decide_True by left.
  - rewrite IH. destruct (decide (key ∈ rest.*1)) as [Hin|Hnin].
    + by rewrite decide_True by (by right).
    + rewrite decide_False; [done|]. intros [?|?]%elem_of_cons; congruence.
Qed.

Lemma mapSet_NoDup {V} key (value : V) entries :
  NoDup entries.*1 → NoDup (mapSet key value entries).*1.
Proof.
  intros Hnd. rewrite mapSet_keys. destruct (decide (key ∈ entries.*1)); [done|].
  apply NoDup_app. split; [done|]. split; [|apply NoDup_singleton].
  by intros x Hx ->%list_elem_of_singleton.
Qed.

Lemma list_to_map_mapSet {V} key (value : V) entries :
  (list_to_map (mapSet key value entries) : gmap string V)
  = <[key := value]> (list_to_map entries).
Proof.
  induction entries as [|[k v] rest IH]; simpl; [done|].
  destruct (decide (k = key)) as [->|Hne]; simpl.
  - by rewrite insert_insert_eq.
  - by rewrite IH, insert_insert_ne.
Qed.

Lemma mapGet_cons {V} key k (v : V) entries :
  mapGet key ((k, v) :: entries) = if decide (k = key) then Some v else mapGet key entries.
Proof.
  unfold mapGet. simpl. destruct (decide (k = key)); [done|].
  by destruct (list_find _ entries) as [[j [k' v']]|].
Qed.

Lemma mapGet_None {V} key (entries : list (string * V)) :
  key ∉ entries.*1 → mapGet key entries = None.
Proof.
  intros Hnin. unfold mapGet.
  destruct (list_find _ entries) as [[j [k v]]|] eqn:E; [|done].
  apply list_find_Some in E as (Hj & Hk & _). destruct Hnin.
  apply list_elem_of_fmap. exists (k, v). split; [done|]. by eapply list_elem_of_lookup_2.
Qed.

Lemma mapGet_list_to_map {V} key (entries : list (string * V)) :
  mapGet key entries = (list_to_map entries : gmap string V) !! key.
Proof.
  induction entries as [|[k v] rest IH]; [done|]. rewrite mapGet_cons. simpl.
  destruct (decide (k = key)) as [->|Hne].
  - by rewrite lookup_insert_eq.
  - by rewrite lookup_insert_ne.
Qed.

(** ** The scan tool *)

Section ScanToolFacts.
Variable relative : string → string → string.

Lemma scanAllEntries_fold root files cs : ∀ entries,
  let step := λ (results : list (string * list CodeLocation)) c,
    let locations := scanForConcept relative root c files in
    if bool_decide (0 < length locations)
    then mapSet (id c) locations results else results in
  NoDup entries.*1 →
  NoDup (foldl step entries cs).*1
  ∧ (∀ i, i ∈ (foldl step entries cs).*1 → i ∈ entries.*1 ∨ i ∈ id <$> cs)
  ∧ (list_to_map (foldl step entries cs) : gmap string (list CodeLocation))
    = foldl (λ results concept,
               let locations := scanForConcept relative root concept files in
               if bool_decide (0 < length locations)
               then <[id concept := locations]> results
               else results) (list_to_map entries) cs.
Proof.
  induction cs as [|c cs IH]; intros entries step Hnd; simpl.
  - split; [done|]. split; [by left|done].
  - subst step. simpl in *. case_bool_decide as Hlen.
    + destruct (IH (mapSet (id c) (scanForConcept relative root c files) entries))
        as (Hnd' & Hkeys & Hmap); [by apply mapSet_NoDup|].
      split; [done|]. split.
      * intros i Hi. destruct (Hkeys i Hi) as [Hin|Hin]; [|right; by right].
        rewrite mapSet_keys in Hin. destruct (decide (id c ∈ entries.*1)); [by left|].
        apply elem_of_app in Hin as [?| ->%list_elem_of_singleton]; [by left|right; by left].
      * by rewrite Hmap, list_to_map_mapSet.
    + destruct (IH entries Hnd) as (Hnd' & Hkeys & Hmap).
      split; [done|]. split; [|done].
      intros i Hi. destruct (Hkeys i Hi); [by left|right; by right].
Qed.

(** The entries are those of the map of the scan, each key once, each the
    id of a scanned concept. *)
Lemma scanAllEntries_spec root cs files :
  NoDup (scanAllEntries relative root cs files).*1
  ∧ (∀ i, i ∈ (scanAllEntries relative root cs files).*1 → i ∈ id <$> cs)
  ∧ (list_to_map (scanAllEntries relative root cs files) : gmap string (list CodeLocation))
    = scanAllConcepts relative root cs files.
Proof.
  destruct (scanAllEntries_fold root files cs [] (NoDup_nil_2)) as (Hnd & Hkeys & Hmap).
  split; [done|]. split; [|done].
  intros i Hi. destruct (Hkeys i Hi) as [Hin|Hin]; [by apply elem_of_nil in Hin|done].
Qed.

(** The scan reads ids and names only. *)
Lemma scanAllEntries_identities root cs cs' files :
  identities cs = identities cs' →
  scanAllEntries relative root cs files = scanAllEntries relative root cs' files.
Proof.
  unfold scanAllEntries. generalize (@nil (string * list CodeLocation)).
  revert cs'. induction cs as [|c cs IH]; intros [|c' cs'] entries Hid; try done.
  simpl in *. injection Hid as Hi Hn Hrest.
  assert (scanForConcept relative root c files = scanForConcept relative root c' files) as ->.
  { unfold scanForConcept, scanFile. by rewrite Hn. }
  rewrite Hi. by apply IH.
Qed.
End ScanToolFacts.

Lemma findById_in_ids i cs : i ∈ id <$> cs → is_Some (findById i cs).
Proof.
  intros (c & -> & Hc)%list_elem_of_fmap. by apply findById_is_Some.
Qed.

Lemma updateConcept_concepts clk clk' i updates svc k c :
  findById i (concepts (load clk svc).1) = Some (k, c) →
  concepts (load clk' (updateConcept clk i updates svc).2).1
  = <[k := applyUpdates (t_now clk) updates c]> (concepts (load clk svc).1).
Proof. intros Hi. by rewrite (updateConcept_found _ _ _ _ _ _ Hi), save_withConcepts. Qed.

Lemma updateConcept_missing_concepts clk clk' i updates svc :
  findById i (concepts (load clk svc).1) = None →
  concepts (load clk' (updateConcept clk i updates svc).2).1 = concepts (load clk svc).1.
Proof.
  intros Hi. rewrite (updateConcept_missing _ _ _ _ Hi). cbn [snd]. by rewrite load_load.
Qed.

Lemma updateLocations_found clk j i locs rest n svc k c :
  findById i (concepts (load (clk j) svc).1) = Some (k, c) →
  updateLocations clk j ((i, locs) :: rest) n svc
  = updateLocations clk (S j) rest (S n)
      (save (clk j)
         (withConcepts
            (<[k := applyUpdates (t_now (clk j))
                      (locationsOnly (locationString <$> locs)) c]>
               (concepts (load (clk j) svc).1))
            (load (clk j) svc).1 (load (clk j) svc).2)).
Proof. intros Hi. simpl. by rewrite (updateConcept_found _ _ _ _ _ _ Hi). Qed.

Lemma updateLocations_missing clk j i locs rest n svc :
  findById i (concepts (load (clk j) svc).1) = None →
  updateLocations clk j ((i, locs) :: rest) n svc
  = updateLocations clk (S j) rest n (load (clk j) svc).2.
Proof. intros Hi. simpl. by rewrite (updateConcept_missing _ _ _ _ Hi). Qed.

Lemma concepts_saved clk clk' cs s svc :
  concepts (load clk' (save clk (withConcepts cs s svc))).1 = cs.
Proof. done. Qed.

(** Every update of the loop finds its concept when the keys are ids of the
    store. *)
Lemma updateLocations_count clk : ∀ entries j n svc,
  (∀ i, i ∈ entries.*1 → i ∈ id <$> concepts (load (clk j) svc).1) →
  (updateLocations clk j entries n svc).1 = n + length entries.
Proof.
  induction entries as [|[i locs] rest IH]; intros j n svc Hkeys; [simpl; lia|].
  destruct (findById_in_ids i (concepts (load (clk j) svc).1)) as [[k c] Hi].
  { apply Hkeys. rewrite fmap_cons. by left. }
  rewrite (updateLocations_found _ _ _ _ _ _ _ _ _ Hi).
  rewrite IH; [simpl; lia|]. intros i' Hi'.
  rewrite concepts_saved, list_fmap_insert. simpl.
  rewrite list_insert_id.
  - apply Hkeys. rewrite fmap_cons. by right.
  - rewrite list_lookup_fmap, (findById_lookup _ _ _ _ Hi). simpl.
    by apply findById_elem_of in Hi as [_ ->].
Qed.

(** What the loop leaves in the store, ids being unique and each key
    occurring once. *)
Lemma updateLocations_store clk clk' : ∀ entries j n svc,
  NoDup (id <$> concepts (load (clk j) svc).1) → NoDup entries.*1 →
  let cs := concepts (load (clk j) svc).1 in
  let final := concepts (load clk' (updateLocations clk j entries n svc).2).1 in
  length final = length cs
  ∧ ∀ k c, cs !! k = Some c →
      ∃ c', final !! k = Some c' ∧ id c' = id c ∧ name c' = name c
            ∧ category c' = category c ∧ parent c' = parent c
            ∧ explanation c' = explanation c ∧ chatSnippets c' = chatSnippets c
            ∧ firstSeen c' = firstSeen c
            ∧ codeLocations c' = mergedLocations entries c.
Proof.
  induction entries as [|[i locs] rest IH]; intros j n svc Hids Hkeys cs final.
  - subst cs final. simpl. rewrite (concepts_load clk' (clk j)). split; [done|].
    intros k c Hk. exists c. by repeat split.
  - apply NoDup_cons in Hkeys as [Hi_rest Hkeys]. subst cs final.
    destruct (findById i (concepts (load (clk j) svc).1)) as [[k0 c0]|] eqn:Hi.
    + pose proof (findById_lookup _ _ _ _ Hi) as Hk0.
      pose proof (findById_elem_of _ _ _ _ Hi) as [_ Hid0].
      rewrite (updateLocations_found _ _ _ _ _ _ _ _ _ Hi).
      match goal with |- context [updateLocations clk (S j) rest (S n) ?s] =>
        destruct (IH (S j) (S n) s) as [Hlen Heach] end.
      { rewrite concepts_saved, list_fmap_insert. simpl. rewrite list_insert_id; [done|].
        by rewrite list_lookup_fmap, Hk0. }
      { done. }
      rewrite concepts_saved in Hlen, Heach. rewrite length_insert in Hlen. split; [done|].
      intros k c Hk. destruct (decide (k = k0)) as [->|Hne].
      * assert (c = c0) as -> by congruence.
        destruct (Heach k0 _ (list_lookup_insert_eq _ _ _ (lookup_lt_Some _ _ _ Hk0)))
          as (c' & Hc' & ? & ? & ? & ? & ? & ? & ? & Hlocs).
        exists c'. do 8 (split; [done|]). rewrite Hlocs.
        unfold mergedLocations. simpl. rewrite mapGet_cons, Hid0, decide_True by done.
        by rewrite mapGet_None.
      * destruct (Heach k c) as (c' & Hc' & ? & ? & ? & ? & ? & ? & ? & Hlocs).
        { by rewrite list_lookup_insert_ne. }
        exists c'. do 8 (split; [done|]). rewrite Hlocs.
        unfold mergedLocations. rewrite mapGet_cons, decide_False; [done|].
        intros Heq. apply Hne. eapply NoDup_lookup; [exact Hids| |];
          rewrite list_lookup_fmap; [by rewrite Hk|]. rewrite Hk0. simpl. congruence.
    + rewrite (updateLocations_missing _ _ _ _ _ _ _ Hi).
      match goal with |- context [updateLocations clk (S j) rest n ?s] =>
        destruct (IH (S j) n s) as [Hlen Heach] end.
      { by rewrite load_load. }
      { done. }
      rewrite load_load in Hlen, Heach. cbn [fst] in Hlen, Heach. split; [done|].
      intros k c Hk. destruct (Heach k c Hk) as (c' & Hc' & ? & ? & ? & ? & ? & ? & ? & Hlocs).
      exists c'. do 8 (split; [done|]). rewrite Hlocs.
      unfold mergedLocations. rewrite mapGet_cons, decide_False; [done|].
      intros Heq. apply list_find_None in Hi. rewrite Forall_forall in Hi.
      apply (Hi c); [by eapply list_elem_of_lookup_2|done].
Qed.

Lemma summarize_fold cs entries : ∀ init n cnt ls,
  foldl (λ (summary : gmap string (nat * list string))
           (e : string * list CodeLocation),
           match findById e.1 cs with
           | Some (_, c) =>
               if decide (name c = "__proto__") then summary
               else <[name c := (length e.2, locationString <$> take 5 e.2)]> summary
           | None => summary
           end) init entries !! n = Some (cnt, ls) →
  init !! n = Some (cnt, ls)
  ∨ n ≠ "__proto__"
    ∧ ∃ i locs k c, (i, locs) ∈ entries ∧ findById i cs = Some (k, c) ∧ name c = n
                    ∧ cnt = length locs ∧ ls = locationString <$> take 5 locs.
Proof.
  induction entries as [|[i locs] rest IH]; intros init n cnt ls; simpl; [by left|].
  intros Hn. apply IH in Hn as [Hn|(Hproto & i' & locs' & k & c & Hin & ?)].
  - destruct (findById i cs) as [[k c]|] eqn:Hi; [|by left].
    destruct (decide (name c = "__proto__")) as [Hp|Hp]; [by left|].
    destruct (decide (name c = n)) as [<-|Hne].
    + rewrite lookup_insert_eq in Hn. injection Hn as <- <-.
      right. split; [done|]. exists i, locs, k, c. split; [by left|done].
    + rewrite lookup_insert_ne in Hn by done. by left.
  - right. split; [done|]. exists i', locs', k, c. split; [by right|done].
Qed.

Lemma identities_lookup cs cs' :
  length cs' = length cs →
  (∀ k c, cs !! k = Some c → ∃ c', cs' !! k = Some c' ∧ id c' = id c ∧ name c' = name c) →
  identities cs' = identities cs.
Proof.
  intros Hlen Heach. apply list_eq. intros k. unfold identities.
  rewrite !list_lookup_fmap. destruct (cs !! k) as [c|] eqn:Hk.
  - destruct (Heach k c Hk) as (c' & -> & Hi & Hn). simpl. by rewrite Hi, Hn.
  - apply lookup_ge_None in Hk. rewrite (proj2 (lookup_ge_None cs' k)); [done|lia].
Qed.

Lemma findById_identities i cs cs' k c :
  identities cs' = identities cs → findById i cs = Some (k, c) →
  ∃ c', findById i cs' = Some (k, c') ∧ id c' = id c ∧ name c' = name c.
Proof.
  intros Hid (Hk & Hi & Hleast)%list_find_Some.
  assert (∀ j y, cs !! j = Some y → ∃ y', cs' !! j = Some y' ∧ id y' = id y ∧ name y' = name y)
    as Hsame.
  { intros j y Hj.
    assert (identities cs' !! j = Some (id y, name y)) as Hj'.
    { rewrite Hid. unfold identities. by rewrite list_lookup_fmap, Hj. }
    unfold identities in Hj'. rewrite list_lookup_fmap in Hj'.
    destruct (cs' !! j) as [y'|]; [|done]. injection Hj' as ? ?. by exists y'. }
  destruct (Hsame k c Hk) as (c' & Hk' & Hid' & Hname').
  exists c'. split; [|done]. apply list_find_Some. split; [done|]. split; [congruence|].
  intros j y Hj Hlt.
  destruct (lookup_lt_is_Some_2 cs j) as [z Hz].
  { apply lookup_lt_Some in Hk. lia. }
  destruct (Hsame j z Hz) as (y' & Hj' & Hy' & _). rewrite Hj in Hj'.
  injection Hj' as <-. rewrite Hy'. by eapply Hleast.
Qed.

Lemma findById_identities_None i cs cs' :
  identities cs' = identities cs → findById i cs = None → findById i cs' = None.
Proof.
  intros Hid Hnone. apply list_find_None, Forall_forall. intros y' Hy' Hi.
  apply list_find_None in Hnone. rewrite Forall_forall in Hnone.
  apply list_elem_of_lookup in Hy' as [j Hj].
  assert (identities cs !! j = Some (id y', name y')) as Hj'.
  { rewrite <- Hid. unfold identities. by rewrite list_lookup_fmap, Hj. }
  unfold identities in Hj'. rewrite list_lookup_fmap in Hj'.
  destruct (cs !! j) as [y|] eqn:Hy; [|done]. injection Hj' as Hyi _.
  apply (Hnone y); [by eapply list_elem_of_lookup_2|congruence].
Qed.

Section ScanToolRuns.
Variable join : string → string → string.
Variable extname : string → string.
Variable relative : string → string → string.

Lemma handleScanCodebase_unfold clk input root svc :
  handleScanCodebase join extname relative clk input root svc
  = match scanTargets (in_conceptId input) (concepts (load (clk 0) svc).1) with
    | None =>
        (scanFailed ("Concept not found: " +:+ default "" (in_conceptId input)),
         (load (clk 0) svc).2)
    | Some targets =>
        let entries :=
          scanAllEntries relative (in_rootPath input) targets (getFiles join extname (scanOptions input) root) in
        (scanDone (scanMessage (length targets) (length entries))
           (updateLocations clk 1 entries 0 (load (clk 0) svc).2).1
           (summarize targets entries),
         (updateLocations clk 1 entries 0 (load (clk 0) svc).2).2)
    end.
Proof.
  unfold handleScanCodebase, scanTargets, getConceptById, getAllConcepts.
  destruct (load (clk 0) svc) as [s svc'] eqn:El. cbn [fst snd].
  destruct (in_conceptId input) as [[|a i]|]; simpl.
  - by destruct (updateLocations _ _ _ _ _).
  - destruct (findById (String a i) (concepts s)) as [[k c]|]; simpl; [|done].
    by destruct (updateLocations _ _ _ _ _).
  - by destruct (updateLocations _ _ _ _ _).
Qed.

Lemma scanTargets_ids conceptId cs targets :
  scanTargets conceptId cs = Some targets → ∀ i, i ∈ id <$> targets → i ∈ id <$> cs.
Proof.
  unfold scanTargets. destruct conceptId as [[|a i]|]; try (by intros [= <-]).
  destruct (findById (String a i) cs) as [[k c]|] eqn:Hi; [|done].
  intros [= <-] i' ->%list_elem_of_singleton.
  apply findById_elem_of in Hi as [Hc _]. apply list_elem_of_fmap. eauto.
Qed.

Lemma scanTargets_identities conceptId cs cs' targets :
  identities cs' = identities cs → scanTargets conceptId cs = Some targets →
  ∃ targets', scanTargets conceptId cs' = Some targets'
              ∧ identities targets' = identities targets.
Proof.
  intros Hid. unfold scanTargets. destruct conceptId as [[|a i]|];
    try (intros [= <-]; by exists cs').
  destruct (findById (String a i) cs) as [[k c]|] eqn:Hi; [|done]. intros [= <-].
  destruct (findById_identities _ _ _ _ _ Hid Hi) as (c' & -> & Hi' & Hn').
  eexists. split; [done|]. unfold identities. simpl. by rewrite Hi', Hn'.
Qed.

Lemma scanTargets_identities_None conceptId cs cs' :
  identities cs' = identities cs → scanTargets conceptId cs = None →
  scanTargets conceptId cs' = None.
Proof.
  intros Hid. unfold scanTargets. destruct conceptId as [[|a i]|]; try done.
  destruct (findById (String a i) cs) as [[k c]|] eqn:Hi; [done|]. intros _.
  by rewrite (findById_identities_None _ _ _ Hid Hi).
Qed.

(** The store after a run of the tool that found its targets. *)
Lemma handleScanCodebase_store clk clk' input root svc targets :
  let cs := concepts (load (clk 0) svc).1 in
  let entries :=
    scanAllEntries relative (in_rootPath input) targets (getFiles join extname (scanOptions input) root) in
  let final :=
    concepts (load clk' (handleScanCodebase join extname relative clk input root svc).2).1 in
  NoDup (id <$> cs) → scanTargets (in_conceptId input) cs = Some targets →
  length final = length cs
  ∧ ∀ k c, cs !! k = Some c →
      ∃ c', final !! k = Some c' ∧ id c' = id c ∧ name c' = name c
            ∧ category c' = category c ∧ parent c' = parent c
            ∧ explanation c' = explanation c ∧ chatSnippets c' = chatSnippets c
            ∧ firstSeen c' = firstSeen c
            ∧ codeLocations c' = mergedLocations entries c.
Proof.
  intros cs entries final Hnd Htargets. subst cs entries final.
  rewrite handleScanCodebase_unfold, Htargets. cbn [fst snd].
  pose proof (updateLocations_store clk clk'
                (scanAllEntries relative (in_rootPath input) targets (getFiles join extname (scanOptions input) root))
                1 0 (load (clk 0) svc).2) as Hstore.
  rewrite load_load in Hstore. cbn [fst] in Hstore. apply Hstore; [done|].
  apply scanAllEntries_spec.
Qed.
End ScanToolRuns.

(** ** The tools *)

Lemma length_sliceTo n s : String.length (sliceTo n s) = n `min` String.length s.
Proof.
  revert s. induction n as [|n IH]; intros [|a s]; simpl; [done..|]. by rewrite IH.
Qed.

Lemma length_append s t : String.length (s +:+ t) = String.length s + String.length t.
Proof. induction s as [|a s IH]; simpl; [done|]. by rewrite IH. Qed.

Lemma sliceTo_all n s : String.length s ≤ n → sliceTo n s = s.
Proof.
  revert s. induction n as [|n IH]; intros [|a s] Hlen; simpl in *; [done|lia|done|].
  rewrite IH; [done|lia].
Qed.

Lemma append_empty_r s : s +:+ "" = s.
Proof. induction s as [|a s IH]; simpl; [done|]. by rewrite IH. Qed.

(** The errors tell themselves apart by the words "not found". *)
Lemma includes_not_found e :
  includes (errorMessage e) "not found" = true ↔ e ≠ CircularReference.
Proof. destruct e as [i|p|]; simpl; [done..|]. split; [done|]. by intros []. Qed.

(** Each concept the batch returns carries the context, when there is one,
    as its last chat snippet. *)
Lemma sliceTo_append n s t : n ≤ String.length s → sliceTo n (s +:+ t) = sliceTo n s.
Proof.
  revert s. induction n as [|n IH]; intros [|a s] Hlen; simpl in *; [by destruct t|done|lia|].
  rewrite IH; [done|lia].
Qed.

Lemma sliceTo_sliceTo n s : sliceTo n (sliceTo n s) = sliceTo n s.
Proof. revert s. induction n as [|n IH]; intros [|a s]; simpl; [done..|]. by rewrite IH. Qed.

(** The first [n] characters, with three dots when something was cut. *)
Lemma cut_with_dots n text ctx :
  ctx = sliceTo n text +:+ (if bool_decide (n < String.length text) then "..." else "") →
  String.length ctx ≤ n + 3
  ∧ sliceTo n ctx = sliceTo n text
  ∧ (String.length text ≤ n → ctx = text)
  ∧ (n < String.length text → ctx = sliceTo n text +:+ "...").
Proof.
  intros ->. pose proof (length_sliceTo n text) as Hlen. case_bool_decide as Hlong.
  - rewrite length_append, Hlen. simpl String.length.
    split; [lia|]. split; [|split; [lia|done]].
    rewrite sliceTo_append by lia. apply sliceTo_sliceTo.
  - rewrite append_empty_r, Hlen. split; [lia|].
    split; [apply sliceTo_sliceTo|]. split; [|lia]. intros _. apply sliceTo_all. lia.
Qed.

(** ** The tree, whatever the names *)

Lemma createNodes_cell cs n cell :
  createNodes cs !! n = Some cell →
  children cell = [] ∧ concept cell ∈ cs ∧ name (concept cell) = n.
Proof.
  revert cell. induction cs as [|c l IH] using rev_ind; intros cell; [done|].
  rewrite createNodes_snoc. destruct (decide (name c = n)) as [<-|Hne].
  - rewrite lookup_insert_eq. intros [= <-]. simpl.
    split; [done|]. split; [|done]. apply elem_of_app. right. by left.
  - rewrite lookup_insert_ne by done. intros Hcell.
    destruct (IH cell Hcell) as (? & ? & ?). split; [done|]. split; [|done].
    apply elem_of_app. by left.
Qed.

(** The node of a name holds the last concept of that name. *)
Lemma createNodes_last l1 c l3 :
  name c ∉ name <$> l3 →
  createNodes (l1 ++ c :: l3) !! name c = Some {| concept := c; children := [] |}.
Proof.
  induction l3 as [|x l3 IH] using rev_ind; intros Hlast.
  - by rewrite createNodes_snoc, lookup_insert_eq.
  - rewrite fmap_app, not_elem_of_app in Hlast. destruct Hlast as [Hl3 Hx].
    replace (l1 ++ c :: l3 ++ [x]) with ((l1 ++ c :: l3) ++ [x])
      by (by rewrite <- app_assoc).
    rewrite createNodes_snoc, lookup_insert_ne; [by apply IH|].
    intros Heq. apply Hx. rewrite <- Heq. simpl. by left.
Qed.

Lemma buildTree_cell cs n :
  (buildTree cs).1 !! n
  = (λ cell, {| concept := concept cell; children := childrenOf cs n |})
      <$> createNodes cs !! n.
Proof.
  unfold buildTree, childrenOf. rewrite (proj2 (foldl_attach cs _ _)).
  destruct (createNodes cs !! n) as [cell|] eqn:Hcell; [|done]. simpl.
  destruct (createNodes_cell _ _ _ Hcell) as (Hch & _ & _).
  unfold withChildren. rewrite Hch. simpl. do 3 f_equal.
  apply list_filter_iff. intros c'. by rewrite target_createNodes.
Qed.

(** A concept no node holds occurs in no tree. *)
Lemma occurrences_absent (nodes : gmap string NodeCell) c :
  (∀ n cell, nodes !! n = Some cell → concept cell ≠ c) →
  ∀ depth ref t, treeView depth nodes ref = Some t → occurrences c t = 0.
Proof.
  intros Habsent. induction depth as [|depth IH]; intros ref t; [done|]. simpl.
  destruct (nodes !! ref) as [cell|] eqn:Hcell; [|done]. simpl. intros [= <-]. simpl.
  rewrite decide_False by (by eapply Habsent). simpl.
  apply sum_list_zero. intros t Ht. apply list_elem_of_omap in Ht as (r & _ & Ht).
  by eapply IH.
Qed.

(** ** The documentation format *)

Lemma mapM_ext_in {A B} (f g : A → option B) l :
  (∀ x, x ∈ l → f x = g x) → mapM f l = mapM g l.
Proof.
  induction l as [|x l IH]; intros Hfg; [done|].
  change (mapM f (x :: l)) with (y ← f x; k ← mapM f l; Some (y :: k)).
  change (mapM g (x :: l)) with (y ← g x; k ← mapM g l; Some (y :: k)).
  rewrite (Hfg x) by left. rewrite IH; [done|]. intros y Hy. apply Hfg. by right.
Qed.

Section MarkdownFacts.
Variable exportDate : string.
Variable localeDate : string → string.
Variable options : ExportOptions.

(** With unique names, a node that has a root [d] levels above it is
    rendered with the fuel that is left [d] levels down. *)
Lemma renderNode_returns cs :
  NoDup (name <$> cs) →
  ∀ fuel x d top level,
    x ∈ cs → nodeAbove cs d (name x) = Some top → parentNode cs top = None →
    length cs ≤ fuel + d →
    is_Some (renderNode localeDate fuel (buildTree cs).1 options level (name x)).
Proof.
  intros Hnd. induction fuel as [|fuel IH]; intros x d top level Hx Hd Htop Hfuel.
  - pose proof (ending_chain_short cs x d top Hnd Hx Hd Htop). simpl in Hfuel. lia.
  - simpl. rewrite buildTree_node by done. simpl.
    assert (is_Some (mapM (renderNode localeDate fuel (buildTree cs).1 options (S level))
                       (childrenOf cs (name x)))) as [below ->].
    { apply mapM_is_Some, Forall_forall. intros y Hy.
      apply elem_of_childrenOf in Hy as (y' & Hy' & <- & Hatt).
      apply (IH y' (S d) top); [done| |done|lia].
      simpl. rewrite parentNode_concept by done. by rewrite Hatt. }
    by eexists.
Qed.

Lemma renderCategory_returns cs k :
  NoDup (name <$> cs) →
  is_Some (renderCategory localeDate (S (length cs)) (buildTree cs).1 (buildTree cs).2
             options k).
Proof.
  intros Hnd. unfold renderCategory.
  destruct (filter _ (buildTree cs).2) as [|r rest] eqn:Hroots; [by eexists|].
  assert (is_Some (mapM (renderNode localeDate (S (length cs)) (buildTree cs).1 options 3)
                     (r :: rest))) as [rendered ->]; [|by eexists].
  apply mapM_is_Some, Forall_forall. intros y Hy. rewrite <- Hroots in Hy.
  apply list_elem_of_filter in Hy as [_ Hy]. rewrite buildTree_roots in Hy.
  apply elem_of_rootsOf in Hy as (x & Hx & <- & Hroot).
  apply (renderNode_returns cs Hnd _ x 0 (name x)); [done|done| |lia].
  by rewrite parentNode_concept.
Qed.

Lemma exportAsMarkdown_returns cs :
  NoDup (name <$> cs) → is_Some (exportAsMarkdown exportDate localeDate cs options).
Proof.
  intros Hnd. unfold exportAsMarkdown.
  assert (is_Some (mapM (renderCategory localeDate (S (length cs)) (buildTree cs).1
                           (buildTree cs).2 options)
                     [language; library; pattern; architecture])) as [sections ->];
    [|by eexists].
  apply mapM_is_Some, Forall_forall. intros k _. by apply renderCategory_returns.
Qed.

(** Rendering reads the nodes by name only. *)
Lemma renderNode_ext (nodes nodes' : gmap string NodeCell) (f : Concept → Concept) :
  (∀ level c, nodeLines localeDate level options (f c) = nodeLines localeDate level options c) →
  (∀ n, nodes' !! n
        = (λ cell, {| concept := f (concept cell); children := children cell |})
            <$> nodes !! n) →
  ∀ fuel level ref,
    renderNode localeDate fuel nodes' options level ref
    = renderNode localeDate fuel nodes options level ref.
Proof.
  intros Hlines Hnodes. induction fuel as [|fuel IH]; intros level ref; [done|].
  cbn -[nodeLines mapM]. rewrite Hnodes. destruct (nodes !! ref) as [cell|]; [|done].
  cbn -[nodeLines mapM].
  rewrite (mapM_ext_in _ (renderNode localeDate fuel nodes options (S level)))
    by (intros; apply IH).
  by rewrite Hlines.
Qed.
End MarkdownFacts.

Section Stripped.
Variable f : Concept → Concept.
Hypothesis f_name : ∀ c, name (f c) = name c.
Hypothesis f_parent : ∀ c, parent (f c) = parent c.

Lemma names_stripped (cs : list Concept) : name <$> (f <$> cs) = name <$> cs.
Proof. rewrite <- list_fmap_compose. apply list_fmap_ext. intros _ c _. apply f_name. Qed.

Lemma attachedTo_stripped cs c : attachedTo (f <$> cs) (f c) = attachedTo cs c.
Proof. unfold attachedTo. by rewrite f_parent, names_stripped. Qed.

Lemma rootsOf_stripped cs : rootsOf (f <$> cs) = rootsOf cs.
Proof.
  unfold rootsOf.
  assert (∀ l : list Concept,
            name <$> filter (λ c, attachedTo (f <$> cs) c = None) (f <$> l)
               = name <$> filter (λ c, attachedTo cs c = None) l) as Hl.
  { induction l as [|c l IH]; [done|]. rewrite fmap_cons, !filter_cons.
    rewrite attachedTo_stripped. destruct (decide (attachedTo cs c = None)); [|done].
    by rewrite !fmap_cons, IH, f_name. }
  apply Hl.
Qed.

Lemma childrenOf_stripped cs n : childrenOf (f <$> cs) n = childrenOf cs n.
Proof.
  unfold childrenOf.
  assert (∀ l : list Concept,
            name <$> filter (λ c, attachedTo (f <$> cs) c = Some n) (f <$> l)
               = name <$> filter (λ c, attachedTo cs c = Some n) l) as Hl.
  { induction l as [|c l IH]; [done|]. rewrite fmap_cons, !filter_cons.
    rewrite attachedTo_stripped. destruct (decide (attachedTo cs c = Some n)); [|done].
    by rewrite !fmap_cons, IH, f_name. }
  apply Hl.
Qed.

Lemma createNodes_stripped cs n :
  createNodes (f <$> cs) !! n
  = (λ cell, {| concept := f (concept cell); children := children cell |})
      <$> createNodes cs !! n.
Proof.
  induction cs as [|c l IH] using rev_ind; [done|].
  rewrite fmap_app. simpl. rewrite !createNodes_snoc, f_name.
  destruct (decide (name c = n)) as [<-|Hne].
  - by rewrite !lookup_insert_eq.
  - by rewrite !lookup_insert_ne.
Qed.

Lemma buildTree_stripped cs n :
  (buildTree (f <$> cs)).1 !! n
  = (λ cell, {| concept := f (concept cell); children := children cell |})
      <$> (buildTree cs).1 !! n.
Proof.
  rewrite !buildTree_cell, createNodes_stripped, childrenOf_stripped.
  by destruct (createNodes cs !! n).
Qed.
End Stripped.

Section MarkdownStripped.
Variable exportDate : string.
Variable localeDate : string → string.
Variable options : ExportOptions.
Variable f : Concept → Concept.
Hypothesis f_name : ∀ c, name (f c) = name c.
Hypothesis f_parent : ∀ c, parent (f c) = parent c.
Hypothesis f_category : ∀ c, category (f c) = category c.
Hypothesis f_lines :
  ∀ level c, nodeLines localeDate level options (f c) = nodeLines localeDate level options c.

(** The documentation is the same for concepts that are rendered alike. *)
Lemma exportAsMarkdown_stripped cs :
  exportAsMarkdown exportDate localeDate (f <$> cs) options
  = exportAsMarkdown exportDate localeDate cs options.
Proof.
  unfold exportAsMarkdown. rewrite length_fmap. cbv zeta.
  rewrite (mapM_ext_in _ (renderCategory localeDate (S (length cs)) (buildTree cs).1
                            (buildTree cs).2 options)); [done|].
  intros k _. unfold renderCategory.
  rewrite !buildTree_roots, (rootsOf_stripped f f_name f_parent).
  rewrite (list_filter_iff _ (λ ref, category ∘ concept <$> (buildTree cs).1 !! ref = Some k)).
  - destruct (filter _ (rootsOf cs)) as [|r rest]; [done|].
    rewrite (mapM_ext_in _ (renderNode localeDate (S (length cs)) (buildTree cs).1 options 3));
      [done|].
    intros y _. apply (renderNode_ext localeDate options _ _ f f_lines).
    apply (buildTree_stripped f f_name f_parent).
  - intros ref. rewrite (buildTree_stripped f f_name f_parent).
    destruct ((buildTree cs).1 !! ref) as [cell|]; [|done]. simpl. by rewrite f_category.
Qed.
End MarkdownStripped.

(** A tree that leads back to its root is not rendered, whatever the fuel. *)
Lemma renderNode_renamedStore (localeDate : string → string) options fuel : ∀ level,
  renderNode localeDate fuel (buildTree renamedStore).1 options level "React Hooks" = None
  ∧ renderNode localeDate fuel (buildTree renamedStore).1 options level "useState" = None.
Proof.
  induction fuel as [|fuel IH]; intros level; [done|].
  assert ((buildTree renamedStore).1 !! "React Hooks"
          = Some {| concept := hooksAgain; children := ["useState"] |}) as Hhooks
    by (by vm_compute).
  assert ((buildTree renamedStore).1 !! "useState"
          = Some {| concept := useState; children := ["React Hooks"] |}) as Hstate
    by (by vm_compute).
  destruct (IH (S level)) as [IH1 IH2].
  cbn -[nodeLines buildTree]. rewrite Hhooks, Hstate. cbn -[nodeLines buildTree].
  by rewrite IH1, IH2.
Qed.

(** ** The order and the number of the locations of one file *)

Lemma length_scanLines n rel i lines :
  length (scanLines n rel i lines)
  = length (filter (λ l, regexTest (patternSource n) l = true) lines).
Proof.
  revert i. induction lines as [|l lines IH]; intros i; [done|].
  cbn [scanLines]. rewrite length_app, IH, filter_cons.
  destruct (regexTest (patternSource n) l); by destruct (decide _).
Qed.

Lemma scanLines_sorted n rel i lines j k a b :
  j < k →
  scanLines n rel i lines !! j = Some a → scanLines n rel i lines !! k = Some b →
  i < line a < line b.
Proof.
  revert i j k. induction lines as [|l lines IH]; intros i j k Hjk; [done|].
  cbn [scanLines]. destruct (regexTest (patternSource n) l).
  - simpl. destruct k as [|k]; [lia|]. destruct j as [|j]; simpl.
    + intros [= <-] Hb. simpl.
      apply list_elem_of_lookup_2, elem_of_scanLines in Hb as (m & text & _ & _ & ->).
      simpl. lia.
    + intros Ha Hb. assert (j < k) as Hlt by lia.
      pose proof (IH (S i) j k Hlt Ha Hb). lia.
  - simpl. intros Ha Hb. pose proof (IH (S i) j k Hjk Ha Hb). lia.
Qed.

(** ** When a write fails *)

Lemma saveAndReturn_withConcepts {A} (a : A) w clk cs s svc :
  Fallible.saveAndReturn a w clk (withConcepts cs s svc)
  = match w with
    | Fallible.written => (Fallible.returned a, save clk (withConcepts cs s svc))
    | Fallible.mkdirThrows message =>
        (Fallible.threw (Fallible.writeError message), withConcepts cs s svc)
    | Fallible.writeFileThrows message remains =>
        (Fallible.threw (Fallible.writeError message),
         {| store := Some (set_lastUpdated (t_save clk) (set_concepts cs s));
            disk := remains |})
    end.
Proof. by destruct w. Qed.

(** Whatever the end of the write, the cached store has the new concepts. *)
Lemma concepts_saveAndReturn {A} (a : A) w clk clk' cs s svc :
  concepts (load clk' (Fallible.saveAndReturn a w clk (withConcepts cs s svc)).2).1 = cs.
Proof. rewrite saveAndReturn_withConcepts. by destruct w. Qed.

Lemma cached_saveAndReturn {A} (a : A) w clk cs s svc :
  cached (Fallible.saveAndReturn a w clk (withConcepts cs s svc)).2 = cs.
Proof. rewrite saveAndReturn_withConcepts. by destruct w. Qed.

Lemma fallible_updateConcept_found w clk i updates svc k c :
  findById i (concepts (load clk svc).1) = Some (k, c) →
  Fallible.updateConcept w clk i updates svc
  = Fallible.saveAndReturn (applyUpdates (t_now clk) updates c) w clk
      (withConcepts (<[k := applyUpdates (t_now clk) updates c]> (concepts (load clk svc).1))
         (load clk svc).1 (load clk svc).2).
Proof.
  unfold Fallible.updateConcept. destruct (load clk svc) as [s svc']. simpl. by intros ->.
Qed.

Lemma fallible_updateConcept_missing w clk i updates svc :
  findById i (concepts (load clk svc).1) = None →
  Fallible.updateConcept w clk i updates svc
  = (Fallible.threw (Fallible.ownError (ConceptNotFound i)), (load clk svc).2).
Proof.
  unfold Fallible.updateConcept. destruct (load clk svc) as [s svc']. simpl. by intros ->.
Qed.

Lemma fallible_addConcept_merge w clk uuid extracted snippet svc k e :
  findByName (ex_name extracted) (concepts (load clk svc).1) = Some (k, e) →
  Fallible.addConcept w clk uuid extracted snippet svc
  = Fallible.updateConcept w clk (id e) (snippetOnly snippet) (load clk svc).2.
Proof.
  unfold Fallible.addConcept, getConceptByName. intros He.
  destruct (load clk svc) as [s svc'] eqn:El.
  replace svc' with (load clk svc).2 by (by rewrite El).
  rewrite load_load, El. simpl in *. by rewrite He.
Qed.

Lemma fallible_addConcept_create w clk uuid extracted snippet svc :
  findByName (ex_name extracted) (concepts (load clk svc).1) = None →
  Fallible.addConcept w clk uuid extracted snippet svc
  = Fallible.saveAndReturn
      {| id := uuid; name := ex_name extracted; category := ex_category extracted;
         parent := ex_parent extracted; explanation := ex_explanation extracted;
         chatSnippets := pushSnippet (t_now clk) snippet []; codeLocations := [];
         firstSeen := t_now clk; lastSeen := t_now clk |} w clk
      (withConcepts
         (concepts (load clk svc).1
          ++ [{| id := uuid; name := ex_name extracted; category := ex_category extracted;
                 parent := ex_parent extracted; explanation := ex_explanation extracted;
                 chatSnippets := pushSnippet (t_now clk) snippet []; codeLocations := [];
                 firstSeen := t_now clk; lastSeen := t_now clk |}])
         (load clk svc).1 (load clk svc).2).
Proof.
  unfold Fallible.addConcept, getConceptByName. intros He.
  destruct (load clk svc) as [s svc'] eqn:El.
  replace svc' with (load clk svc).2 by (by rewrite El).
  rewrite load_load, El. simpl in *. by rewrite He.
Qed.

(** [addConcept] with a write that may fail prepares what [addConcept]
    prepares. *)
Lemma fallible_addConcept_store w clk uuid extracted snippet svc :
  ∃ c cs',
    addConcept clk uuid extracted snippet svc
    = (Ok c, save clk (withConcepts cs' (load clk svc).1 (load clk svc).2))
    ∧ Fallible.addConcept w clk uuid extracted snippet svc
      = Fallible.saveAndReturn c w clk (withConcepts cs' (load clk svc).1 (load clk svc).2).
Proof.
  destruct (findByName (ex_name extracted) (concepts (load clk svc).1)) as [[k e]|] eqn:He.
  - pose proof (findByName_elem_of _ _ _ _ He) as [Hin _].
    destruct (findById_is_Some _ _ Hin) as [[j e0] Hj].
    eexists _, _. split.
    + rewrite (addConcept_merge _ _ _ _ _ _ _ He).
      rewrite (updateConcept_found _ _ _ _ j e0) by (by rewrite load_load).
      by rewrite load_load.
    + rewrite (fallible_addConcept_merge _ _ _ _ _ _ _ _ He).
      rewrite (fallible_updateConcept_found _ _ _ _ _ j e0) by (by rewrite load_load).
      by rewrite load_load.
  - eexists _, _. split.
    + by rewrite (addConcept_create _ _ _ _ _ He).
    + by rewrite (fallible_addConcept_create _ _ _ _ _ _ He).
Qed.

(** The loop of the scan tool, writes failing or not: it counts the writes
    that go through, and leaves in the cached store what the loop leaves
    when all of them do. *)
Lemma fallible_updateLocations_count w clk : ∀ entries j n svc,
  (∀ i, i ∈ entries.*1 → i ∈ id <$> concepts (load (clk j) svc).1) →
  (Fallible.updateLocations w clk j entries n svc).1
  = n + length (filter (λ r, Fallible.goesThrough (w r) = true) (seq j (length entries))).
Proof.
  induction entries as [|[i locs] rest IH]; intros j n svc Hkeys; [simpl; lia|].
  destruct (findById_in_ids i (concepts (load (clk j) svc).1)) as [[k c] Hi].
  { apply Hkeys. rewrite fmap_cons. by left. }
  cbn [Fallible.updateLocations length seq].
  rewrite (fallible_updateConcept_found _ _ _ _ _ _ _ Hi), saveAndReturn_withConcepts.
  assert (∀ i', i' ∈ rest.*1 →
            i' ∈ id <$> <[k := applyUpdates (t_now (clk j))
                                  (locationsOnly (locationString <$> locs)) c]>
                          (concepts (load (clk j) svc).1)) as Hkeys'.
  { intros i' Hi'. rewrite list_fmap_insert. simpl. rewrite list_insert_id.
    - apply Hkeys. rewrite fmap_cons. by right.
    - rewrite list_lookup_fmap, (findById_lookup _ _ _ _ Hi). simpl.
      by apply findById_elem_of in Hi as [_ ->]. }
  destruct (w j) eqn:Hw.
  - rewrite filter_cons_True by (by rewrite Hw). rewrite IH; [simpl; lia|done].
  - rewrite filter_cons_False by (by rewrite Hw). rewrite IH; [done|done].
  - rewrite filter_cons_False by (by rewrite Hw). rewrite IH; [done|done].
Qed.

Lemma fallible_updateLocations_concepts w clk clk' : ∀ entries j n n' svc svc',
  concepts (load clk' svc).1 = concepts (load clk' svc').1 →
  concepts (load clk' (Fallible.updateLocations w clk j entries n svc).2).1
  = concepts (load clk' (updateLocations clk j entries n' svc').2).1.
Proof.
  induction entries as [|[i locs] rest IH]; intros j n n' svc svc' Hsame; [done|].
  pose proof Hsame as Hj.
  rewrite (concepts_load clk' (clk j) svc), (concepts_load clk' (clk j) svc') in Hj.
  destruct (findById i (concepts (load (clk j) svc).1)) as [[k c]|] eqn:Hi.
  - cbn [Fallible.updateLocations].
    rewrite (fallible_updateConcept_found _ _ _ _ _ _ _ Hi).
    rewrite Hj in Hi. rewrite (updateLocations_found _ _ _ _ _ _ _ _ _ Hi).
    match goal with
    | |- context [Fallible.saveAndReturn ?a ?w1 ?c1 (withConcepts ?cs ?s ?v)] =>
        pose proof (concepts_saveAndReturn a w1 c1 clk' cs s v) as Hnext;
        destruct (Fallible.saveAndReturn a w1 c1 (withConcepts cs s v)) as [[?|?] svc1]
    end; cbn [snd] in Hnext; (apply IH; by rewrite Hnext, concepts_saved, Hj).
  - cbn [Fallible.updateLocations].
    rewrite (fallible_updateConcept_missing _ _ _ _ _ Hi).
    rewrite Hj in Hi. rewrite (updateLocations_missing _ _ _ _ _ _ _ Hi).
    apply IH. by rewrite !load_load.
Qed.

Section FallibleScanTool.
Variable join : string → string → string.
Variable extname : string → string.
Variable relative : string → string → string.

Lemma fallible_handleScanCodebase_unfold w clk input root svc :
  Fallible.handleScanCodebase join extname relative w clk input root svc
  = match scanTargets (in_conceptId input) (concepts (load (clk 0) svc).1) with
    | None =>
        (scanFailed ("Concept not found: " +:+ default "" (in_conceptId input)),
         (load (clk 0) svc).2)
    | Some targets =>
        let entries :=
          scanAllEntries relative (in_rootPath input) targets
            (getFiles join extname (scanOptions input) root) in
        (scanDone (scanMessage (length targets) (length entries))
           (Fallible.updateLocations w clk 1 entries 0 (load (clk 0) svc).2).1
           (summarize targets entries),
         (Fallible.updateLocations w clk 1 entries 0 (load (clk 0) svc).2).2)
    end.
Proof.
  unfold Fallible.handleScanCodebase, scanTargets, getConceptById, getAllConcepts.
  destruct (load (clk 0) svc) as [s svc'] eqn:El. cbn [fst snd].
  destruct (in_conceptId input) as [[|a i]|]; simpl.
  - by destruct (Fallible.updateLocations _ _ _ _ _ _).
  - destruct (findById (String a i) (concepts s)) as [[k c]|]; simpl; [|done].
    by destruct (Fallible.updateLocations _ _ _ _ _ _).
  - by destruct (Fallible.updateLocations _ _ _ _ _ _).
Qed.
End FallibleScanTool.

Lemma summarize_proto cs entries : summarize cs entries !! "__proto__" = None.
Proof.
  destruct (summarize cs entries !! "__proto__") as [[cnt ls]|] eqn:Hn; [|done].
  apply summarize_fold in Hn as [Hn|[? _]]; [by rewrite lookup_empty in Hn|done].
Qed.

(** * The claims *)

(** C1. A reparent with a non-null new parent name is rejected as a cycle
    exactly when the walk along the chain of parent references, started at
    the prospective parent name in the loaded, unmodified store, reaches
    the target concept's own name or comes back to a name it has already
    passed. This holds on every store for the chain as the code reads it,
    where an empty string refers to nothing, and, on stores whose names are
    non-empty as the data model requires, for the chain read to the
    letter. Reparenting a concept to its own name, a non-empty string, is
    rejected. A rejected reparent leaves the service as [load] left it: the
    check ran before any mutation and nothing was saved. *)
Theorem C1_reparent_cycle_check clk svc i p :
  let cs := concepts (load clk svc).1 in
  let rejectedAsCycle :=
    (updateConceptParent clk i (Some p) svc).1 = Throw CircularReference in
  (rejectedAsCycle
   ↔ ∃ k child, findById i cs = Some (k, child)
                ∧ walkFindsCycleRef cs (name child) p)
  ∧ (namesNonEmpty cs →
     (rejectedAsCycle
      ↔ ∃ k child, findById i cs = Some (k, child)
                   ∧ walkFindsCycle cs (name child) p))
  ∧ (∀ k child, findById i cs = Some (k, child) → name child ≠ "" →
       (updateConceptParent clk i (Some (name child)) svc).1 = Throw CircularReference)
  ∧ (∀ e, (updateConceptParent clk i (Some p) svc).1 = Throw e →
       (updateConceptParent clk i (Some p) svc).2 = (load clk svc).2).
Proof.
  intros cs rejectedAsCycle.
  split; [apply updateConceptParent_cycle_iff_ref|].
  split; [apply updateConceptParent_cycle_iff|]. split.
  - intros k child Hi Hname. by eapply updateConceptParent_self.
  - intros e. apply updateConceptParent_Throw.
Qed.

Lemma C1_witness :
  namesNonEmpty (concepts (load clock0 hooksService).1)
  ∧ findById (id reactHooks) (concepts (load clock0 hooksService).1) = Some (0, reactHooks)
  ∧ (updateConceptParent clock0 (id reactHooks) (Some "useState") hooksService).1
    = Throw CircularReference
  ∧ (updateConceptParent clock0 (id reactHooks) (Some (name reactHooks)) hooksService).1
    = Throw CircularReference.
Proof.
  assert (namesNonEmpty (concepts (load clock0 hooksService).1)) as Hne.
  { apply (bool_decide_unpack _). vm_compute. exact I. }
  assert (findById (id reactHooks) (concepts (load clock0 hooksService).1)
          = Some (0, reactHooks)) as Hi by reflexivity.
  split; [exact Hne|]. split; [exact Hi|].
  destruct (C1_reparent_cycle_check clock0 hooksService (id reactHooks) "useState")
    as (_ & Hwalk & Hself & _).
  split.
  - apply (Hwalk Hne). exists 0, reactHooks. split; [exact Hi|].
    exists 1, "React Hooks". split; [reflexivity|]. left. reflexivity.
  - apply (Hself 0 reactHooks Hi). discriminate.
Defined.

(** C2: the code at the failing input. Starting from the empty store, one
    [addConcept] of a concept whose parent is its own name is accepted and
    saved, and the parent graph then has a cycle of length one. The same
    assignment, asked of [updateConceptParent] on the resulting store, is
    rejected as a circular reference. *)
Theorem C2_add_accepts_self_parent :
  ∃ c s', (addConcept clock0 uuid0 selfParented None firstRun).1 = Ok c
    ∧ concepts (load clock0 firstRun).1 = []
    ∧ store (addConcept clock0 uuid0 selfParented None firstRun).2 = Some s'
    ∧ disk (addConcept clock0 uuid0 selfParented None firstRun).2 = contents (json s')
    ∧ concepts s' = [c]
    ∧ parent c = Some (name c)
    ∧ chainFrom (concepts s') (Some (name c)) 1 = Some (name c)
    ∧ ¬ acyclic (concepts s')
    ∧ (updateConceptParent clock0 (id c) (Some (name c))
         (addConcept clock0 uuid0 selfParented None firstRun).2).1
      = Throw CircularReference.
Proof.
  eexists _, _. do 7 (split; [reflexivity|]). split; [|reflexivity].
  intros Hac. eapply (Hac _ 1); [apply list_elem_of_here|lia|reflexivity].
Qed.

(** C3, as stated, fails for the third case: the empty string is a name no
    concept of the sample store has, yet reparenting to it raises no error;
    it detaches the concept, bumps [lastSeen] and saves. *)
Lemma C3_counterexample :
  findByExactName "" (concepts (load clock0 hooksService).1) = None
  ∧ (updateConceptParent clock0 (id useState) (Some "") hooksService).1
    = Ok (set_parent None (t_now clock0) useState)
  ∧ (updateConceptParent clock0 (id useState) (Some "") hooksService).2
    ≠ (load clock0 hooksService).2.
Proof. split; [reflexivity|]. split; [reflexivity|]. vm_compute. discriminate. Qed.

(** C3, amended. Each of the three rejected reparents raises an error and
    leaves the service as [load] left it (the cached store is the loaded
    one, the disk is untouched): reparenting a concept to its own name,
    when that is non-empty; reparenting A under B when the chain of parent
    references from B comes to A; reparenting to a non-empty name no
    concept has. An empty string given as the new parent name is not
    rejected: it detaches, as null does, bumps [lastSeen] and saves. *)
Theorem C3_rejected_reparents clk svc i k a :
  findById i (concepts (load clk svc).1) = Some (k, a) →
  let cs := concepts (load clk svc).1 in
  let rejected p e :=
    (updateConceptParent clk i (Some p) svc).1 = Throw e
    ∧ store (updateConceptParent clk i (Some p) svc).2 = Some (load clk svc).1
    ∧ disk (updateConceptParent clk i (Some p) svc).2 = disk svc in
  (name a ≠ "" → rejected (name a) CircularReference)
  ∧ (∀ b d, b ∈ cs → refChain cs (Some (name b)) d = Some (name a) →
       rejected (name b) CircularReference)
  ∧ (namesNonEmpty cs →
     ∀ b d, b ∈ cs → chainFrom cs (Some (name b)) d = Some (name a) →
       rejected (name b) CircularReference)
  ∧ (∀ p, p ≠ "" → findByExactName p cs = None → rejected p (ParentNotFound p))
  ∧ ∃ c s', (updateConceptParent clk i (Some "") svc).1 = Ok c ∧ parent c = None
      ∧ lastSeen c = t_now clk
      ∧ store (updateConceptParent clk i (Some "") svc).2 = Some s'
      ∧ disk (updateConceptParent clk i (Some "") svc).2 = contents (json s')
      ∧ concepts s' = <[k := c]> cs.
Proof.
  intros Hi cs rejected.
  assert (∀ p e, (updateConceptParent clk i (Some p) svc).1 = Throw e → rejected p e) as Hrej.
  { intros p e He. split; [done|].
    rewrite (updateConceptParent_Throw _ _ _ _ _ He), load_store, load_disk. done. }
  split; [|split; [|split; [|split]]].
  - intros Hname. apply Hrej. by eapply updateConceptParent_self.
  - intros b d Hb Hd. apply Hrej. apply updateConceptParent_cycle_iff_ref.
    exists k, a. split; [done|]. exists d, (name a). auto.
  - intros Hne b d Hb Hd. apply Hrej. apply updateConceptParent_cycle_iff; [done|].
    exists k, a. split; [done|]. exists d, (name a). auto.
  - intros p Hp Hnone. apply Hrej. by eapply updateConceptParent_unknown.
  - unfold updateConceptParent. destruct (load clk svc) as [s svc']. simpl in *.
    subst cs. rewrite Hi. by eexists _, _.
Qed.

Lemma C3_witness :
  findById (id reactHooks) (concepts (load clock0 hooksService).1) = Some (0, reactHooks)
  ∧ (updateConceptParent clock0 (id reactHooks) (Some "React Hooks") hooksService).1
    = Throw CircularReference
  ∧ (updateConceptParent clock0 (id reactHooks) (Some "useState") hooksService).1
    = Throw CircularReference
  ∧ (updateConceptParent clock0 (id reactHooks) (Some "Vue") hooksService).1
    = Throw (ParentNotFound "Vue").
Proof.
  assert (findById (id reactHooks) (concepts (load clock0 hooksService).1)
          = Some (0, reactHooks)) as Hi by reflexivity.
  split; [exact Hi|].
  destruct (C3_rejected_reparents clock0 hooksService (id reactHooks) 0 reactHooks Hi)
    as (Hself & Hanc & _ & Hunk & _).
  split; [|split].
  - apply Hself. discriminate.
  - apply (Hanc useState 1); [|reflexivity].
    apply list_elem_of_further, list_elem_of_here.
  - apply (Hunk "Vue"); [discriminate|reflexivity].
Defined.

(** C4, as stated, fails when the provenance text supplied is the empty
    string: the merge appends no snippet. *)
Lemma C4_counterexample :
  ∃ c, (addConcept clock0 uuid0 useStateExtracted (Some "") hooksService).1 = Ok c
       ∧ id c = id useState
       ∧ length (chatSnippets c) = length (chatSnippets useState).
Proof. eexists. split; [reflexivity|]. split; reflexivity. Qed.

(** C4, amended. When a concept with the same name up to letter case
    exists (ids being unique), [addConcept] merges: the store keeps its
    length, that concept is rewritten in place, its [chatSnippets] grows
    by exactly one when a non-empty provenance text is supplied and by
    zero otherwise, and its [lastSeen] becomes the time of the call.
    Otherwise a new concept is appended, with the id [uuidv4()] returned,
    [firstSeen = lastSeen], and the supplied name, category, explanation
    and parent; a fresh id keeps the ids unique. *)
Theorem C4_add_merges_or_creates clk uuid extracted snippet svc :
  let cs := concepts (load clk svc).1 in
  let r := addConcept clk uuid extracted snippet svc in
  (∀ k e, findByName (ex_name extracted) cs = Some (k, e) → NoDup (id <$> cs) →
     ∃ c' s', r.1 = Ok c' ∧ store r.2 = Some s'
       ∧ concepts s' = <[k := c']> cs
       ∧ length (concepts s') = length cs
       ∧ id c' = id e ∧ name c' = name e ∧ firstSeen c' = firstSeen e
       ∧ length (chatSnippets c')
         = length (chatSnippets e) + (if truthy snippet then 1 else 0)
       ∧ lastSeen c' = t_now clk)
  ∧ (findByName (ex_name extracted) cs = None →
     ∃ c s', r.1 = Ok c ∧ store r.2 = Some s'
       ∧ concepts s' = cs ++ [c]
       ∧ id c = uuid
       ∧ firstSeen c = lastSeen c ∧ lastSeen c = t_now clk
       ∧ name c = ex_name extracted
       ∧ category c = ex_category extracted
       ∧ explanation c = ex_explanation extracted
       ∧ parent c = ex_parent extracted
       ∧ (NoDup (id <$> cs) → uuid ∉ id <$> cs → NoDup (id <$> concepts s'))).
Proof.
  intros cs r. subst r. split.
  - intros k e He Hnd. rewrite (addConcept_merge _ _ _ _ _ _ _ He).
    pose proof (findByName_lookup _ _ _ _ He) as Hk.
    rewrite (updateConcept_found _ _ _ _ k e)
      by (rewrite load_load; simpl; by apply findById_NoDup).
    rewrite load_load, save_withConcepts. simpl.
    eexists _, _. do 3 (split; [done|]).
    split; [simpl; by rewrite length_insert|].
    do 3 (split; [done|]). split; [apply length_pushSnippet|done].
  - intros He. rewrite (addConcept_create _ _ _ _ _ He). cbv zeta.
    rewrite save_withConcepts. simpl.
    eexists _, _. do 10 (split; [done|]).
    intros Hnd Hfresh. simpl. rewrite fmap_app. simpl.
    apply NoDup_app. split; [done|]. split; [|apply NoDup_singleton].
    intros x Hx ->%list_elem_of_singleton. done.
Qed.

Lemma C4_witness :
  findByName (ex_name useStateExtracted) (concepts (load clock0 hooksService).1)
  = Some (1, useState)
  ∧ NoDup (id <$> concepts (load clock0 hooksService).1)
  ∧ ∃ c', (addConcept clock0 uuid0 useStateExtracted (Some "seen again") hooksService).1
          = Ok c'
          ∧ length (chatSnippets c') = 2.
Proof.
  assert (findByName (ex_name useStateExtracted) (concepts (load clock0 hooksService).1)
          = Some (1, useState)) as He by reflexivity.
  assert (NoDup (id <$> concepts (load clock0 hooksService).1)) as Hnd.
  { apply (bool_decide_unpack _). vm_compute. exact I. }
  split; [exact He|]. split; [exact Hnd|].
  destruct (C4_add_merges_or_creates clock0 uuid0 useStateExtracted (Some "seen again")
              hooksService) as [Hmerge _].
  destruct (Hmerge 1 useState He Hnd) as (c' & s' & Hr & _ & _ & _ & _ & _ & _ & Hlen & _).
  exists c'. split; [exact Hr|exact Hlen].
Defined.

(** C5, as stated, fails for creation: on an empty store [addConcept]
    creates "useState" with parent "React Hooks" although no concept has
    that name, before or after the call. *)
Lemma C5_counterexample :
  ∃ c, (addConcept clock0 uuid0 useStateExtracted None firstRun).1 = Ok c
       ∧ parent c = Some "React Hooks"
       ∧ concepts (load clock0 firstRun).1 = []
       ∧ findByName "React Hooks" (concepts (load clock0 firstRun).1) = None
       ∧ (snd <$> store (addConcept clock0 uuid0 useStateExtracted None firstRun).2
            ≫= λ s, findByName "React Hooks" (concepts s)) = None.
Proof. eexists. repeat split; reflexivity. Qed.

(** C5, amended. Whenever a reparent succeeds and leaves the concept with
    a non-null parent, a concept with exactly that name is in the store at
    the time of the assignment (and the cycle check passed). Creation
    through [addConcept] stores the supplied parent as it is, resolved or
    not. *)
Theorem C5_reparent_assigns_existing_name clk svc :
  (∀ i newParent c q,
     (updateConceptParent clk i newParent svc).1 = Ok c →
     parent c = Some q →
     newParent = Some q
     ∧ ∃ k p, findByExactName q (concepts (load clk svc).1) = Some (k, p) ∧ name p = q)
  ∧ (∀ uuid extracted snippet,
       findByName (ex_name extracted) (concepts (load clk svc).1) = None →
       ∃ c', (addConcept clk uuid extracted snippet svc).1 = Ok c'
             ∧ parent c' = ex_parent extracted).
Proof.
  split.
  - intros i newParent c q Hok Hq.
    apply updateConceptParent_Ok in Hok as (k & old & Hi & -> & Hp).
    simpl in Hq. unfold orUndefined in Hq.
    destruct (truthy newParent) eqn:Et; [|done]. subst newParent.
    destruct (Hp eq_refl) as (p & [= <-] & [[j pc] Hfind] & _).
    split; [done|]. exists j, pc. split; [done|]. by eapply findByExactName_Some.
  - intros uuid extracted snippet He. rewrite (addConcept_create _ _ _ _ _ He).
    eexists. split; done.
Qed.

Lemma C5_witness :
  ∃ c, (updateConceptParent clock0 (id useState) (Some "React Hooks") hooksService).1 = Ok c
       ∧ parent c = Some "React Hooks"
       ∧ ∃ k p, findByExactName "React Hooks" (concepts (load clock0 hooksService).1)
                = Some (k, p) ∧ name p = "React Hooks".
Proof.
  eexists. split; [reflexivity|]. split; [reflexivity|].
  eapply (proj1 (C5_reparent_assigns_existing_name clock0 hooksService)
            (id useState) (Some "React Hooks")); reflexivity.
Defined.

(** C6, as stated, fails on a snapshot of one concept that names itself as
    parent: names are unique and the parent resolves to no other concept,
    so the claim makes the concept a root; the code files the node under
    itself, returns no root, and the forest holds no node for the concept. *)
Lemma C6_counterexample :
  NoDup (name <$> [selfParentedConcept])
  ∧ (∀ c', c' ∈ [selfParentedConcept] → c' ≠ selfParentedConcept →
       parent selfParentedConcept ≠ Some (name c'))
  ∧ (buildTree [selfParentedConcept]).2 = []
  ∧ children <$> (buildTree [selfParentedConcept]).1 !! "React" = Some ["React"]
  ∧ forest [selfParentedConcept] = []
  ∧ occurrencesIn selfParentedConcept (forest [selfParentedConcept]) = 0.
Proof.
  split; [apply (bool_decide_unpack _); vm_compute; exact I|].
  split; [by intros c' ->%list_elem_of_singleton|].
  repeat split; reflexivity.
Qed.

(** C6, amended. For a list of concepts with unique names in which every
    chain of parents ends at a root, the built forest is total: each
    concept has its node, which holds the input record as it is, and occurs
    in exactly one [TreeNode] of the forest; its node is a root exactly when
    its parent is null or empty or is the name of no other concept of the
    snapshot, so a dangling parent makes a root. *)
Theorem C6_forest_total cs :
  NoDup (name <$> cs) →
  (∀ c, c ∈ cs → ∃ d, rootAbove cs c d) →
  ∀ c, c ∈ cs →
    (∃ cell, (buildTree cs).1 !! name c = Some cell ∧ concept cell = c)
    ∧ occurrencesIn c (forest cs) = 1
    ∧ (name c ∈ (buildTree cs).2
       ↔ truthy (parent c) = false
         ∨ ∀ c', c' ∈ cs → c' ≠ c → parent c ≠ Some (name c')).
Proof.
  intros Hnd Hends c Hc. destruct (Hends c Hc) as (d & top & Hd & Htop).
  split; [|split].
  - eexists. split; [by apply buildTree_node|done].
  - unfold forest. eapply occurrencesIn_forestView; try done.
    by eapply ending_chain_short.
  - rewrite buildTree_roots, rootsOf_concept, attachedTo_None by done.
    split; (intros [?|Hno]; [by left|]).
    + right. intros c' Hc' _. by apply Hno.
    + destruct (truthy (parent c)) eqn:Et; [right|by left].
      intros c' Hc' Hp. destruct (decide (c' = c)) as [->|Hne]; [|by apply (Hno c')].
      apply (self_attached_no_root cs c d Hnd Hc); [|by exists top].
      unfold attachedTo. rewrite Hp in Et |- *.
      destruct (name c) as [|a p] eqn:En; [done|].
      rewrite decide_True; [done|]. rewrite <- En. apply list_elem_of_fmap. eauto.
Qed.

Lemma C6_witness :
  NoDup (name <$> [reactHooks; useState])
  ∧ (∀ c, c ∈ [reactHooks; useState] → ∃ d, rootAbove [reactHooks; useState] c d)
  ∧ useState ∈ [reactHooks; useState]
  ∧ occurrencesIn useState (forest [reactHooks; useState]) = 1.
Proof.
  assert (NoDup (name <$> [reactHooks; useState])) as Hnd.
  { apply (bool_decide_unpack _). vm_compute. exact I. }
  assert (∀ c, c ∈ [reactHooks; useState] → ∃ d, rootAbove [reactHooks; useState] c d)
    as Hends.
  { intros c Hc. apply elem_of_cons in Hc as [->|Hc].
    - exists 0, "React Hooks". split; reflexivity.
    - apply list_elem_of_singleton in Hc as ->.
      exists 1, "React Hooks". split; reflexivity. }
  assert (useState ∈ [reactHooks; useState]) as Hin.
  { apply list_elem_of_further, list_elem_of_here. }
  split; [exact Hnd|]. split; [exact Hends|]. split; [exact Hin|].
  apply (C6_forest_total [reactHooks; useState] Hnd Hends useState Hin).
Defined.

(** C7. Given that [JSON.parse] returns what [JSON.stringify] wrote for a
    value other than [undefined] (the value without its undefined
    properties), as [JSON_parse] and [JSON_stringify] do, parsing the data
    export gives a document whose envelope carries the export time and the
    count, and whose records are the exported concepts in order: each
    record reads back as exactly the original id, name, category, parent,
    explanation, firstSeen and lastSeen, and, where the options include
    them, the original chatSnippets and codeLocations. With both included
    the records read back as the list of concepts itself. *)
Theorem C7_json_export_round_trip (Text : Type) (stringify : JSValue → Text)
    (parse : Text → option JSValue) now cs options :
  (∀ v, v ≠ JSUndefined → parse (stringify v) = Some (serializable v)) →
  ∃ doc, parse (exportAsJson Text stringify now cs options) = Some doc
    ∧ prop "exportedAt" doc = JSString now
    ∧ prop "count" doc = JSNumber (length cs)
    ∧ length (readItems (prop "concepts" doc)) = length cs
    ∧ (∀ i c, cs !! i = Some c →
         ∃ r, readItems (prop "concepts" doc) !! i = Some r
              ∧ readConcept r = Some (included options c))
    ∧ mapM readConcept (readItems (prop "concepts" doc)) = Some (included options <$> cs)
    ∧ (notFalse (includeSnippets options) = true →
       notFalse (includeCodeLocations options) = true →
       mapM readConcept (readItems (prop "concepts" doc)) = Some cs).
Proof.
  intros Hcodec. exists (serializable (exportEnvelope now cs options)).
  split; [by apply Hcodec|]. split; [done|]. split; [done|].
  rewrite readItems_concepts. split; [by rewrite length_fmap|]. split.
  - intros i c Hi. exists (serializable (conceptData options c)).
    split; [by rewrite list_lookup_fmap, Hi|apply readConcept_conceptData].
  - split; [apply mapM_readConcept|].
    intros Hs Hl. rewrite mapM_readConcept. f_equal.
    induction cs as [|c cs IH]; [done|].
    rewrite fmap_cons, included_all by done. f_equal. exact IH.
Qed.

Lemma C7_witness :
  (∀ v, v ≠ JSUndefined → JSON_parse (JSON_stringify v) = Some (serializable v))
  ∧ ∃ doc, JSON_parse (exportAsJson string JSON_stringify (t_now clock0)
                         (concepts hooksStore)
                         {| includeSnippets := None; includeCodeLocations := Some true |})
           = Some doc
           ∧ mapM readConcept (readItems (prop "concepts" doc)) = Some (concepts hooksStore).
Proof.
  split; [exact JSON_parse_stringify|].
  destruct (C7_json_export_round_trip string JSON_stringify JSON_parse
              (t_now clock0) (concepts hooksStore)
              {| includeSnippets := None; includeCodeLocations := Some true |}
              JSON_parse_stringify)
    as (doc & Hdoc & _ & _ & _ & _ & _ & Hall).
  exists doc. split; [exact Hdoc|]. apply Hall; reflexivity.
Defined.

(** What the scan returns, for every name. The map has an id among its
    keys exactly when a concept with that id has a name the pattern finds
    in some line of a readable candidate file: a case-insensitive
    occurrence of the name with the assertion [\b] holding on either side.
    With unique ids this reads, for each concept of the list: its id is a
    key exactly when the pattern finds its name. Every location recorded
    under an id is, for such a line, the file's path relative to the root,
    the line's 1-based number, and the line's text trimmed and cut to 100
    characters. For a name that begins and ends with a word character the
    pattern finds exactly the whole-word matches. *)
Lemma scan_results (relative : string → string → string) rootPath cs files :
  let results := scanAllConcepts relative rootPath cs files in
  (∀ i, i ∈ dom results ↔ ∃ c, c ∈ cs ∧ id c = i ∧ mentioned (name c) files)
  ∧ (∀ c, NoDup (id <$> cs) → c ∈ cs →
       (id c ∈ dom results ↔ mentioned (name c) files))
  ∧ (∀ i locs loc, results !! i = Some locs → loc ∈ locs →
       ∃ c f n text, c ∈ cs ∧ id c = i
         ∧ mentionedAt (name c) files f n text
         ∧ loc = {| file := relative rootPath (path f);
                    line := n + 1;
                    context := sliceTo 100 (trim text) |})
  ∧ (∀ n text, wordEdged n → betweenBoundaries n text ↔ standsAlone n text).
Proof.
  intros results.
  assert (∀ i, i ∈ dom results ↔ ∃ c, c ∈ cs ∧ id c = i ∧ mentioned (name c) files)
    as Hdom.
  { intros i. rewrite elem_of_dom. unfold results, scanAllConcepts.
    rewrite scanAll_fold_dom, lookup_empty. split.
    - intros [[? [=]]|(c & Hc & Hi & Hlen)].
      exists c. by rewrite <- scanForConcept_nonempty.
    - intros (c & Hc & Hi & Hm). right. exists c.
      by rewrite scanForConcept_nonempty. }
  split; [exact Hdom|]. split; [|split].
  - intros c Hnd Hc. rewrite Hdom. split.
    + intros (c' & Hc' & Hi & Hm). by rewrite (NoDup_id_eq cs c c').
    + intros Hm. by exists c.
  - intros i locs loc Hlocs Hloc. unfold results, scanAllConcepts in Hlocs.
    apply scanAll_fold_lookup in Hlocs as [Hlocs|(c & Hc & Hi & -> & _)];
      [by rewrite lookup_empty in Hlocs|].
    apply elem_of_scanForConcept in Hloc as (f & n & text & Hm & ->).
    by exists c, f, n, text.
  - apply betweenBoundaries_standsAlone.
Qed.

(** The scenario of the specification: "useState" is found in [A.ts], on
    its fifth line, and not in [B.ts]. *)
Example scan_results_useState :
  scanAllConcepts belowRoot projectRoot [reactHooks; useState] [fileA; fileB]
  = {[ id useState := [{| file := "src/A.ts"; line := 5;
                          context := "const [count, setCount] = useState(0);" |}] ]}.
Proof. by vm_compute. Qed.

(** C8. The scan does not test for a whole-word match when the name begins
    or ends with a character that is no word character. For the concept
    "C++" the line "// I use C++ daily" has the name as a word of its own,
    and the scan of a file with that one line returns the empty map: the
    id is no key. The line "let C++x = 1" has the name only run together
    with the letter after it, and the scan of a file with that one line
    records it under the id. *)
Theorem C8_scan_misses_punctuated_name :
  standsAlone (name cPlusPlus) "// I use C++ daily"
  ∧ scanAllConcepts belowRoot projectRoot [cPlusPlus] [fileDaily] = ∅
  ∧ ¬ standsAlone (name cPlusPlus) "let C++x = 1"
  ∧ scanAllConcepts belowRoot projectRoot [cPlusPlus] [fileGlued]
    = {[ id cPlusPlus := [{| file := "src/glued.ts"; line := 1;
                             context := "let C++x = 1" |}] ]}.
Proof.
  split; [|split; [|split]].
  - by exists "// I use ", "C++", " daily".
  - by vm_compute.
  - intros (pre & mid & post & Hline & Hmid & _ & Hpost). simpl in Hmid.
    destruct mid as [|a [|b [|c [|? ?]]]]; try discriminate Hmid.
    injection Hmid as Ha Hb Hc.
    do 13 (destruct pre as [|? pre]; simpl in Hline;
           [inversion Hline; subst;
            first [ by vm_compute in Ha | by vm_compute in Hb
                  | by vm_compute in Hc | by vm_compute in Hpost ]
           |try discriminate Hline; injection Hline as ? Hline; subst]).
  - by vm_compute.
Qed.

(** C9. [load] hands back the cached store when one is cached. Otherwise,
    when reading or parsing the backing document fails (no file, an
    unreadable file, or content that is not a store), it returns a fresh
    empty store, with no concepts, and caches it; [load] has no failing
    outcome. *)
Theorem C9_load_fallback clk svc :
  (∀ s, store svc = Some s → load clk svc = (s, svc))
  ∧ (store svc = None →
     (disk svc = enoent ∨ disk svc = eacces ∨ ∃ text, disk svc = contents (garbage text)) →
     (load clk svc).1 = emptyStore (t_load clk)
     ∧ concepts (load clk svc).1 = []
     ∧ store (load clk svc).2 = Some (emptyStore (t_load clk))).
Proof.
  unfold load. split.
  - intros s ->. done.
  - intros -> [->|[->|[text ->]]]; done.
Qed.

Lemma C9_witness :
  store firstRun = None ∧ disk firstRun = enoent
  ∧ concepts (load clock0 firstRun).1 = [].
Proof.
  split; [reflexivity|]. split; [reflexivity|].
  apply (C9_load_fallback clock0 firstRun); [reflexivity|]. left. reflexivity.
Defined.

(** C10. For an existing concept id, an update whose name is the empty
    string keeps the name, and one whose explanation is the empty string
    keeps the explanation: the call does exactly what it does with that
    field omitted. It still succeeds, sets [lastSeen] to the time of the
    call and saves the store, which holds the updated concept in place. *)
Theorem C10_update_empty_string clk svc i k c (nm ex snip : option string)
    (locs : option (list string)) :
  findById i (concepts (load clk svc).1) = Some (k, c) →
  let upd n e := {| u_name := n; u_explanation := e;
                    u_chatSnippet := snip; u_codeLocations := locs |} in
  updateConcept clk i (upd (Some "") ex) svc = updateConcept clk i (upd None ex) svc
  ∧ updateConcept clk i (upd nm (Some "")) svc = updateConcept clk i (upd nm None) svc
  ∧ ∀ updates, (u_name updates = Some "" ∨ u_explanation updates = Some "") →
      ∃ c' s', (updateConcept clk i updates svc).1 = Ok c'
        ∧ (u_name updates = Some "" → name c' = name c)
        ∧ (u_explanation updates = Some "" → explanation c' = explanation c)
        ∧ lastSeen c' = t_now clk
        ∧ store (updateConcept clk i updates svc).2 = Some s'
        ∧ disk (updateConcept clk i updates svc).2 = contents (json s')
        ∧ concepts s' = <[k := c']> (concepts (load clk svc).1)
        ∧ concepts s' !! k = Some c'
        ∧ lastUpdated s' = t_save clk.
Proof.
  intros Hi upd. split; [|split].
  - by rewrite !(updateConcept_found _ _ _ _ _ _ Hi).
  - by rewrite !(updateConcept_found _ _ _ _ _ _ Hi).
  - intros updates _. rewrite (updateConcept_found _ _ _ _ _ _ Hi), save_withConcepts.
    eexists _, _. simpl. split; [done|].
    split; [intros H; simpl; by rewrite H|].
    split; [intros H; simpl; by rewrite H|].
    do 4 (split; [done|]). split; [|done].
    apply list_lookup_insert_eq. by eapply lookup_lt_Some, findById_lookup.
Qed.

Lemma C10_witness :
  findById (id useState) (concepts (load clock0 hooksService).1) = Some (1, useState)
  ∧ ∃ c', (updateConcept clock0 (id useState)
             {| u_name := Some ""; u_explanation := Some "";
                u_chatSnippet := None; u_codeLocations := None |} hooksService).1 = Ok c'
          ∧ name c' = "useState"
          ∧ explanation c' = explanation useState
          ∧ lastSeen c' = t_now clock0.
Proof.
  assert (findById (id useState) (concepts (load clock0 hooksService).1)
          = Some (1, useState)) as Hi by reflexivity.
  split; [exact Hi|].
  destruct (C10_update_empty_string clock0 hooksService (id useState) 1 useState
              None None None None Hi) as (_ & _ & H).
  destruct (H {| u_name := Some ""; u_explanation := Some "";
                 u_chatSnippet := None; u_codeLocations := None |}
              (or_introl eq_refl)) as (c' & s' & Hr & Hn & He & Hl & _).
  exists c'. split; [exact Hr|]. split; [exact (Hn eq_refl)|].
  split; [exact (He eq_refl)|exact Hl].
Defined.


(** * Further properties of the storage, export and scanner services *)

(** ** Deleting *)

(** X1. Deleting an existing id returns true, takes exactly the first
    concept with that id out of the store (one concept fewer, the others
    as they were and in their order) and writes the result to the file.
    Every other id resolves afterwards to what it resolved to before; with
    unique ids the deleted id resolves to nothing, and deleting it again
    returns false. *)
Theorem X1_delete_removes clk clk' i svc k c :
  findById i (concepts (load clk svc).1) = Some (k, c) →
  let cs := concepts (load clk svc).1 in
  let r := deleteConcept clk i svc in
  r.1 = true
  ∧ (∃ s', store r.2 = Some s' ∧ disk r.2 = contents (json s')
           ∧ concepts s' = delete k cs
           ∧ length (concepts s') + 1 = length cs
           ∧ lastUpdated s' = t_save clk)
  ∧ (∀ j, j ≠ i → (getConceptById clk' j r.2).1 = (getConceptById clk j svc).1)
  ∧ (NoDup (id <$> cs) →
     (getConceptById clk' i r.2).1 = None ∧ (deleteConcept clk' i r.2).1 = false).
Proof.
  intros Hi cs r. subst cs r.
  rewrite (deleteConcept_found _ _ _ _ _ Hi), save_withConcepts. cbn [fst snd].
  pose proof (findById_lookup _ _ _ _ Hi) as Hk.
  pose proof (findById_elem_of _ _ _ _ Hi) as [_ Hid].
  split; [done|]. split; [|split].
  - eexists. do 3 (split; [done|]). split; [|done]. simpl.
    rewrite length_delete by (by eexists). apply lookup_lt_Some in Hk. lia.
  - intros j Hj. rewrite !getConceptById_load, load_cached. simpl.
    apply (list_find_delete_other (λ x, id x = j) _ k c Hk). congruence.
  - intros Hnd.
    assert (findById i (delete k (concepts (load clk svc).1)) = None) as Hgone.
    { rewrite <- Hid. by apply findById_delete_gone. }
    split.
    + rewrite getConceptById_load, load_cached. simpl. by rewrite Hgone.
    + rewrite deleteConcept_missing; [done|]. rewrite load_cached. simpl. exact Hgone.
Qed.

Lemma X1_witness :
  findById (id useState) (concepts (load clock0 hooksService).1) = Some (1, useState)
  ∧ (deleteConcept clock0 (id useState) hooksService).1 = true
  ∧ (getConceptById clock0 (id reactHooks)
       (deleteConcept clock0 (id useState) hooksService).2).1 = Some reactHooks.
Proof.
  assert (findById (id useState) (concepts (load clock0 hooksService).1)
          = Some (1, useState)) as Hi by reflexivity.
  split; [exact Hi|].
  destruct (X1_delete_removes clock0 clock0 (id useState) hooksService 1 useState Hi)
    as (Htrue & _ & Hother & _).
  split; [exact Htrue|].
  rewrite (Hother (id reactHooks)); [reflexivity|discriminate].
Defined.

(** X2. Deleting an id no concept has returns false and changes nothing:
    the cached store is the loaded one and the file is not written. *)
Theorem X2_delete_unknown clk i svc :
  findById i (concepts (load clk svc).1) = None →
  (deleteConcept clk i svc).1 = false
  ∧ store (deleteConcept clk i svc).2 = Some (load clk svc).1
  ∧ disk (deleteConcept clk i svc).2 = disk svc.
Proof.
  intros Hi. rewrite (deleteConcept_missing _ _ _ Hi). cbn [fst snd].
  by rewrite load_store, load_disk.
Qed.

Lemma X2_witness :
  findById uuid0 (concepts (load clock0 hooksService).1) = None
  ∧ (deleteConcept clock0 uuid0 hooksService).1 = false
  ∧ disk (deleteConcept clock0 uuid0 hooksService).2 = disk hooksService.
Proof.
  assert (findById uuid0 (concepts (load clock0 hooksService).1) = None) as Hi
    by reflexivity.
  split; [exact Hi|].
  destruct (X2_delete_unknown clock0 uuid0 hooksService Hi) as (Hf & _ & Hd).
  split; [exact Hf|exact Hd].
Defined.

(** X3. Deletion does not cascade. With unique names, a concept whose
    parent is the deleted concept stays in the store as it is; its parent
    now names no concept, and in the tree built from the store it is a
    root. *)
Theorem X3_delete_orphans clk i svc k d c :
  let cs := concepts (load clk svc).1 in
  findById i cs = Some (k, d) → NoDup (name <$> cs) →
  c ∈ cs → parent c = Some (name d) → c ≠ d →
  ∃ s', store (deleteConcept clk i svc).2 = Some s'
    ∧ c ∈ concepts s'
    ∧ findByExactName (name d) (concepts s') = None
    ∧ name c ∈ (buildTree (concepts s')).2.
Proof.
  intros cs Hi Hnd Hc Hp Hne. rewrite (deleteConcept_found _ _ _ _ _ Hi), save_withConcepts.
  pose proof (findById_lookup _ _ _ _ Hi) as Hk.
  eexists. split; [done|]. simpl. fold cs. clearbody cs.
  assert (c ∈ delete k cs) as Hc' by (by eapply elem_of_delete_other).
  assert (∀ x, x ∈ delete k cs → name x ≠ name d) as Hgone.
  { intros x Hx Hname. apply (name_delete_gone cs k d Hnd Hk), list_elem_of_fmap. eauto. }
  split; [done|]. split; [by apply findByExactName_None|].
  rewrite buildTree_roots. apply elem_of_rootsOf. exists c. split; [done|]. split; [done|].
  apply attachedTo_None. right. intros x Hx. rewrite Hp. intros [= Heq].
  by apply (Hgone x).
Qed.

Lemma X3_witness :
  findById (id reactHooks) (concepts (load clock0 hooksService).1) = Some (0, reactHooks)
  ∧ NoDup (name <$> concepts (load clock0 hooksService).1)
  ∧ ∃ s', store (deleteConcept clock0 (id reactHooks) hooksService).2 = Some s'
          ∧ name useState ∈ (buildTree (concepts s')).2.
Proof.
  assert (findById (id reactHooks) (concepts (load clock0 hooksService).1)
          = Some (0, reactHooks)) as Hi by reflexivity.
  assert (NoDup (name <$> concepts (load clock0 hooksService).1)) as Hnd.
  { apply (bool_decide_unpack _). vm_compute. exact I. }
  split; [exact Hi|]. split; [exact Hnd|].
  destruct (X3_delete_orphans clock0 (id reactHooks) hooksService 0 reactHooks useState
              Hi Hnd) as (s' & Hs & _ & _ & Hroot).
  - apply list_elem_of_further, list_elem_of_here.
  - reflexivity.
  - discriminate.
  - exists s'. split; [exact Hs|exact Hroot].
Defined.

(** X4. With unique names, deleting never lets a cycle in: if every chain
    of parent references ends before [deleteConcept], every chain ends in
    the store it leaves, which therefore has no cycle. *)
Theorem X4_delete_keeps_chains_ending clk i svc s' :
  let cs := concepts (load clk svc).1 in
  NoDup (name <$> cs) → chainsEnd cs →
  store (deleteConcept clk i svc).2 = Some s' →
  chainsEnd (concepts s') ∧ acyclic (concepts s').
Proof.
  intros cs Hnd Hends Hs.
  assert (chainsEnd (concepts s')) as Hends'; [|split; [done|by apply chainsEnd_acyclic]].
  destruct (findById i cs) as [[k c]|] eqn:Hi.
  - rewrite (deleteConcept_found _ _ _ _ _ Hi), save_withConcepts in Hs.
    injection Hs as <-. simpl. by apply chainsEnd_delete.
  - rewrite (deleteConcept_missing _ _ _ Hi) in Hs. cbn [snd] in Hs.
    rewrite load_store in Hs. by injection Hs as <-.
Qed.

Lemma X4_witness :
  NoDup (name <$> concepts (load clock0 hooksService).1)
  ∧ chainsEnd (concepts (load clock0 hooksService).1)
  ∧ ∃ s', store (deleteConcept clock0 (id reactHooks) hooksService).2 = Some s'
          ∧ acyclic (concepts s').
Proof.
  assert (NoDup (name <$> concepts (load clock0 hooksService).1)) as Hnd.
  { apply (bool_decide_unpack _). vm_compute. exact I. }
  assert (chainsEnd (concepts (load clock0 hooksService).1)) as Hends.
  { intros n. exists 3. simpl. unfold parentOf. simpl.
    repeat (case_decide; simpl; try reflexivity). }
  split; [exact Hnd|]. split; [exact Hends|].
  eexists. split; [reflexivity|].
  eapply (X4_delete_keeps_chains_ending clock0 (id reactHooks) hooksService);
    [exact Hnd|exact Hends|reflexivity].
Defined.

(** ** Updating *)

(** X5. An update that carries code locations leaves the concept with the
    union of its old locations and the new ones, each once: the result has
    no repetition, holds exactly the locations that were there or were
    supplied, and, when the old list had no repetition, starts with the
    old list in its order. *)
Theorem X5_update_merges_locations clk i svc k c updates locs :
  findById i (concepts (load clk svc).1) = Some (k, c) →
  u_codeLocations updates = Some locs →
  ∃ c', (updateConcept clk i updates svc).1 = Ok c'
    ∧ NoDup (codeLocations c')
    ∧ (∀ x, x ∈ codeLocations c' ↔ x ∈ codeLocations c ∨ x ∈ locs)
    ∧ (NoDup (codeLocations c) → codeLocations c `prefix_of` codeLocations c').
Proof.
  intros Hi Hlocs. rewrite (updateConcept_found _ _ _ _ _ _ Hi).
  eexists. split; [done|]. simpl. rewrite Hlocs. split; [apply NoDup_setOrder|]. split.
  - intros x. rewrite elem_of_setOrder, elem_of_app. set_solver.
  - intros Hnd. rewrite setOrder_app, (setOrder_NoDup (codeLocations c)) by set_solver.
    by eexists.
Qed.

Lemma X5_witness :
  findById (id useState) (concepts (load clock0 hooksService).1) = Some (1, useState)
  ∧ ∃ c', (updateConcept clock0 (id useState)
             {| u_name := None; u_explanation := None; u_chatSnippet := None;
                u_codeLocations := Some ["src/A.ts:5"; "src/App.tsx:5"; "src/A.ts:5"] |}
             hooksService).1 = Ok c'
          ∧ NoDup (codeLocations c')
          ∧ codeLocations useState `prefix_of` codeLocations c'.
Proof.
  assert (findById (id useState) (concepts (load clock0 hooksService).1)
          = Some (1, useState)) as Hi by reflexivity.
  split; [exact Hi|].
  destruct (X5_update_merges_locations clock0 (id useState) hooksService 1 useState
              {| u_name := None; u_explanation := None; u_chatSnippet := None;
                 u_codeLocations := Some ["src/A.ts:5"; "src/App.tsx:5"; "src/A.ts:5"] |}
              ["src/A.ts:5"; "src/App.tsx:5"; "src/A.ts:5"] Hi eq_refl)
    as (c' & Hr & Hnd & _ & Hpre).
  exists c'. split; [exact Hr|]. split; [exact Hnd|].
  apply Hpre. apply (bool_decide_unpack _). vm_compute. exact I.
Defined.

(** X6. Supplying the same code locations a second time changes nothing:
    after two updates of a concept with the same locations its
    [codeLocations] are what they were after the first. *)
Theorem X6_update_locations_again clk clk' i svc k c updates updates' locs :
  findById i (concepts (load clk svc).1) = Some (k, c) →
  u_codeLocations updates = Some locs →
  u_codeLocations updates' = Some locs →
  ∃ c' c'', (updateConcept clk i updates svc).1 = Ok c'
    ∧ (updateConcept clk' i updates' (updateConcept clk i updates svc).2).1 = Ok c''
    ∧ codeLocations c'' = codeLocations c'.
Proof.
  intros Hi Hlocs Hlocs'. rewrite (updateConcept_again _ _ _ _ _ _ _ _ Hi).
  rewrite (updateConcept_found _ _ _ _ _ _ Hi).
  eexists _, _. split; [done|]. split; [done|]. simpl.
  rewrite Hlocs, Hlocs'. apply setOrder_again.
Qed.

Lemma X6_witness :
  findById (id useState) (concepts (load clock0 hooksService).1) = Some (1, useState)
  ∧ ∃ c'', (updateConcept clock0 (id useState)
              {| u_name := None; u_explanation := None; u_chatSnippet := None;
                 u_codeLocations := Some ["src/A.ts:5"] |}
              (updateConcept clock0 (id useState)
                 {| u_name := None; u_explanation := None; u_chatSnippet := None;
                    u_codeLocations := Some ["src/A.ts:5"] |} hooksService).2).1 = Ok c''
           ∧ codeLocations c'' = ["src/App.tsx:5"; "src/A.ts:5"].
Proof.
  assert (findById (id useState) (concepts (load clock0 hooksService).1)
          = Some (1, useState)) as Hi by reflexivity.
  split; [exact Hi|].
  destruct (X6_update_locations_again clock0 clock0 (id useState) hooksService 1 useState
              {| u_name := None; u_explanation := None; u_chatSnippet := None;
                 u_codeLocations := Some ["src/A.ts:5"] |}
              {| u_name := None; u_explanation := None; u_chatSnippet := None;
                 u_codeLocations := Some ["src/A.ts:5"] |}
              ["src/A.ts:5"] Hi eq_refl eq_refl)
    as (c' & c'' & Hr & Hr' & Heq).
  exists c''. split; [exact Hr'|]. rewrite Heq.
  injection Hr as <-. reflexivity.
Defined.

(** X7. An update touches one concept and only some of its fields. For an
    id no concept has it throws "Concept not found" and leaves the cached
    store and the file as they were. For an existing id the concept keeps
    its id, category, parent and firstSeen, the store keeps its length,
    every other concept is left as it is, and so the ids and the parent
    references of the store are what they were. *)
Theorem X7_update_touches_one clk i updates svc :
  let cs := concepts (load clk svc).1 in
  let r := updateConcept clk i updates svc in
  (findById i cs = None →
     r.1 = Throw (ConceptNotFound i)
     ∧ store r.2 = Some (load clk svc).1 ∧ disk r.2 = disk svc)
  ∧ (∀ k c, findById i cs = Some (k, c) →
       ∃ c' s', r.1 = Ok c' ∧ store r.2 = Some s'
         ∧ id c' = id c ∧ category c' = category c
         ∧ parent c' = parent c ∧ firstSeen c' = firstSeen c
         ∧ length (concepts s') = length cs
         ∧ (∀ j, j ≠ k → concepts s' !! j = cs !! j)
         ∧ id <$> concepts s' = id <$> cs
         ∧ parent <$> concepts s' = parent <$> cs).
Proof.
  intros cs r. subst cs r. split.
  - intros Hi. rewrite (updateConcept_missing _ _ _ _ Hi). cbn [fst snd].
    by rewrite load_store, load_disk.
  - intros k c Hi. rewrite (updateConcept_found _ _ _ _ _ _ Hi), save_withConcepts.
    pose proof (findById_lookup _ _ _ _ Hi) as Hk.
    eexists _, _. do 6 (split; [done|]). simpl.
    split; [by rewrite length_insert|]. split; [|split].
    + intros j Hj. by rewrite list_lookup_insert_ne.
    + rewrite list_fmap_insert. simpl. apply list_insert_id.
      by rewrite list_lookup_fmap, Hk.
    + rewrite list_fmap_insert. simpl. apply list_insert_id.
      by rewrite list_lookup_fmap, Hk.
Qed.



(** ** Adding *)

(** X9. [addConcept] with a write that may fail. It returns its concept
    when the write goes through, and is then [addConcept] as modelled
    above; it throws the error of the write when [fs.mkdir] or
    [fs.writeFile] throws. Either way the concept is in the cached store
    by then: the extracted name resolves, by [getConceptByName], to a
    concept with the id of that concept, whose name is the extracted name
    up to letter case, and with unique ids to that very concept. After a
    failed [fs.mkdir] the file is as it was, so the process then serves a
    concept that the file does not hold. *)
Theorem X9_add_then_found w clk clk' uuid extracted snippet svc :
  let r := Fallible.addConcept w clk uuid extracted snippet svc in
  ∃ c e,
    r.1 = match w with
          | Fallible.written => Fallible.returned c
          | Fallible.mkdirThrows message | Fallible.writeFileThrows message _ =>
              Fallible.threw (Fallible.writeError message)
          end
    ∧ (addConcept clk uuid extracted snippet svc).1 = Ok c
    ∧ (w = Fallible.written → r.2 = (addConcept clk uuid extracted snippet svc).2)
    ∧ (getConceptByName clk' (ex_name extracted) r.2).1 = Some e
    ∧ id e = id c
    ∧ toLowerCase (name e) = toLowerCase (ex_name extracted)
    ∧ (NoDup (id <$> concepts (load clk svc).1) → e = c)
    ∧ (∀ message, w = Fallible.mkdirThrows message → disk r.2 = disk svc)
    ∧ (∀ message remains, w = Fallible.writeFileThrows message remains →
         disk r.2 = remains).
Proof.
  intros r. subst r.
  destruct (fallible_addConcept_store w clk uuid extracted snippet svc)
    as (c & cs' & Hplain & Hw).
  destruct (addConcept_resolves clk uuid extracted snippet svc)
    as (c_ & s' & k & e & Hc & Hs & Hfind & Hid & Hsame).
  rewrite Hplain in Hc, Hs. cbn [fst snd] in Hc, Hs. injection Hc as <-.
  rewrite save_withConcepts in Hs. injection Hs as <-. simpl in Hfind.
  exists c, e. rewrite Hw, Hplain. cbn [fst snd].
  split; [rewrite saveAndReturn_withConcepts; by destruct w|]. split; [done|].
  split; [intros ->; by rewrite saveAndReturn_withConcepts|].
  split.
  { rewrite getConceptByName_load, concepts_saveAndReturn. by rewrite Hfind. }
  split; [done|]. split; [by apply findByName_elem_of in Hfind as [_ ?]|].
  split; [done|]. rewrite saveAndReturn_withConcepts.
  split; [intros message ->; simpl; apply load_disk|by intros message remains ->].
Qed.

(** X10. [addConcept] keeps the names apart: if no two concepts of the
    store have the same name up to letter case before the call, none have
    after it, whatever name is added. *)
Theorem X10_add_keeps_names_distinct clk uuid extracted snippet svc s' :
  namesDistinct (concepts (load clk svc).1) →
  store (addConcept clk uuid extracted snippet svc).2 = Some s' →
  namesDistinct (concepts s').
Proof. apply addConcept_namesDistinct. Qed.

Lemma X10_witness :
  namesDistinct (concepts (load clock0 hooksService).1)
  ∧ ∃ s', store (addConcept clock0 uuid0 useStateShouted None hooksService).2 = Some s'
          ∧ length (concepts s') = 2
          ∧ namesDistinct (concepts s').
Proof.
  assert (namesDistinct (concepts (load clock0 hooksService).1)) as Hnd.
  { apply (bool_decide_unpack _). vm_compute. exact I. }
  split; [exact Hnd|]. eexists. split; [reflexivity|]. split; [reflexivity|].
  eapply (X10_add_keeps_names_distinct clock0 uuid0 useStateShouted None hooksService);
    [exact Hnd|reflexivity].
Defined.

(** X11. [addConceptsFromExtraction] returns one concept for each
    extraction, in order, and after it every extracted name resolves to a
    concept with the id of the concept returned for it; so extractions of
    the batch whose names differ in letter case at most are answered with
    one and the same id. The concepts that were in the store keep their
    ids and names and their places, and names that were apart stay apart. *)
Theorem X11_batch_resolves clk uuid extractions chatContext svc clk' :
  let r := addConceptsFromExtraction clk uuid extractions chatContext svc in
  let final := concepts (load clk' r.2).1 in
  ∃ results, r.1 = Ok results
    ∧ length results = length extractions
    ∧ (∀ j c x, results !! j = Some c → extractions !! j = Some x →
         ∃ e, (getConceptByName clk' (ex_name x) r.2).1 = Some e ∧ id e = id c)
    ∧ (∀ j j' c c' x x',
         results !! j = Some c → extractions !! j = Some x →
         results !! j' = Some c' → extractions !! j' = Some x' →
         toLowerCase (ex_name x) = toLowerCase (ex_name x') → id c = id c')
    ∧ identities (concepts (load clk' svc).1) `prefix_of` identities final
    ∧ (namesDistinct (concepts (load clk' svc).1) → namesDistinct final).
Proof.
  intros r final. subst r final.
  destruct (addConceptsFromExtraction_spec clk uuid extractions chatContext svc)
    as (results & Hok & Hlen & Hfinal).
  destruct (Hfinal clk') as (Hpre & Hnd & Heach).
  exists results. split; [done|]. split; [done|]. split; [|split; [|done]].
  - intros j c x Hc Hx. destruct (Heach j c x Hc Hx) as (_ & (k & e & Hfind & Hid) & _).
    exists e. rewrite getConceptByName_load, Hfind. done.
  - intros j j' c c' x x' Hc Hx Hc' Hx' Hsame.
    destruct (Heach j c x Hc Hx) as (_ & (k & e & Hfind & Hid) & _).
    destruct (Heach j' c' x' Hc' Hx') as (_ & (k' & e' & Hfind' & Hid') & _).
    unfold findByName in Hfind, Hfind'. rewrite Hsame in Hfind. congruence.
Qed.

(** ** Searching *)

(** X12. [searchConcepts] returns, in store order, exactly the concepts of
    the store for which the query is empty or occurs, letter case aside, as
    a piece of the name or of the explanation, and whose category is the
    one asked for when one is asked for (a non-empty string). It changes
    nothing: the service is left as [load] leaves it. *)
Theorem X12_search_results clk query wanted svc :
  let cs := concepts (load clk svc).1 in
  let found := (searchConcepts clk query wanted svc).1 in
  found `sublist_of` cs
  ∧ (∀ c, c ∈ found ↔
       c ∈ cs
       ∧ (query = ""
          ∨ (∃ pre post, toLowerCase (name c) = pre +:+ toLowerCase query +:+ post)
          ∨ (∃ pre post, toLowerCase (explanation c) = pre +:+ toLowerCase query +:+ post))
       ∧ (truthy wanted = false ∨ wanted = Some (categoryName (category c))))
  ∧ (searchConcepts clk query wanted svc).2 = (load clk svc).2.
Proof.
  intros cs found. subst cs found. rewrite searchConcepts_load. cbn [fst snd].
  split; [apply sublist_filter|]. split; [|done].
  intros c. rewrite list_elem_of_filter, andb_True.
  unfold matchesQuery, matchesCategory.
  rewrite !orb_True, !Is_true_true, !includes_spec, negb_true_iff, negb_true_iff.
  rewrite bool_decide_eq_true.
  assert (truthy (Some query) = false ↔ query = "") as -> by (by destruct query).
  naive_solver.
Qed.

(** X13. The edges of a search. An empty query with no category, or with
    the empty string for a category, lists every concept of the store. What
    [getConceptByName] finds for a name, a search for that name finds too.
    A category that is none of the four category names finds nothing, and
    a search with a category is the search without one, cut down to the
    concepts of that category. *)
Theorem X13_search_edges clk query k svc :
  searchConcepts clk "" None svc = getAllConcepts clk svc
  ∧ searchConcepts clk "" (Some "") svc = getAllConcepts clk svc
  ∧ (∀ c, (getConceptByName clk query svc).1 = Some c →
       c ∈ (searchConcepts clk query None svc).1)
  ∧ (k ≠ "" → (∀ g, k ≠ categoryName g) →
       (searchConcepts clk query (Some k) svc).1 = [])
  ∧ (k ≠ "" →
     (searchConcepts clk query (Some k) svc).1
     = filter (λ c, categoryName (category c) = k)
         (searchConcepts clk query None svc).1).
Proof.
  rewrite !searchConcepts_load. unfold getAllConcepts.
  destruct (load clk svc) as [s svc'] eqn:El. cbn [fst snd].
  split; [by rewrite filter_all|]. split; [by rewrite filter_all|]. split; [|split].
  - intros c. rewrite getConceptByName_load, El. cbn [fst].
    destruct (findByName query (concepts s)) as [[j e]|] eqn:He; [|done].
    intros [= <-]. apply findByName_elem_of in He as [He Hname].
    apply list_elem_of_filter. split; [|done].
    unfold matchesQuery, matchesCategory. simpl. rewrite Hname, includes_self.
    by rewrite orb_true_r.
  - intros Hk Hnone. induction (concepts s) as [|c cs IH]; [done|].
    rewrite filter_cons_False; [done|].
    unfold matchesCategory. destruct k as [|a k]; [done|]. simpl.
    rewrite andb_True, bool_decide_spec. intros [_ [= Hc]]. by apply (Hnone (category c)).
  - intros Hk. rewrite list_filter_filter. apply list_filter_iff. intros c.
    unfold matchesCategory. destruct k as [|a k]; [done|]. simpl.
    rewrite !andb_True, bool_decide_spec. split.
    + intros [Hq [= Hc]]. by rewrite Hc.
    + intros (Hc & Hq & _). by rewrite Hc.
Qed.

(** ** Exporting *)

(** X14. [exportConcepts] exports the whole store when no ids are given
    or the list of ids is empty, and otherwise exactly the stored concepts
    whose id is listed, in store order, whatever the order of the ids,
    their repetitions, or ids no concept has. The data export of the
    selection parses back to a document that counts the selected concepts
    and holds them, with the fields the options include. The service is
    left as [load] leaves it. *)
Theorem X14_export_selection (exportDate : string) (localeDate : string → string)
    clk conceptIds options svc :
  let cs := concepts (load clk svc).1 in
  let selected := selectConcepts conceptIds cs in
  let r := exportConcepts exportDate localeDate clk formatJson conceptIds options svc in
  selected `sublist_of` cs
  ∧ (conceptIds = None ∨ conceptIds = Some [] → selected = cs)
  ∧ (∀ ids, conceptIds = Some ids → ids ≠ [] → ∀ c, c ∈ selected ↔ c ∈ cs ∧ id c ∈ ids)
  ∧ (∃ text doc, r.1 = Some text ∧ JSON_parse text = Some doc
       ∧ prop "count" doc = JSNumber (length selected)
       ∧ mapM readConcept (readItems (prop "concepts" doc))
         = Some (included options <$> selected))
  ∧ r.2 = (load clk svc).2.
Proof.
  intros cs selected r. subst cs selected r. unfold exportConcepts, getAllConcepts.
  destruct (load clk svc) as [s svc']. cbn [fst snd].
  split; [|split; [|split; [|split; [|done]]]].
  - destruct conceptIds as [[|i ids]|]; simpl; [done|apply sublist_filter|done].
  - by intros [->| ->].
  - intros ids -> Hne c. rewrite selectConcepts_filter by done.
    by rewrite list_elem_of_filter, (comm and).
  - destruct (exportEnvelope_read (t_now clk) (selectConcepts conceptIds (concepts s)) options)
      as (doc & ? & ? & ?). by eexists _, doc.
Qed.

(** X15. What the options leave out of the data export does not leak into
    it: with [includeSnippets] false the text is the same for any two lists
    of concepts that differ in their chat snippets only, and with
    [includeCodeLocations] false for any two that differ in their code
    locations only. *)
Theorem X15_left_out_fields_do_not_leak now cs cs' options :
  (includeSnippets options = Some false →
   withoutSnippets <$> cs = withoutSnippets <$> cs' →
   exportAsJson string JSON_stringify now cs options
   = exportAsJson string JSON_stringify now cs' options)
  ∧ (includeCodeLocations options = Some false →
     withoutLocations <$> cs = withoutLocations <$> cs' →
     exportAsJson string JSON_stringify now cs options
     = exportAsJson string JSON_stringify now cs' options).
Proof.
  assert (∀ (strip : Concept → Concept),
            (∀ c, conceptData options (strip c) = conceptData options c) →
            strip <$> cs = strip <$> cs' →
            exportAsJson string JSON_stringify now cs options
            = exportAsJson string JSON_stringify now cs' options) as Hstrip.
  { intros strip Hdata Heq. unfold exportAsJson, exportEnvelope.
    assert (conceptData options <$> cs = conceptData options <$> cs') as ->.
    { transitivity (conceptData options <$> (strip <$> cs)).
      - rewrite <- list_fmap_compose. apply list_fmap_ext. intros _ c _. symmetry. apply Hdata.
      - rewrite Heq, <- list_fmap_compose. apply list_fmap_ext. intros _ c _. apply Hdata. }
    assert (length cs = length cs') as ->; [|done].
    by rewrite <- (length_fmap strip cs), Heq, length_fmap. }
  split; intros Hoff; apply Hstrip; intros c.
  - by apply conceptData_withoutSnippets.
  - by apply conceptData_withoutLocations.
Qed.

(** ** Listing the files to scan *)

(** X16. An entry is passed over exactly when the list of excluded names
    is not empty and the entry's name is on it or begins with a dot. So
    with the default list every entry whose name begins with a dot is
    passed over, and with an empty list nothing is: a file of an included
    extension is then listed also when its name begins with a dot. *)
Theorem X16_skip_rule (join : string → string → string) (extname : string → string)
    exclude n :
  (skipped exclude n = true ↔ exclude ≠ [] ∧ (n ∈ exclude ∨ startsWith n "." = true))
  ∧ skipped [] n = false
  ∧ (startsWith n "." = true → skipped defaultExclude n = true)
  ∧ (∀ options entries text,
       excludePatterns options = Some [] →
       fileEntry n text ∈ entries →
       dropChars 1 (extname n) ∈ default defaultInclude (includePatterns options) →
       {| path := join (rootPath options) n; readAs := text |}
       ∈ getFiles join extname options (Some entries)).
Proof.
  split; [apply skipped_spec|]. split; [done|]. split.
  - intros Hdot. apply skipped_spec. split; [done|by right].
  - intros options entries text Hex Hin Hext. unfold getFiles.
    apply elem_of_walkDirectory. rewrite Hex. by apply listed_here.
Qed.

(** X17. The files [getFiles] lists are exactly the files within reach of
    the walk from the root: those that sit, not passed over and with an
    included extension, in the root directory or in a directory reached
    through readable directories that are not passed over. Each has an
    included extension; a root that cannot be read gives no file and no
    error, and so does an empty list of extensions. *)
Theorem X17_files_listed (join : string → string → string) (extname : string → string)
    options root :
  let include := default defaultInclude (includePatterns options) in
  let exclude := default defaultExclude (excludePatterns options) in
  (∀ entries f, root = Some entries →
     (f ∈ getFiles join extname options root
      ↔ listedIn join extname include exclude (rootPath options) entries f))
  ∧ (∀ f, f ∈ getFiles join extname options root →
       ∃ dir n, path f = join dir n ∧ skipped exclude n = false
                ∧ dropChars 1 (extname n) ∈ include)
  ∧ (root = None → getFiles join extname options root = [])
  ∧ (includePatterns options = Some [] → getFiles join extname options root = []).
Proof.
  intros include exclude. subst include exclude. unfold getFiles.
  split; [|split; [|split]].
  - intros entries f ->. apply elem_of_walkDirectory.
  - intros f Hf. destruct root as [entries|]; [|by apply elem_of_nil in Hf].
    apply elem_of_walkDirectory in Hf. by eapply listedIn_file.
  - by intros ->.
  - intros Hnone. apply elem_of_nil_inv. intros f Hf.
    destruct root as [entries|]; [|by apply elem_of_nil in Hf].
    apply elem_of_walkDirectory, listedIn_file in Hf as (dir & n & _ & _ & Hext).
    rewrite Hnone in Hext. by apply elem_of_nil in Hext.
Qed.

(** ** The scan tool *)

(** X18. What [handleScanCodebase] reports, writes failing or not. When a
    non-empty concept id is given that no concept has, it answers "Concept
    not found" and leaves the service as [load] leaves it. Otherwise it
    scans the concept asked for, or all of the store, and the number of
    updated concepts it reports is the number of rounds of its loop whose
    write went through: the number of matched concepts, the size of the
    scan's map, when every write does, and less for each that fails. The
    cached store has the locations of every matched concept all the same:
    its concepts are those the loop leaves when every write goes through.
    Each entry of the summary is, under the name of a scanned concept, the
    number of locations found for its id and the first five of them as
    [file:line]; a concept named [__proto__] gets no entry. *)
Theorem X18_scan_report (join : string → string → string) (extname : string → string)
    (relative : string → string → string) w clk clk' input root svc :
  let cs := concepts (load (clk 0) svc).1 in
  let r := Fallible.handleScanCodebase join extname relative w clk input root svc in
  match scanTargets (in_conceptId input) cs with
  | None =>
      ∃ i, in_conceptId input = Some i ∧ i ≠ "" ∧ findById i cs = None
           ∧ r = (scanFailed ("Concept not found: " +:+ i), (load (clk 0) svc).2)
  | Some targets =>
      let found :=
        scanAllConcepts relative (in_rootPath input) targets
          (getFiles join extname (scanOptions input) root) in
      (targets = cs ∨ ∃ i k c, in_conceptId input = Some i
                               ∧ findById i cs = Some (k, c) ∧ targets = [c])
      ∧ ∃ updated summary,
          r.1 = scanDone (scanMessage (length targets) (size found)) updated summary
          ∧ updated
            = length (filter (λ j, Fallible.goesThrough (w j) = true) (seq 1 (size found)))
          ∧ updated ≤ size found
          ∧ ((∀ j, 1 ≤ j ≤ size found → w j = Fallible.written) → updated = size found)
          ∧ concepts (load clk' r.2).1
            = concepts
                (load clk' (handleScanCodebase join extname relative clk input root svc).2).1
          ∧ summary !! "__proto__" = None
          ∧ ∀ n cnt ls, summary !! n = Some (cnt, ls) →
              ∃ c locs, c ∈ targets ∧ name c = n ∧ found !! id c = Some locs
                        ∧ cnt = length locs
                        ∧ ls = locationString <$> take 5 locs
  end.
Proof.
  intros cs r. subst cs r.
  rewrite fallible_handleScanCodebase_unfold, handleScanCodebase_unfold.
  destruct (scanTargets (in_conceptId input) (concepts (load (clk 0) svc).1))
    as [targets|] eqn:Htargets.
  - destruct (scanAllEntries_spec relative (in_rootPath input) targets
                (getFiles join extname (scanOptions input) root)) as (Hnd & Hkeys & Hmap).
    cbv zeta. rewrite <- Hmap, map_size_list_to_map by done. split.
    + unfold scanTargets in Htargets. destruct (in_conceptId input) as [[|a i]|].
      * left. congruence.
      * destruct (findById (String a i) _) as [[k c]|] eqn:Hi; [|done].
        right. exists (String a i), k, c. split; [done|]. split; [done|]. simpl in *. congruence.
      * left. congruence.
    + eexists _, _. cbn [fst snd]. split; [done|].
      rewrite fallible_updateLocations_count.
      2: { intros i Hi. rewrite load_load. cbn [fst]. eapply scanTargets_ids; [done|].
           by apply Hkeys. }
      split; [done|]. split.
      { simpl. etrans; [apply length_filter|]. by rewrite length_seq. }
      split.
      { intros Hall. rewrite filter_all; [simpl; by rewrite length_seq|].
        intros j Hj%elem_of_seq. rewrite Hall; [done|lia]. }
      split; [by apply fallible_updateLocations_concepts|].
      split; [apply summarize_proto|].
      intros n cnt ls Hn.
      apply summarize_fold in Hn as [Hn|(_ & i & locs & k & c & Hin & Hi & ? & ? & ?)];
        [by rewrite lookup_empty in Hn|].
      apply findById_elem_of in Hi as [Hc Hid]. exists c, locs.
      split; [done|]. split; [done|]. split; [|done].
      rewrite Hid. by apply elem_of_list_to_map_1.
  - unfold scanTargets in Htargets. destruct (in_conceptId input) as [[|a i]|]; try done.
    destruct (findById (String a i) _) as [[k c]|] eqn:Hi; [done|].
    exists (String a i). by repeat split.
Qed.

(** X19. What [handleScanCodebase] writes back, ids being unique. Every
    concept of the store keeps its place, id, name, category, parent,
    explanation, chat snippets and firstSeen; a scanned concept for whose
    id the scan found locations has them merged, as [file:line] and
    without repetition, into its code locations, and every other concept
    keeps its code locations. *)
Theorem X19_scan_writes_back (join : string → string → string) (extname : string → string)
    (relative : string → string → string) clk clk' input root svc targets :
  let cs := concepts (load (clk 0) svc).1 in
  let found :=
    scanAllConcepts relative (in_rootPath input) targets
      (getFiles join extname (scanOptions input) root) in
  let final :=
    concepts (load clk' (handleScanCodebase join extname relative clk input root svc).2).1 in
  NoDup (id <$> cs) → scanTargets (in_conceptId input) cs = Some targets →
  length final = length cs
  ∧ ∀ k c, cs !! k = Some c →
      ∃ c', final !! k = Some c' ∧ id c' = id c ∧ name c' = name c
            ∧ category c' = category c ∧ parent c' = parent c
            ∧ explanation c' = explanation c ∧ chatSnippets c' = chatSnippets c
            ∧ firstSeen c' = firstSeen c
            ∧ codeLocations c'
              = match found !! id c with
                | Some locs => setOrder ∅ (codeLocations c ++ (locationString <$> locs))
                | None => codeLocations c
                end.
Proof.
  intros cs found final Hnd Htargets. subst cs found final.
  destruct (handleScanCodebase_store join extname relative clk clk' input root svc targets
              Hnd Htargets) as [Hlen Heach].
  split; [done|]. intros k c Hk.
  destruct (Heach k c Hk) as (c' & Hk' & ? & ? & ? & ? & ? & ? & ? & Hlocs).
  exists c'. do 8 (split; [done|]). rewrite Hlocs. unfold mergedLocations.
  destruct (scanAllEntries_spec relative (in_rootPath input) targets
              (getFiles join extname (scanOptions input) root)) as (_ & _ & <-).
  by rewrite mapGet_list_to_map.
Qed.

Lemma X19_witness :
  NoDup (id <$> concepts (load (steady 0) hooksService).1)
  ∧ scanTargets (in_conceptId scanEverything) (concepts (load (steady 0) hooksService).1)
    = Some [reactHooks; useState]
  ∧ ∃ c', concepts (load clock0
                      (handleScanCodebase joinBelow extnameOfPlain belowRoot steady
                         scanEverything (Some projectTree) hooksService).2).1 !! 1
          = Some c'
          ∧ codeLocations c' = ["src/App.tsx:5"; "src/A.ts:5"].
Proof.
  assert (NoDup (id <$> concepts (load (steady 0) hooksService).1)) as Hnd.
  { apply (bool_decide_unpack _). vm_compute. exact I. }
  assert (scanTargets (in_conceptId scanEverything)
            (concepts (load (steady 0) hooksService).1) = Some [reactHooks; useState])
    as Htargets by reflexivity.
  split; [exact Hnd|]. split; [exact Htargets|].
  destruct (X19_scan_writes_back joinBelow extnameOfPlain belowRoot steady clock0
              scanEverything (Some projectTree) hooksService [reactHooks; useState]
              Hnd Htargets) as [_ Heach].
  destruct (Heach 1 useState eq_refl) as (c' & Hc' & _ & _ & _ & _ & _ & _ & _ & Hlocs).
  exists c'. split; [exact Hc'|]. rewrite Hlocs. vm_compute. reflexivity.
Defined.

(** X20. Scanning again changes no code location: with unique ids, after
    two runs of [handleScanCodebase] with the same input over the same
    files every concept has the code locations it had after the first. *)
Theorem X20_rescan_adds_nothing (join : string → string → string)
    (extname : string → string) (relative : string → string → string)
    clk clk' clk'' input root svc :
  let once := (handleScanCodebase join extname relative clk input root svc).2 in
  let twice := (handleScanCodebase join extname relative clk' input root once).2 in
  NoDup (id <$> concepts (load (clk 0) svc).1) →
  codeLocations <$> concepts (load clk'' twice).1
  = codeLocations <$> concepts (load clk'' once).1.
Proof.
  intros once twice Hnd. subst once twice.
  destruct (scanTargets (in_conceptId input) (concepts (load (clk 0) svc).1))
    as [targets|] eqn:Htargets.
  - destruct (handleScanCodebase_store join extname relative clk (clk' 0) input root svc
                targets Hnd Htargets) as [Hlen Heach].
    set (once := (handleScanCodebase join extname relative clk input root svc).2) in *.
    assert (identities (concepts (load (clk' 0) once).1)
            = identities (concepts (load (clk 0) svc).1)) as Hid.
    { apply identities_lookup; [done|]. intros k c Hk.
      destruct (Heach k c Hk) as (c' & ? & ? & ? & _). by exists c'. }
    destruct (scanTargets_identities _ _ _ _ Hid Htargets) as (targets' & Htargets' & Hid').
    assert (NoDup (id <$> concepts (load (clk' 0) once).1)) as Hnd'.
    { assert (id <$> concepts (load (clk' 0) once).1 = (identities (concepts (load (clk' 0) once).1)).*1)
        as -> by (unfold identities; by rewrite <- list_fmap_compose).
      rewrite Hid. unfold identities. by rewrite <- list_fmap_compose. }
    destruct (handleScanCodebase_store join extname relative clk' clk'' input root once
                targets' Hnd' Htargets') as [Hlen' Heach'].
    rewrite (scanAllEntries_identities relative _ _ _ _ Hid') in Heach'.
    rewrite (concepts_load clk'' (clk' 0) once).
    apply list_eq. intros k. rewrite !list_lookup_fmap.
    destruct (concepts (load (clk 0) svc).1 !! k) as [c|] eqn:Hk.
    + destruct (Heach k c Hk) as (c' & Hk' & Hi & _ & _ & _ & _ & _ & _ & Hlocs).
      destruct (Heach' k c' Hk') as (c'' & Hk'' & _ & _ & _ & _ & _ & _ & _ & Hlocs').
      rewrite Hk', Hk''. simpl. f_equal. rewrite Hlocs'.
      unfold mergedLocations at 1. rewrite Hi, Hlocs. unfold mergedLocations.
      destruct (mapGet (id c) _) as [locs|]; [apply setOrder_again|done].
    + apply lookup_ge_None in Hk.
      rewrite (proj2 (lookup_ge_None _ k)) by lia.
      rewrite (proj2 (lookup_ge_None (concepts (load (clk' 0) once).1) k)) by lia. done.
  - assert ((handleScanCodebase join extname relative clk input root svc).2
            = (load (clk 0) svc).2) as Honce.
    { by rewrite handleScanCodebase_unfold, Htargets. }
    rewrite Honce, handleScanCodebase_unfold, load_load. cbn [fst snd].
    rewrite Htargets. cbn [snd]. by rewrite !load_load.
Qed.

Lemma X20_witness :
  NoDup (id <$> concepts (load (steady 0) hooksService).1)
  ∧ codeLocations
      <$> concepts (load clock0
            (handleScanCodebase joinBelow extnameOfPlain belowRoot steady scanEverything
               (Some projectTree)
               (handleScanCodebase joinBelow extnameOfPlain belowRoot steady scanEverything
                  (Some projectTree) hooksService).2).2).1
    = [[]; ["src/App.tsx:5"; "src/A.ts:5"]].
Proof.
  assert (NoDup (id <$> concepts (load (steady 0) hooksService).1)) as Hnd.
  { apply (bool_decide_unpack _). vm_compute. exact I. }
  split; [exact Hnd|].
  rewrite (X20_rescan_adds_nothing joinBelow extnameOfPlain belowRoot steady steady clock0
             scanEverything (Some projectTree) hooksService Hnd).
  vm_compute. reflexivity.
Defined.

(** ** The tools and the REST API *)

(** X21. The tool that adds a concept never merges. When a concept has the
    name already, letter case aside, it answers with a refusal that carries
    that concept's id and leaves the store and the file as they were, the
    existing concept untouched. Otherwise it appends one concept with the
    given name, category, parent and explanation, the fresh id, no chat
    snippet and no code location, and saves. *)
Theorem X21_add_tool_never_merges clk uuid input svc :
  let cs := concepts (load clk svc).1 in
  let r := handleAddConcept clk uuid input svc in
  (∀ k e, findByName (ex_name input) cs = Some (k, e) →
     r.1 = addRefused ("Concept already exists: " +:+ ex_name input) (id e)
     ∧ store r.2 = Some (load clk svc).1 ∧ disk r.2 = disk svc)
  ∧ (findByName (ex_name input) cs = None →
     ∃ c s', r.1 = addDone ("Added concept: " +:+ ex_name input) uuid (ex_name input)
                     (ex_category input) (ex_parent input) (ex_explanation input)
       ∧ store r.2 = Some s' ∧ disk r.2 = contents (json s')
       ∧ concepts s' = cs ++ [c]
       ∧ id c = uuid ∧ name c = ex_name input
       ∧ chatSnippets c = [] ∧ codeLocations c = []).
Proof.
  intros cs r. subst cs r. unfold handleAddConcept.
  pose proof (getConceptByName_load clk (ex_name input) svc) as Hfound.
  assert ((getConceptByName clk (ex_name input) svc).2 = (load clk svc).2) as Hsvc.
  { unfold getConceptByName. by destruct (load clk svc). }
  destruct (getConceptByName clk (ex_name input) svc) as [existing svc'].
  cbn [fst snd] in Hfound, Hsvc. subst existing svc'. split.
  - intros k e He. rewrite He. cbn [fmap option_fmap option_map snd fst].
    by rewrite load_store, load_disk.
  - intros He. rewrite He. cbn [fmap option_fmap option_map].
    rewrite (addConcept_create clk uuid input None (load clk svc).2)
      by (by rewrite load_load).
    cbv zeta. rewrite load_load, save_withConcepts. cbn [fst snd].
    eexists _, _. by repeat split.
Qed.

(** X22. The tool that lists concepts reports as [total] the number of
    concepts the search found, whatever the limit, and lists the first
    ones of them, in store order: as many as the limit says, or all when
    there are fewer; a negative limit leaves that many off the end instead,
    and a limit of zero lists nothing. *)
Theorem X22_list_limit clk input svc :
  let found :=
    (searchConcepts clk (orKeep (l_search input) "") (categoryName <$> l_category input)
       svc).1 in
  let r := (handleListConcepts clk input svc).1 in
  total r = length found
  ∧ returned r = length (listed r)
  ∧ returned r ≤ total r
  ∧ listed r `prefix_of` (listedConcept <$> found)
  ∧ ((0 ≤ l_limit input)%Z → returned r = Z.to_nat (l_limit input) `min` length found)
  ∧ ((l_limit input < 0)%Z → returned r = length found - Z.to_nat (- l_limit input)).
Proof.
  intros found r. subst found r. unfold handleListConcepts.
  destruct (searchConcepts clk _ _ svc) as [found svc']. cbn [fst snd]. simpl.
  unfold sliceList. destruct (decide (0 ≤ l_limit input)%Z) as [Hpos|Hneg].
  - rewrite length_fmap, length_take. repeat split; try lia.
    rewrite fmap_take. apply prefix_take.
  - rewrite length_fmap, length_take. repeat split; try lia.
    rewrite fmap_take. apply prefix_take.
Qed.

(** X23. The status with which the REST API answers a reparent, the
    write failing or not. It is 200, 404 or 400, and 200 exactly when the
    reparent returned its concept. An unknown concept id, or a new parent
    that is a non-empty name of no concept, is answered with 404, and a
    reparent that the walk along the parent references from the new parent
    shows to close a cycle with 400; in these cases the service is left as
    [load] leaves it. In every other case the concept has its new parent
    in the cached store, whether the write goes through or not: the answer
    is 200 with the concept when it does, and when it fails the error of
    the write with 404 if its message has "not found" in it and 400
    otherwise. *)
Theorem X23_patch_parent_status w clk i newParent svc :
  let cs := concepts (load clk svc).1 in
  let r := Fallible.patchParent w clk i newParent svc in
  (r.1.1 = 200 ∨ r.1.1 = 404 ∨ r.1.1 = 400)
  ∧ (r.1.1 = 200 ↔ ∃ c, r.1.2 = Fallible.returned c)
  ∧ (findById i cs = None
     ∨ (∃ p, newParent = Some p ∧ p ≠ "" ∧ findByExactName p cs = None) →
     r.1.1 = 404 ∧ r.2 = (load clk svc).2)
  ∧ (∀ k child p, findById i cs = Some (k, child) → newParent = Some p →
       walkFindsCycleRef cs (name child) p →
       r.1 = (400, Fallible.threw (Fallible.ownError CircularReference))
       ∧ r.2 = (load clk svc).2)
  ∧ (∀ k child, findById i cs = Some (k, child) →
       (∀ p, newParent = Some p → p ≠ "" →
          is_Some (findByExactName p cs) ∧ ¬ walkFindsCycleRef cs (name child) p) →
       let child' := set_parent (orUndefined newParent) (t_now clk) child in
       cached r.2 = <[k := child']> cs
       ∧ r.1 = match w with
               | Fallible.written => (200, Fallible.returned child')
               | Fallible.mkdirThrows message | Fallible.writeFileThrows message _ =>
                   (if includes message "not found" then 404 else 400,
                    Fallible.threw (Fallible.writeError message))
               end).
Proof.
  intros cs r. subst cs r.
  assert (∀ k child (svc' : StorageService),
            let child' := set_parent (orUndefined newParent) (t_now clk) child in
            let r := Fallible.saveAndReturn child' w clk
                       (withConcepts (<[k := child']> (concepts (load clk svc).1))
                          (load clk svc).1 svc') in
            (Fallible.patchParentStatus r.1 = 200 ∨ Fallible.patchParentStatus r.1 = 404
             ∨ Fallible.patchParentStatus r.1 = 400)
            ∧ (Fallible.patchParentStatus r.1 = 200 ↔ ∃ c, r.1 = Fallible.returned c)
            ∧ cached r.2 = <[k := child']> (concepts (load clk svc).1)
            ∧ (Fallible.patchParentStatus r.1, r.1)
              = match w with
                | Fallible.written => (200, Fallible.returned child')
                | Fallible.mkdirThrows message | Fallible.writeFileThrows message _ =>
                    (if includes message "not found" then 404 else 400,
                     Fallible.threw (Fallible.writeError message))
                end) as Hreassign.
  { intros k child svc' child' r. subst r.
    split; [|split; [|split; [apply cached_saveAndReturn|]]];
      rewrite saveAndReturn_withConcepts; destruct w as [|m|m d]; cbn [fst snd];
      unfold Fallible.patchParentStatus, Fallible.thrownMessage;
      try destruct (includes m "not found"); try done; auto.
    all: first [by split; [intros _; eexists|] | split; [done|by intros [? ?]]]. }
  unfold Fallible.patchParent, Fallible.updateConceptParent.
  destruct (load clk svc) as [s svc0] eqn:El. cbn [fst snd] in *.
  destruct (findById i (concepts s)) as [[k child]|] eqn:Hi.
  2: { simpl. split; [by right; left|]. split; [split; [done|by intros [? ?]]|].
       split; [done|]. split; [by intros ? ? ? [=]|by intros ? ? [=]]. }
  pose proof (findById_elem_of _ _ _ _ Hi) as [Hin _].
  pose proof (λ p, wouldCreateCycle_refSpec (concepts s) i p k child Hi) as Hcycle.
  destruct newParent as [[|a p]|].
  - destruct (Hreassign k child svc0) as (H1 & H2 & H3 & H4).
    destruct (Fallible.saveAndReturn _ w clk _) as [r1 svc1]. cbn [fst snd] in *.
    split; [done|]. split; [done|]. split.
    { intros [[=]|(p & [= <-] & ? & _)]. done. }
    split.
    { intros k' child' p [= <- <-] [= <-] (n & m & Hn & _).
      by rewrite refChain_empty in Hn. }
    intros k' child' [= <- <-] _. done.
  - destruct (findByExactName (String a p) (concepts s)) as [[j q]|] eqn:Hp.
    + destruct (wouldCreateCycle (concepts s) i (String a p)) eqn:Hw.
      * simpl. split; [by right; right|]. split; [split; [done|by intros [? ?]]|].
        split.
        { intros [[=]|(p' & [= <-] & _ & Hnone)]. congruence. }
        split; [by intros|].
        intros k' child' [= <- <-] Hok. destruct (Hok _ eq_refl) as [_ Hno]; [done|].
        destruct Hno. by apply Hcycle.
      * destruct (Hreassign k child svc0) as (H1 & H2 & H3 & H4).
        destruct (Fallible.saveAndReturn _ w clk _) as [r1 svc1]. cbn [fst snd] in *.
        split; [done|]. split; [done|]. split.
        { intros [[=]|(p' & [= <-] & _ & Hnone)]. congruence. }
        split.
        { intros k' child' p' [= <- <-] [= <-] Hwalk. apply Hcycle in Hwalk. congruence. }
        intros k' child' [= <- <-] _. done.
    + simpl. split; [by right; left|]. split; [split; [done|by intros [? ?]]|].
      split; [done|]. split.
      { intros k' child' p' [= <- <-] [= <-] Hwalk. exfalso. revert Hwalk.
        apply walkFindsCycleRef_unknown; [done|].
        intros Heq. rewrite findByExactName_None in Hp. by apply (Hp child). }
      intros k' child' [= <- <-] Hok. destruct (Hok _ eq_refl) as [[? Hsome] _]; [done|].
      congruence.
  - destruct (Hreassign k child svc0) as (H1 & H2 & H3 & H4).
    destruct (Fallible.saveAndReturn _ w clk _) as [r1 svc1]. cbn [fst snd] in *.
    split; [done|]. split; [done|]. split.
    { intros [[=]|(p & [=] & _)]. }
    split; [by intros ? ? ? _ [=]|].
    intros k' child' [= <- <-] _. done.
Qed.

(** A batch that names one concept twice, on a first run: both entries of
    what it returns are the one concept of the store, as the second round
    left it. *)
Example batch_same_name_twice :
  ∃ c, addConceptsFromExtraction twoRounds twoIds [useStateExtracted; useStateShouted]
         (Some "seen in a chat") firstRun
       = (Ok [c; c],
          {| store := Some {| version := "1.0.0"; concepts := [c];
                              lastUpdated := t_save clock1 |};
             disk := contents (json {| version := "1.0.0"; concepts := [c];
                                       lastUpdated := t_save clock1 |}) |})
    ∧ id c = uuid0 ∧ name c = "useState"
    ∧ chatSnippets c = [{| timestamp := t_now clock0; content := "seen in a chat" |};
                        {| timestamp := t_now clock1; content := "seen in a chat" |}]
    ∧ lastSeen c = t_now clock1.
Proof. eexists. split; [by vm_compute|]. by vm_compute. Qed.

(** X24. The context the extraction tool stores is the first 500
    characters of the text, followed by three dots exactly when the text is
    longer: a text of up to 500 characters is stored whole, and the context
    is never longer than 503. With no concept extracted the service is not
    touched. When the tool answers with saved concepts, it lists one for
    each extraction: the id, name, category, parent and explanation of a
    concept of the store. That concept has the context, if it is not empty,
    as its newest chat snippet, stamped with the time of a round of the
    batch, which is also its [lastSeen]: the round of the extraction, or a
    later round that met the same concept. Without a context no snippet is
    added. *)
Theorem X24_extract_context clk clk' uuid text saveContext extracted svc :
  let r := handleExtractConcepts clk uuid text saveContext extracted svc in
  let final := concepts (load clk' r.2).1 in
  (∀ ctx, contextSnippet saveContext text = Some ctx →
     saveContext = true
     ∧ String.length ctx ≤ 503
     ∧ sliceTo 500 ctx = sliceTo 500 text
     ∧ (String.length text ≤ 500 → ctx = text)
     ∧ (500 < String.length text → ctx = sliceTo 500 text +:+ "..."))
  ∧ (extracted = [] → r = (nothingExtracted, svc))
  ∧ (∀ message saved, r.1 = extractedAndSaved message saved →
       length saved = length extracted
       ∧ ∀ j listed, saved !! j = Some listed →
           ∃ c old j', c ∈ final ∧ listed = savedConcept c
             ∧ j ≤ j' < length extracted
             ∧ chatSnippets c
               = pushSnippet (t_now (clk j')) (contextSnippet saveContext text) old
             ∧ lastSeen c = t_now (clk j')).
Proof.
  intros r final. subst r final. split; [|split].
  - intros ctx Hctx. unfold contextSnippet in Hctx. destruct saveContext; [|done].
    split; [done|]. apply (inj Some) in Hctx.
    by apply (cut_with_dots 500 text ctx).
  - by intros ->.
  - intros message saved. unfold handleExtractConcepts.
    destruct extracted as [|x rest] eqn:Hx; [done|]. rewrite <- Hx. clear Hx.
    destruct (addConceptsFromExtraction_spec clk uuid extracted
                (contextSnippet saveContext text) svc) as (results & Hok & Hlen & Hfinal).
    destruct (Hfinal clk') as (_ & _ & Heach).
    destruct (addConceptsFromExtraction clk uuid extracted _ svc) as [res svc'].
    cbn [fst snd] in *. subst res. cbn [fst snd]. intros [= _ <-].
    split; [by rewrite length_fmap|].
    intros j listed Hj. rewrite list_lookup_fmap in Hj.
    destruct (results !! j) as [c|] eqn:Hc; [|done]. injection Hj as <-.
    destruct (lookup_lt_is_Some_2 extracted j) as [x' Hx'].
    { rewrite <- Hlen. by eapply lookup_lt_Some. }
    destruct (Heach j c x' Hc Hx') as (Hin & _ & old & j' & Hj' & Hsnip & Hseen).
    by exists c, old, j'.
Qed.

(** ** The tree *)

(** X25. [buildTree] keeps the input order. Whatever the names, the roots
    are, in input order, the names of the concepts whose parent is absent,
    empty or the name of no concept of the list; there is a node for a name
    exactly when a concept has the name; and the children of the node of a
    name are, in input order, the names of the concepts whose parent is
    that name. The node holds a concept of the list that has the name. *)
Theorem X25_tree_order cs :
  (buildTree cs).2 = name <$> filter (λ c, attachedTo cs c = None) cs
  ∧ (∀ n, is_Some ((buildTree cs).1 !! n) ↔ n ∈ name <$> cs)
  ∧ (∀ n cell, (buildTree cs).1 !! n = Some cell →
       children cell = name <$> filter (λ c, attachedTo cs c = Some n) cs
       ∧ concept cell ∈ cs ∧ name (concept cell) = n)
  ∧ (∀ c, c ∈ cs →
       (attachedTo cs c = None
        ↔ truthy (parent c) = false ∨ ∀ c', c' ∈ cs → parent c ≠ Some (name c'))
       ∧ (∀ n, attachedTo cs c = Some n ↔ n ≠ "" ∧ parent c = Some n ∧ n ∈ name <$> cs)).
Proof.
  split; [apply buildTree_roots|]. split; [|split].
  - intros n. rewrite buildTree_cell, fmap_is_Some. apply createNodes_is_Some.
  - intros n cell. rewrite buildTree_cell.
    destruct (createNodes cs !! n) as [cell0|] eqn:Hcell; [|done]. intros [= <-]. simpl.
    destruct (createNodes_cell _ _ _ Hcell) as (_ & ? & ?). done.
  - intros c Hc. split; [apply attachedTo_None|]. intros n. unfold attachedTo.
    destruct (parent c) as [[|a p]|]; [naive_solver| |naive_solver].
    destruct (decide (String a p ∈ name <$> cs)); naive_solver.
Qed.

(** X26. Of two concepts with one name the tree shows the later one only.
    When [c2] is the last concept of its name and an earlier concept [c1],
    another record, has the same name, the node of the name holds [c2], no
    node holds [c1], and [c1] occurs nowhere in the forest, however deep it
    is unfolded. *)
Theorem X26_same_name_shadows l1 c2 l3 c1 depth :
  let cs := l1 ++ c2 :: l3 in
  name c2 ∉ name <$> l3 → c1 ∈ l1 → name c1 = name c2 → c1 ≠ c2 →
  concept <$> (buildTree cs).1 !! name c2 = Some c2
  ∧ (∀ n cell, (buildTree cs).1 !! n = Some cell → concept cell ≠ c1)
  ∧ occurrencesIn c1 (forestView depth cs) = 0.
Proof.
  intros cs Hlast Hc1 Hname Hne.
  assert (concept <$> (buildTree cs).1 !! name c2 = Some c2) as Hc2.
  { rewrite buildTree_cell. unfold cs. by rewrite createNodes_last. }
  assert (∀ n cell, (buildTree cs).1 !! n = Some cell → concept cell ≠ c1) as Habsent.
  { intros n cell Hcell Heq. destruct (decide (n = name c2)) as [->|Hn].
    - rewrite Hcell in Hc2. simpl in Hc2. congruence.
    - rewrite buildTree_cell in Hcell.
      destruct (createNodes cs !! n) as [cell0|] eqn:Hcell0; [|done].
      injection Hcell as <-. simpl in Heq.
      destruct (createNodes_cell _ _ _ Hcell0) as (_ & _ & Hn0). congruence. }
  split; [done|]. split; [done|].
  unfold occurrencesIn, forestView. apply sum_list_zero.
  intros t Ht. apply list_elem_of_omap in Ht as (r & _ & Ht).
  by eapply occurrences_absent.
Qed.

Lemma X26_witness :
  (name useState ∉ name <$> @nil Concept)
  ∧ hooksRenamed ∈ [hooksRenamed]
  ∧ name hooksRenamed = name useState
  ∧ forest [hooksRenamed; useState] = [treeNode useState []; treeNode useState []]
  ∧ occurrencesIn hooksRenamed (forestView 2 [hooksRenamed; useState]) = 0.
Proof.
  assert (name useState ∉ name <$> @nil Concept) as Hlast by apply not_elem_of_nil.
  assert (hooksRenamed ∈ [hooksRenamed]) as Hin by apply list_elem_of_here.
  split; [exact Hlast|]. split; [exact Hin|]. split; [reflexivity|].
  split; [reflexivity|].
  apply (X26_same_name_shadows [hooksRenamed] useState [] hooksRenamed 2 Hlast Hin eq_refl).
  discriminate.
Defined.

(** ** The documentation export *)

(** X27. With unique names the documentation export returns: the
    recursion of [renderNode] ends for every tree of the forest. With two
    concepts of one name it need not. Adding a third concept under
    "useState" and renaming it to "React Hooks" leaves a store, its ids
    still unique, in which the node of "React Hooks" is reached again from
    its own child: there [renderNode] returns with no amount of fuel, and
    the export does not return. *)
Theorem X27_documentation_returns (exportDate : string) (localeDate : string → string)
    options cs :
  (NoDup (name <$> cs) → is_Some (exportAsMarkdown exportDate localeDate cs options))
  ∧ ((∃ s, store (updateConcept clock1 uuid1 renameToHooks
                    (addConcept clock0 uuid1 hooksAgainExtracted None hooksService).2).2
           = Some s ∧ concepts s = renamedStore)
     ∧ NoDup (id <$> renamedStore)
     ∧ (buildTree renamedStore).2 = ["React Hooks"]
     ∧ (∀ fuel level,
          renderNode localeDate fuel (buildTree renamedStore).1 options level "React Hooks"
          = None)
     ∧ exportAsMarkdown exportDate localeDate renamedStore options = None).
Proof.
  split; [apply exportAsMarkdown_returns|].
  split; [by eexists|].
  split; [apply (bool_decide_unpack _); by vm_compute|]. split; [done|]. split.
  - intros fuel level. apply renderNode_renamedStore.
  - unfold exportAsMarkdown. cbv zeta.
    assert (mapM (renderCategory localeDate (S (length renamedStore))
                    (buildTree renamedStore).1 (buildTree renamedStore).2 options)
              [language; library; pattern; architecture] = None) as ->; [|done].
    apply mapM_None, Exists_exists. exists library.
    split; [apply list_elem_of_further, list_elem_of_here|].
    unfold renderCategory.
    assert (filter (λ ref, category ∘ concept <$> (buildTree renamedStore).1 !! ref
                           = Some library) (buildTree renamedStore).2
            = ["React Hooks"]) as -> by (by vm_compute).
    change (mapM ?g ["React Hooks"]) with (y ← g "React Hooks"; k ← mapM g []; Some (y :: k)).
    by rewrite (proj1 (renderNode_renamedStore localeDate options _ 3)).
Qed.

Lemma X27_witness :
  NoDup (name <$> concepts hooksStore)
  ∧ is_Some (exportAsMarkdown "March 1, 2024" dayOf (concepts hooksStore)
               {| includeSnippets := None; includeCodeLocations := None |}).
Proof.
  assert (NoDup (name <$> concepts hooksStore)) as Hnd.
  { apply (bool_decide_unpack _). vm_compute. exact I. }
  split; [exact Hnd|].
  apply (X27_documentation_returns "March 1, 2024" dayOf
           {| includeSnippets := None; includeCodeLocations := None |}
           (concepts hooksStore)).
  exact Hnd.
Defined.

(** X28. What the options leave out of the documentation export does not
    leak into it: with [includeSnippets] false the result is the same for
    any two lists of concepts that differ in their chat snippets only, and
    with [includeCodeLocations] false for any two that differ in their code
    locations only. *)
Theorem X28_documentation_leaves_out (exportDate : string) (localeDate : string → string)
    options cs cs' :
  (includeSnippets options = Some false →
   withoutSnippets <$> cs = withoutSnippets <$> cs' →
   exportAsMarkdown exportDate localeDate cs options
   = exportAsMarkdown exportDate localeDate cs' options)
  ∧ (includeCodeLocations options = Some false →
     withoutLocations <$> cs = withoutLocations <$> cs' →
     exportAsMarkdown exportDate localeDate cs options
     = exportAsMarkdown exportDate localeDate cs' options).
Proof.
  split; intros Hoff Heq.
  - rewrite <- (exportAsMarkdown_stripped exportDate localeDate options withoutSnippets)
      by (try done; intros level c; unfold nodeLines; by rewrite Hoff).
    rewrite Heq.
    apply (exportAsMarkdown_stripped exportDate localeDate options withoutSnippets);
      try done.
    intros level c. unfold nodeLines. by rewrite Hoff.
  - rewrite <- (exportAsMarkdown_stripped exportDate localeDate options withoutLocations)
      by (try done; intros level c; unfold nodeLines; by rewrite Hoff).
    rewrite Heq.
    apply (exportAsMarkdown_stripped exportDate localeDate options withoutLocations);
      try done.
    intros level c. unfold nodeLines. by rewrite Hoff.
Qed.

(** ** Reparenting and scanning, further *)



(** X30. What a scan reports for one file. A file that cannot be read
    gives nothing. A file that can gives one location for each line in
    which the name is found, however often it stands there, in the order
    of the lines: the line numbers increase strictly along the list, lie
    between 1 and the number of lines, and a context is never longer than
    100 characters. Over several files the locations come file by file, in
    the order of the files. *)
Theorem X30_scan_of_a_file (relative : string → string → string) rootPath c f :
  (readAs f = None → scanFile relative rootPath c f = [])
  ∧ (∀ content, readAs f = Some content →
       let lines := split newline content in
       let found := scanFile relative rootPath c f in
       length found
       = length (filter (λ l, regexTest (patternSource (name c)) l = true) lines)
       ∧ (∀ j k a b, j < k → found !! j = Some a → found !! k = Some b →
            line a < line b)
       ∧ ∀ loc, loc ∈ found →
           file loc = relative rootPath (path f)
           ∧ 1 ≤ line loc ≤ length lines
           ∧ String.length (context loc) ≤ 100)
  ∧ (∀ before after,
       scanForConcept relative rootPath c (before ++ f :: after)
       = scanForConcept relative rootPath c before
         ++ scanFile relative rootPath c f
         ++ scanForConcept relative rootPath c after).
Proof.
  split; [|split].
  - unfold scanFile. by intros ->.
  - intros content Hread lines found. subst found. unfold scanFile. rewrite Hread.
    fold lines. split; [apply length_scanLines|]. split.
    + intros j k a b Hjk Ha Hb. by destruct (scanLines_sorted _ _ _ _ _ _ _ _ Hjk Ha Hb).
    + intros loc (j & text & Hj & _ & ->)%elem_of_scanLines. cbn [file line context].
      apply lookup_lt_Some in Hj. rewrite length_sliceTo. split; [done|]. lia.
  - intros before after. unfold scanForConcept. by rewrite bind_app, bind_cons.
Qed.

Lemma X30_witness :
  is_Some (readAs fileA)
  ∧ length (scanFile belowRoot projectRoot useState fileA) = 1.
Proof.
  split; [by eexists|].
  destruct (proj1 (proj2 (X30_scan_of_a_file belowRoot projectRoot useState fileA))
              _ eq_refl) as [-> _].
  by vm_compute.
Defined.
